(** * StrainFLAIR, [scripts/mapping_parser.py]: a shallow embedding

    The script assigns reads aligned on a pangenome variation graph to
    annotated gene paths.  Python dictionaries preserve insertion order and the
    script relies on it ([final_paths[0]], [list(d.keys())[0]], iteration over
    [pangenome.paths()]), so dictionaries are association lists in insertion
    order.  A Python exception is a value [Raise e] of the [result] type.
    Python floats are read as exact rationals ([Q]); [np.std] lands in [R]. *)

From Stdlib Require Import List String Ascii ZArith QArith Lia Bool Arith.
From Stdlib Require Import DecimalString Reals.
Import ListNotations.

Close Scope R_scope.
Close Scope Q_scope.
Open Scope string_scope.
Open Scope list_scope.
Open Scope nat_scope.

(** ** Exceptions *)

Inductive pyerror : Set :=
| IndexError
| KeyError
| ZeroDivisionError
| NameError
| TypeError
| SelfSuccessor   (* a subpath that lists itself in its own [next]: not a DAG *)
| OutOfFuel.      (* the [while queue] loop did not finish within the fuel *)

Inductive result (A : Type) : Type :=
| Ok (a : A)
| Raise (e : pyerror).
Arguments Ok {A} a.
Arguments Raise {A} e.

Definition bind {A B : Type} (r : result A) (k : A -> result B) : result B :=
  match r with
  | Ok a => k a
  | Raise e => Raise e
  end.

Notation "x <- r ;; k" := (bind r (fun x => k))
  (at level 61, r at next level, right associativity).
Notation "' p <- r ;; k" := (bind r (fun x => let 'p := x in k))
  (at level 61, p pattern, r at next level, right associativity).

Definition of_option {A : Type} (e : pyerror) (o : option A) : result A :=
  match o with
  | Some a => Ok a
  | None => Raise e
  end.

(** [for x in l: st = f st x], stopping at the first exception. *)
Fixpoint for_each {S A : Type} (f : S -> A -> result S) (l : list A) (st : S)
  : result S :=
  match l with
  | [] => Ok st
  | x :: l' => st' <- f st x ;; for_each f l' st'
  end.

(** ** Dictionaries in insertion order *)

Class PyKey (K : Type) : Type := {
  key_eqb : K -> K -> bool;
  key_eqb_eq : forall a b, key_eqb a b = true <-> a = b
}.

#[global] Instance PyKey_string : PyKey string :=
  {| key_eqb := String.eqb; key_eqb_eq := String.eqb_eq |}.

#[global] Instance PyKey_nat : PyKey nat :=
  {| key_eqb := Nat.eqb; key_eqb_eq := Nat.eqb_eq |}.

Definition dict (K V : Type) : Type := list (K * V).

Section Dict.
Context {K V : Type} `{PyKey K}.

(** [d.get(k)] *)
Fixpoint dict_get (k : K) (d : dict K V) : option V :=
  match d with
  | [] => None
  | (k', v) :: d' => if key_eqb k k' then Some v else dict_get k d'
  end.

(** [k in d] *)
Definition dict_mem (k : K) (d : dict K V) : bool :=
  match dict_get k d with
  | Some _ => true
  | None => false
  end.

(** [d[k] = v]: an existing key keeps its place, a new key goes last. *)
Fixpoint dict_set (k : K) (v : V) (d : dict K V) : dict K V :=
  match d with
  | [] => [(k, v)]
  | (k', v') :: d' =>
      if key_eqb k k' then (k', v) :: d' else (k', v') :: dict_set k v d'
  end.

(** [d.pop(k)] (the caller checks presence) *)
Fixpoint dict_pop (k : K) (d : dict K V) : dict K V :=
  match d with
  | [] => []
  | (k', v') :: d' =>
      if key_eqb k k' then d' else (k', v') :: dict_pop k d'
  end.

(** [list(d.keys())] *)
Definition dict_keys (d : dict K V) : list K := map fst d.

(** [x in l] for a Python list *)
Definition py_in (x : K) (l : list K) : bool := existsb (key_eqb x) l.
End Dict.

(** ** Strings *)

Definition str_len (s : string) : nat := String.length s.

Definition chars (s : string) : list ascii := list_ascii_of_string s.

(** [for n in s]: the characters of [s] as one-character strings *)
Definition letters (s : string) : list string :=
  map (fun c => String c EmptyString) (chars s).

(** [s.split(c)] for a one-character separator *)
Fixpoint split_on (c : ascii) (s : string) : list string :=
  match s with
  | EmptyString => [EmptyString]
  | String a s' =>
      if Ascii.eqb a c then EmptyString :: split_on c s'
      else match split_on c s' with
           | [] => [String a EmptyString]
           | w :: ws => String a w :: ws
           end
  end.

(** [sep.join(l)] *)
Definition join (sep : string) (l : list string) : string := String.concat sep l.

(** [s[-1]] *)
Definition last_char (s : string) : result ascii :=
  match rev (chars s) with
  | [] => Raise IndexError
  | c :: _ => Ok c
  end.

Fixpoint drop_while_eq (c : ascii) (l : list ascii) : list ascii :=
  match l with
  | [] => []
  | a :: l' => if Ascii.eqb a c then drop_while_eq c l' else l
  end.

(** [s.rstrip(c)] for a one-character [c] *)
Definition rstrip (c : ascii) (s : string) : string :=
  string_of_list_ascii (rev (drop_while_eq c (rev (chars s)))).

(** [str(z)] *)
Definition str_of_Z (z : Z) : string := NilZero.string_of_int (Z.to_int z).

Definition complement (base : ascii) : result ascii :=
  match base with
  | "A"%char => Ok "T"%char
  | "C"%char => Ok "G"%char
  | "G"%char => Ok "C"%char
  | "T"%char => Ok "A"%char
  | "N"%char => Ok "N"%char
  | _ => Raise KeyError
  end.

Fixpoint complement_all (l : list ascii) : result (list ascii) :=
  match l with
  | [] => Ok []
  | b :: l' =>
      c <- complement b ;;
      cs <- complement_all l' ;;
      Ok (c :: cs)
  end.

Definition reverse_complement (dna : string) : result string :=
  cs <- complement_all (rev (chars dna)) ;;
  Ok (string_of_list_ascii cs).

(** ** Graph model *)

Record Node : Type := mkNode {
  node_ID : string;
  node_sequence : string;
  pathsCrossed : dict string (list (nat * ascii));
  node_previous : list string;
  node_next : list string
}.

(** [Node(ID, sequence)] *)
Definition new_Node (ID sequence : string) : Node :=
  mkNode ID sequence [] [] [].

Record Path : Type := mkPath {
  path_ID : string;
  path_nodes : list string;
  path_sequence : string
}.

Record Pangenome : Type := mkPangenome {
  pg_nodes : dict string Node;
  pg_paths : dict string Path
}.

Definition empty_pangenome : Pangenome := mkPangenome [] [].

Definition add_path (pg : Pangenome) (path : Path) : Pangenome :=
  mkPangenome (pg_nodes pg) (dict_set (path_ID path) path (pg_paths pg)).

Definition get_path (pg : Pangenome) (path_id : string) : result Path :=
  of_option KeyError (dict_get path_id (pg_paths pg)).

Definition paths (pg : Pangenome) : list string := dict_keys (pg_paths pg).

Definition add_node (pg : Pangenome) (node : Node) : Pangenome :=
  mkPangenome (dict_set (node_ID node) node (pg_nodes pg)) (pg_paths pg).

Definition get_node (pg : Pangenome) (node_id : string) : result Node :=
  of_option KeyError (dict_get node_id (pg_nodes pg)).

(** The third argument of [edit_node]: a path occurrence for ["add_path"], a
    node identifier for the adjacency edits. *)
Inductive edit_value : Type :=
| PathOcc (path_id : string) (t : nat * ascii)
| NodeRef (node_id : string).

Definition with_node (pg : Pangenome) (key : string) (f : Node -> Node)
  : result Pangenome :=
  n <- get_node pg key ;;
  Ok (mkPangenome (dict_set key (f n) (pg_nodes pg)) (pg_paths pg)).

(** [pathsCrossed] is a [defaultdict(list)]: a missing path gets a fresh list. *)
Definition cross (path_id : string) (t : nat * ascii) (n : Node) : Node :=
  let old := match dict_get path_id (pathsCrossed n) with
             | Some l => l
             | None => []
             end in
  mkNode (node_ID n) (node_sequence n)
         (dict_set path_id (old ++ [t]) (pathsCrossed n))
         (node_previous n) (node_next n).

Definition push_next (v : string) (n : Node) : Node :=
  mkNode (node_ID n) (node_sequence n) (pathsCrossed n)
         (node_previous n) (node_next n ++ [v]).

Definition push_previous (v : string) (n : Node) : Node :=
  mkNode (node_ID n) (node_sequence n) (pathsCrossed n)
         (node_previous n ++ [v]) (node_next n).

Definition edit_node (pg : Pangenome) (edit_type key : string) (value : edit_value)
  : result Pangenome :=
  if (edit_type =? "add_path")%string then
    match value with
    | PathOcc path_id t => with_node pg key (cross path_id t)
    | NodeRef _ => Raise TypeError
    end
  else if (edit_type =? "add_next")%string then
    match value with
    | NodeRef v => with_node pg key (push_next v)
    | PathOcc _ _ => Raise TypeError
    end
  else if (edit_type =? "add_previous")%string then
    match value with
    | NodeRef v => with_node pg key (push_previous v)
    | PathOcc _ _ => Raise TypeError
    end
  else Ok pg.

(** ** Graph builder: [parse_graph]

    A line is given after [line.strip().split('\t')]. *)

Definition field (line : list string) (i : nat) : result string :=
  of_option IndexError (nth_error line i).

(** One turn of [for idx, node_info in enumerate(node_list)]; the state is the
    graph, the node list of the path and its sequence so far. *)
Definition path_step (path_id : string)
  (st : Pangenome * list string * string) (item : nat * string)
  : result (Pangenome * list string * string) :=
  let '(pg, nodes, pseq) := st in
  let '(idx, node_info) := item in
  ori <- last_char node_info ;;
  let node_id := rstrip ori node_info in
  node <- get_node pg node_id ;;
  pg' <- edit_node pg "add_path" node_id (PathOcc path_id (idx, ori)) ;;
  if Ascii.eqb ori "+"%char then
    Ok (pg', nodes ++ [node_ID node], (pseq ++ node_sequence node)%string)
  else
    rc <- reverse_complement (node_sequence node) ;;
    Ok (pg', nodes ++ [node_ID node], (pseq ++ rc)%string).

Definition enumerate {A : Type} (l : list A) : list (nat * A) :=
  combine (seq 0 (List.length l)) l.

(** An [L] record.  [node1] and [node2] are references to the live objects; the
    first edit only touches [node1.next], so [node2.previous] read afterwards
    is the value fetched before it. *)
Definition link_step (pg : Pangenome) (line : list string) : result Pangenome :=
  id1 <- field line 1 ;;
  node1 <- get_node pg id1 ;;
  id2 <- field line 3 ;;
  node2 <- get_node pg id2 ;;
  pg1 <- (if negb (py_in (node_ID node2) (node_next node1))
          then edit_node pg "add_next" (node_ID node1) (NodeRef (node_ID node2))
          else Ok pg) ;;
  if negb (py_in (node_ID node1) (node_previous node2))
  then edit_node pg1 "add_prev" (node_ID node1) (NodeRef (node_ID node2))
  else Ok pg1.

Definition parse_line (pg : Pangenome) (line : list string) : result Pangenome :=
  tag <- field line 0 ;;
  if (tag =? "S")%string then
    ID <- field line 1 ;;
    sequence <- field line 2 ;;
    Ok (add_node pg (new_Node ID sequence))
  else if (tag =? "P")%string then
    path_id <- field line 1 ;;
    walk <- field line 2 ;;
    '(pg', nodes, pseq) <-
      for_each (path_step path_id) (enumerate (split_on ","%char walk)) (pg, [], "") ;;
    Ok (add_path pg' (mkPath path_id nodes pseq))
  else if (tag =? "L")%string then link_step pg line
  else Ok pg.

Definition parse_graph (lines : list (list string)) : result Pangenome :=
  for_each parse_line lines empty_pangenome.

(** ** Gene identity index: [generate_clusters_dict]

    [d_clusters] is read from a pickle; it maps a cluster identifier to its
    ['genes_list']. *)

Definition gene_step (pg : Pangenome) (d_genes : dict string (list string))
  (cpath : string) : result (dict string (list string)) :=
  p <- get_path pg cpath ;;
  let nodelist := join "-" (path_nodes p) in
  match dict_get nodelist d_genes with
  | Some members => Ok (dict_set nodelist (members ++ [cpath]) d_genes)
  | None =>
      let nodelist := join "-" (rev (path_nodes p)) in
      match dict_get nodelist d_genes with
      | Some members => Ok (dict_set nodelist (members ++ [cpath]) d_genes)
      | None => Ok (dict_set nodelist [cpath] d_genes)
      end
  end.

Definition build_genes (pg : Pangenome) : result (dict string (list string)) :=
  for_each (gene_step pg) (paths pg) [].

(** An entry of [d_idt], a [defaultdict(dict)] with keys ['genes'] and
    ['cluster']. *)
Record Identity : Type := mkIdentity {
  idt_genes : option string;
  idt_cluster : option string
}.

Definition idt_of (d_idt : dict string Identity) (j : string) : Identity :=
  match dict_get j d_idt with
  | Some e => e
  | None => mkIdentity None None
  end.

Definition set_genes (i : string) (d_idt : dict string Identity) (j : string)
  : dict string Identity :=
  dict_set j (mkIdentity (Some i) (idt_cluster (idt_of d_idt j))) d_idt.

Definition set_cluster (i : string) (d_idt : dict string Identity) (j : string)
  : dict string Identity :=
  dict_set j (mkIdentity (idt_genes (idt_of d_idt j)) (Some i)) d_idt.

Definition build_idt (d_clusters d_genes : dict string (list string))
  : dict string Identity :=
  let with_genes :=
    fold_left (fun acc kv => fold_left (set_genes (fst kv)) (snd kv) acc) d_genes [] in
  fold_left (fun acc kv => fold_left (set_cluster (fst kv)) (snd kv) acc)
            d_clusters with_genes.

Definition generate_clusters_dict (pg : Pangenome)
  (d_clusters : dict string (list string))
  : result (dict string (list string) * dict string (list string) * dict string Identity) :=
  d_genes <- build_genes pg ;;
  Ok (d_clusters, d_genes, build_idt d_clusters d_genes).

(** ** Alignment records (one JSON line of the mapper's output) *)

Record Edit : Type := mkEdit {
  from_length : option Z;
  to_length : option Z;
  edit_sequence : option string
}.

Record Position : Type := mkPosition {
  node_id : string;
  offset : option Z;
  is_reverse : option bool   (* the script tests the presence of the key *)
}.

Record Mapping : Type := mkMapping {
  position : Position;
  edit : list Edit
}.

Record Subpath : Type := mkSubpath {
  mapping : list Mapping;        (* [subpath[i]['path']['mapping']] *)
  sp_next : option (list nat);
  sp_score : option Z
}.

Record Aln : Type := mkAln {
  aln_name : string;
  aln_sequence : string;
  aln_subpath : option (list Subpath);
  aln_start : list nat           (* the record's declared roots *)
}.

Definition get_or {A : Type} (o : option A) (d : A) : A :=
  match o with
  | Some a => a
  | None => d
  end.

Definition has {A : Type} (o : option A) : bool :=
  match o with
  | Some _ => true
  | None => false
  end.

Definition from_len (e : Edit) : Z := get_or (from_length e) 0%Z.
Definition to_len (e : Edit) : Z := get_or (to_length e) 0%Z.

(** ** Variant extractor: [get_variants] *)

Inductive vpos : Type :=
| AtBase (pos : Z)           (* an integer offset in the node *)
| Inserted (key : string).   (* ["<left>-<right>_<offset>"] *)

Definition vpos_eqb (a b : vpos) : bool :=
  match a, b with
  | AtBase x, AtBase y => Z.eqb x y
  | Inserted x, Inserted y => String.eqb x y
  | _, _ => false
  end.

#[global] Instance PyKey_vpos : PyKey vpos.
Proof.
  refine {| key_eqb := vpos_eqb |}.
  intros [x|x] [y|y]; simpl; split; intro E; try discriminate.
  - apply Z.eqb_eq in E. now subst.
  - injection E as ->. apply Z.eqb_refl.
  - apply String.eqb_eq in E. now subst.
  - injection E as ->. apply String.eqb_refl.
Defined.

Definition Variant : Type := string * vpos * string.

(** The cursor moves down on a reverse step and up otherwise. *)
Definition move (is_rev : bool) (pos d : Z) : Z :=
  if is_rev then (pos - d)%Z else (pos + d)%Z.

(** [for n in edit['sequence']: yield (node_id, pos, n); pos +-= 1] *)
Definition subst_step (nid : string) (is_rev : bool)
  (st : Z * list Variant) (n : string) : Z * list Variant :=
  let '(pos, out) := st in
  (move is_rev pos 1, out ++ [(nid, AtBase pos, n)]).

(** [for n in range(from_len): yield (node_id, pos, ' '); pos +-= 1] *)
Definition del_step (nid : string) (is_rev : bool)
  (st : Z * list Variant) (n : nat) : Z * list Variant :=
  let '(pos, out) := st in
  (move is_rev pos 1, out ++ [(nid, AtBase pos, " ")]).

(** One inserted character; the state is [pos_bis] and the output. *)
Definition ins_step (nid : string) (is_rev : bool) (pos : Z)
  (st : Z * list Variant) (n : string) : result (Z * list Variant) :=
  let '(pos_bis, out) := st in
  n' <- (if is_rev then reverse_complement n else Ok n) ;;
  let new_pos := (str_of_Z (pos - 1) ++ "-" ++ str_of_Z pos ++ "_" ++ str_of_Z pos_bis)%string in
  Ok (move is_rev pos_bis 1, out ++ [(nid, Inserted new_pos, n')]).

Definition edit_step (nid : string) (is_rev : bool)
  (st : Z * list Variant) (e : Edit) : result (Z * list Variant) :=
  let '(pos, out) := st in
  if (from_len e =? to_len e)%Z then
    match edit_sequence e with
    | None => Ok (move is_rev pos (from_len e), out)
    | Some s => Ok (fold_left (subst_step nid is_rev) (letters s) (pos, out))
    end
  else
    match edit_sequence e with
    | None =>
        Ok (fold_left (del_step nid is_rev) (seq 0 (Z.to_nat (from_len e))) (pos, out))
    | Some s =>
        let pos_bis := if is_rev then (Z.of_nat (str_len s) - 1)%Z else 0%Z in
        '(_, out') <- for_each (ins_step nid is_rev pos) (letters s) (pos_bis, out) ;;
        Ok (pos, out')
    end.

Definition node_variants (pg : Pangenome) (out : list Variant) (node : Mapping)
  : result (list Variant) :=
  let nid := node_id (position node) in
  let off := get_or (offset (position node)) 0%Z in
  let is_rev := has (is_reverse (position node)) in
  pos <- (if is_rev
          then n <- get_node pg nid ;;
               Ok (Z.of_nat (str_len (node_sequence n)) - 1 - off)%Z
          else Ok off) ;;
  '(_, out') <- for_each (edit_step nid is_rev) (edit node) (pos, out) ;;
  Ok out'.

(** The generator, run to exhaustion. *)
Definition get_variants (pg : Pangenome) (mapping_node : Subpath)
  : result (list Variant) :=
  for_each (node_variants pg) (mapping mapping_node) [].

(** ** Rational arithmetic standing for Python's floats

    Values are kept in lowest terms so that equal numbers are equal terms. *)

Definition qadd (a b : Q) : Q := Qred (Qplus a b).

(** [a / b] on integers (true division) *)
Definition true_div (a b : Z) : result Q :=
  if (b =? 0)%Z then Raise ZeroDivisionError
  else Ok (Qred (Qdiv (inject_Z a) (inject_Z b))).

(** ** Best-path resolver: [BFS] *)

(** An element of [current_paths[i]]:
    [(path, read_len, score, nb_match, nb_aligned)]. *)
Record Prefix : Type := mkPrefix {
  pf_path : list nat;
  pf_len : Z;
  pf_score : Z;
  pf_match : Z;
  pf_aligned : Z
}.

Definition edit_stats (acc : Z * Z * Z) (e : Edit) : Z * Z * Z :=
  let '(read_len, nb_match, nb_aligned) := acc in
  ((read_len + to_len e)%Z,
   (nb_match + (if (from_len e =? to_len e)%Z && negb (has (edit_sequence e))
                then to_len e else 0))%Z,
   (nb_aligned + Z.min (from_len e) (to_len e))%Z).

(** [(read_len, nb_match, nb_aligned)] of one subpath *)
Definition subpath_stats (sp : Subpath) : Z * Z * Z :=
  fold_left (fun acc node => fold_left edit_stats (edit node) acc)
            (mapping sp) (0%Z, 0%Z, 0%Z).

Definition own_score (sp : Subpath) : Z := get_or (sp_score sp) 0%Z.

Definition Frontier : Type := dict nat (list Prefix).

(** Step 1: [for start in range(len(subpath))].  The [try] only guards
    [subpath[start]]. *)
(** [([start], read_len, score, nb_match, nb_aligned)] *)
Definition own_prefix (start : nat) (sp : Subpath) : Prefix :=
  let '(read_len, nb_match, nb_aligned) := subpath_stats sp in
  mkPrefix [start] read_len (own_score sp) nb_match nb_aligned.

Definition seed_step (subpath : list Subpath)
  (st : list nat * Frontier) (start : nat) : list nat * Frontier :=
  match nth_error subpath start with
  | None => st
  | Some sp =>
      let '(queue, current_paths) := st in
      let old := get_or (dict_get start current_paths) [] in
      (queue ++ [start], dict_set start (old ++ [own_prefix start sp]) current_paths)
  end.

Definition seed (subpath : list Subpath) : list nat * Frontier :=
  fold_left (seed_step subpath) (seq 0 (List.length subpath)) ([], []).

(** The prefix [current] extended by [child]. *)
Definition extend (child : nat) (stats : Z * Z * Z) (child_score : Z)
  (current : Prefix) : Prefix :=
  let '(read_len, nb_match, nb_aligned) := stats in
  mkPrefix (pf_path current ++ [child])
           (pf_len current + read_len)
           (pf_score current + child_score)
           (pf_match current + nb_match)
           (pf_aligned current + nb_aligned).

(** The body of the loop over [current_paths[current_node]]; [ending] is
    [current_paths[child]]. *)
Definition relax (child : nat) (stats : Z * Z * Z) (child_score : Z)
  (ending : list Prefix) (current : Prefix) : list Prefix :=
  let updated := extend child stats child_score current in
  match ending with
  | [] => [updated]
  | best :: _ =>
      let best_previous_score := pf_score best in
      let ending1 :=
        if (pf_score updated >? best_previous_score)%Z then [updated] else ending in
      if (pf_score updated =? best_previous_score)%Z
      then ending1 ++ [updated] else ending1
  end.

(** One turn of [for child in subpath[current_node]['next']].  The inner loop
    runs over [current_paths[current_node]] while [current_paths[child]] is
    rewritten; the two are distinct lists unless a subpath is its own
    successor, which a DAG excludes and where the model stops. *)
Definition visit_child (subpath : list Subpath) (current_node : nat)
  (st : list nat * Frontier) (child : nat) : result (list nat * Frontier) :=
  let '(queue, current_paths) := st in
  let queue := if py_in child queue then queue else queue ++ [child] in
  sp <- of_option IndexError (nth_error subpath child) ;;
  if child =? current_node then Raise SelfSuccessor else
  let stats := subpath_stats sp in
  let child_score := own_score sp in
  let current_paths :=
    if dict_mem child current_paths then current_paths
    else dict_set child [] current_paths in
  prefixes <- of_option KeyError (dict_get current_node current_paths) ;;
  let ending := get_or (dict_get child current_paths) [] in
  Ok (queue,
      dict_set child (fold_left (relax child stats child_score) prefixes ending)
               current_paths).

(** [while queue:].  The fuel bounds the number of dequeued nodes. *)
Fixpoint walk (fuel : nat) (subpath : list Subpath) (seq_len : nat)
  (queue : list nat) (current_paths : Frontier) : result Frontier :=
  match queue with
  | [] => Ok current_paths
  | current_node :: queue =>
      match fuel with
      | O => Raise OutOfFuel
      | S fuel =>
          sp <- of_option IndexError (nth_error subpath current_node) ;;
          match sp_next sp with
          | None => walk fuel subpath seq_len queue current_paths
          | Some children =>
              prefixes <- of_option KeyError (dict_get current_node current_paths) ;;
              if forallb (fun i => (pf_len i =? Z.of_nat seq_len)%Z) prefixes
              then walk fuel subpath seq_len queue current_paths
              else
                '(queue, current_paths) <-
                  for_each (visit_child subpath current_node) children
                           (queue, current_paths) ;;
                walk fuel subpath seq_len queue (dict_pop current_node current_paths)
          end
      end
  end.

(** The frontier left when the queue is empty. *)
Definition BFS_frontier (fuel : nat) (aln : Aln) : result Frontier :=
  subpath <- of_option KeyError (aln_subpath aln) ;;
  let '(queue, current_paths) := seed subpath in
  walk fuel subpath (str_len (aln_sequence aln)) queue current_paths.

Record Alignment : Type := mkAlignment {
  al_nodes : list (string * Q);
  al_len : Z;
  al_score : Z;
  al_identity : Q;
  al_variants : list Variant
}.

(** [abund] of one mapping step: the node is fetched once per edit. *)
Definition edit_abund (pg : Pangenome) (nodeID : string) (abund : Q) (e : Edit)
  : result Q :=
  n <- get_node pg nodeID ;;
  q <- true_div (Z.min (from_len e) (to_len e)) (Z.of_nat (str_len (node_sequence n))) ;;
  Ok (qadd abund q).

(** [alignment.nodes] after one mapping step: the first entry of the node
    grows, or a new entry is appended. *)
Fixpoint add_abund (nodeID : string) (abund : Q) (nodes : list (string * Q))
  : list (string * Q) :=
  match nodes with
  | [] => [(nodeID, abund)]
  | (n, a) :: rest =>
      if (nodeID =? n)%string then (n, qadd a abund) :: rest
      else (n, a) :: add_abund nodeID abund rest
  end.

Definition node_abund (pg : Pangenome) (nodes : list (string * Q)) (node : Mapping)
  : result (list (string * Q)) :=
  let nodeID := node_id (position node) in
  abund <- for_each (edit_abund pg nodeID) (edit node) (0 # 1)%Q ;;
  Ok (add_abund nodeID abund nodes).

Definition subpath_node_step (pg : Pangenome) (subpath : list Subpath)
  (st : list (string * Q) * list Variant) (subpath_node : nat)
  : result (list (string * Q) * list Variant) :=
  let '(nodes, variants) := st in
  sp <- of_option IndexError (nth_error subpath subpath_node) ;;
  nodes' <- for_each (node_abund pg) (mapping sp) nodes ;;
  vs <- get_variants pg sp ;;
  Ok (nodes', variants ++ vs).

Definition make_alignment (pg : Pangenome) (subpath : list Subpath) (tupl : Prefix)
  : result Alignment :=
  '(nodes, variants) <-
    for_each (subpath_node_step pg subpath) (pf_path tupl) ([], []) ;;
  identity <- true_div (pf_match tupl) (pf_aligned tupl) ;;
  Ok (mkAlignment nodes (pf_len tupl) (pf_score tupl) identity variants).

Fixpoint map_result {A B : Type} (f : A -> result B) (l : list A) : result (list B) :=
  match l with
  | [] => Ok []
  | x :: l' =>
      y <- f x ;;
      ys <- map_result f l' ;;
      Ok (y :: ys)
  end.

(** [for idx in current_paths: for tupl in current_paths[idx]] *)
Definition tuples (current_paths : Frontier) : list Prefix :=
  List.concat (map snd current_paths).

Definition BFS (pg : Pangenome) (fuel : nat) (aln : Aln) : result (list Alignment) :=
  subpath <- of_option KeyError (aln_subpath aln) ;;
  current_paths <- BFS_frontier fuel aln ;;
  map_result (make_alignment pg subpath) (tuples current_paths).

(** ** Streaming parser: [parse_vgmpmap] *)

Definition Reads : Type := dict string (dict string (list Alignment)).
Definition Variants : Type := dict string (dict vpos (dict string (list string))).

(** The four lines that file one variant under node, position and base. *)
Definition add_variant (read : string) (variants : Variants) (tupl : Variant)
  : Variants :=
  let '(node, pos, base) := tupl in
  let by_pos := get_or (dict_get node variants) [] in
  let by_base := get_or (dict_get pos by_pos) [] in
  let names := get_or (dict_get base by_base) [] in
  dict_set node (dict_set pos (dict_set base (names ++ [read]) by_base) by_pos)
           variants.

Definition one_alignment (l : list Alignment) : bool := List.length l =? 1.

(** The body guarded by [all(len(reads[previous_read][seq]) == 1 ...)]. *)
Definition record_variants (slots : dict string (list Alignment))
  (previous_read : string) (variants : Variants) : Variants :=
  if forallb (fun kv => one_alignment (snd kv)) slots then
    fold_left
      (fun vs kv =>
         match snd kv with
         | a :: _ => fold_left (add_variant previous_read) (al_variants a) vs
         | [] => vs
         end)
      slots variants
  else variants.

(** [if aln['name'] != previous_read and previous_read in reads: ...], the
    test written both inside the loop and after it. *)
Definition flush (name previous_read : string) (reads : Reads) (variants : Variants)
  : Variants :=
  if negb (name =? previous_read)%string then
    match dict_get previous_read reads with
    | Some slots => record_variants slots previous_read variants
    | None => variants
    end
  else variants.

Record ParseState : Type := mkParseState {
  st_reads : Reads;
  st_variants : Variants;
  previous_read : string;
  last_line : option string    (* [aln['name']] of the last line read, if any *)
}.

Definition initial_state : ParseState := mkParseState [] [] "" None.

(** What a line with a ['subpath'] does to [reads]. *)
Definition store (thr : Q) (reads : Reads) (aln : Aln) (final_paths : list Alignment)
  : result Reads :=
  first <- of_option IndexError (hd_error final_paths) ;;
  let n := Z.of_nat (str_len (aln_sequence aln)) in
  new_score <- true_div (al_score first) n ;;
  if Qle_bool thr new_score then
    let slots := get_or (dict_get (aln_name aln) reads) [] in
    match dict_get (aln_sequence aln) slots with
    | None =>
        Ok (dict_set (aln_name aln) (dict_set (aln_sequence aln) final_paths slots) reads)
    | Some current =>
        cur <- of_option IndexError (hd_error current) ;;
        current_score <- true_div (al_score cur) n ;;
        if negb (Qle_bool new_score current_score) then
          Ok (dict_set (aln_name aln) (dict_set (aln_sequence aln) final_paths slots) reads)
        else if Qeq_bool new_score current_score then
          Ok (dict_set (aln_name aln)
                (dict_set (aln_sequence aln) (current ++ final_paths) slots) reads)
        else Ok reads
    end
  else Ok reads.

(** One line of the JSON file. *)
Definition parse_record (pg : Pangenome) (fuel : nat) (thr : Q)
  (st : ParseState) (aln : Aln) : result ParseState :=
  match aln_subpath aln with
  | None =>
      Ok (mkParseState (st_reads st) (st_variants st) (previous_read st)
                       (Some (aln_name aln)))
  | Some _ =>
      final_paths <- BFS pg fuel aln ;;
      reads <- store thr (st_reads st) aln final_paths ;;
      let variants := flush (aln_name aln) (previous_read st) reads (st_variants st) in
      Ok (mkParseState reads variants (aln_name aln) (Some (aln_name aln)))
  end.

Definition parse_vgmpmap (pg : Pangenome) (fuel : nat) (thr : Q) (lines : list Aln)
  : result (Reads * Variants) :=
  st <- for_each (parse_record pg fuel thr) lines initial_state ;;
  name <- of_option NameError (last_line st) ;;
  Ok (st_reads st, flush name (previous_read st) (st_reads st) (st_variants st)).

(** ** Path matcher: [get_matching_path] *)

(** [l[a:b]] with Python's treatment of negative and overlong bounds *)
Definition clamp (n i : Z) : Z :=
  if (i <? 0)%Z then Z.max (i + n) 0 else Z.min i n.

Definition py_slice {A : Type} (l : list A) (a b : Z) : list A :=
  let n := Z.of_nat (List.length l) in
  let a' := clamp n a in
  let b' := clamp n b in
  firstn (Z.to_nat (b' - a')) (skipn (Z.to_nat a') l).

Fixpoint list_eqb (l1 l2 : list string) : bool :=
  match l1, l2 with
  | [], [] => true
  | x :: l1', y :: l2' => (x =? y)%string && list_eqb l1' l2'
  | _, _ => false
  end.

Definition occurrence_step (pg : Pangenome) (node_list : list string) (path : string)
  (found : list string) (idx : nat * ascii) : result (list string) :=
  let i := Z.of_nat (fst idx) in
  let k := Z.of_nat (List.length node_list) in
  p <- get_path pg path ;;
  if list_eqb (py_slice (path_nodes p) i (i + k)) node_list then Ok (found ++ [path])
  else
    if list_eqb (py_slice (path_nodes p) (i - k + 1) (i + 1)) (rev node_list)
    then Ok (found ++ [path])
    else Ok found.

Definition get_matching_path (pg : Pangenome) (node_list : list string)
  : result (list string) :=
  start_node <- of_option IndexError (hd_error node_list) ;;
  n <- get_node pg start_node ;;
  for_each
    (fun found kv => for_each (occurrence_step pg node_list (fst kv)) (snd kv) found)
    (pathsCrossed n) [].

(** ** Abundance aggregator: the loop over reads of [get_abundance] *)

(** [d_abund[gene]] while reads are processed *)
Record GeneAbund : Type := mkGeneAbund {
  uniq_count : Q;
  nodes_abund : dict string Q;
  nb_subst : dict nat nat
}.

(** The local variables that survive from one read to the next.  [path_seq] is
    assigned only where a gene enters [d_abund]. *)
Record AbundState : Type := mkAbundState {
  d_abund : dict string GeneAbund;
  path_seq : option string;
  max_c : nat;
  multi_reads : list (string * string);
  ambig_reads : dict string (list (string * string));
  nocolor_reads : dict string (list (string * string))
}.

Definition initial_abund : AbundState := mkAbundState [] None 0 [] [] [].

(** [list(set(l))]: the order Python gives is unspecified; the first
    occurrences are kept in order. *)
Fixpoint dedup (l : list string) : list string :=
  match l with
  | [] => []
  | x :: l' => x :: filter (fun y => negb (y =? x)%string) (dedup l')
  end.

(** [d[k].append(v)] on a [defaultdict(list)] *)
Definition dict_append {V : Type} (k : string) (v : V) (d : dict string (list V))
  : dict string (list V) :=
  dict_set k (get_or (dict_get k d) [] ++ [v]) d.

(** The block run when [gene not in d_abund]. *)
Definition init_gene (pg : Pangenome) (gene : string)
  : result (GeneAbund * string) :=
  '(abund, pseq) <-
    for_each
      (fun st n =>
         let '(abund, pseq) := st in
         node <- get_node pg n ;;
         Ok (dict_set n (0 # 1)%Q abund, (pseq ++ node_sequence node)%string))
      (split_on "-"%char gene) ([], "") ;;
  Ok (mkGeneAbund (0 # 1)%Q abund [], pseq).

(** [c]: the variants whose position is not a string *)
Definition count_subst (variants : list Variant) : nat :=
  List.length (filter (fun t => match snd (fst t) with
                               | AtBase _ => true
                               | Inserted _ => false
                               end) variants).

(** The unique-match case for one read. *)
Definition unique_match (pg : Pangenome) (st : AbundState) (gene mate : string)
  (align : Alignment) : result AbundState :=
  '(d_abund1, path_seq1) <-
    (match dict_get gene (d_abund st) with
     | Some _ => Ok (d_abund st, path_seq st)
     | None =>
         '(g, pseq) <- init_gene pg gene ;;
         Ok (dict_set gene g (d_abund st), Some pseq)
     end) ;;
  g <- of_option KeyError (dict_get gene d_abund1) ;;
  pseq <- of_option NameError path_seq1 ;;
  inc <- true_div (Z.of_nat (str_len mate)) (Z.of_nat (str_len pseq)) ;;
  let uniq := qadd (uniq_count g) inc in
  abund <-
    for_each
      (fun abund i =>
         a <- of_option KeyError (dict_get (fst i) abund) ;;
         Ok (dict_set (fst i) (qadd a (snd i)) abund))
      (al_nodes align) (nodes_abund g) ;;
  let c := count_subst (al_variants align) in
  let subst := dict_set c (S (get_or (dict_get c (nb_subst g)) 0)) (nb_subst g) in
  Ok (mkAbundState (dict_set gene (mkGeneAbund uniq abund subst) d_abund1)
                   path_seq1 (Nat.max c (max_c st))
                   (multi_reads st) (ambig_reads st) (nocolor_reads st)).

(** The body of [for pair in reads[read]]; [mate] stands for [pair]. *)
Definition process_pair (pg : Pangenome) (d_idt : dict string Identity)
  (read : string) (st : AbundState) (slot : string * list Alignment)
  : result AbundState :=
  let '(mate, alignments) := slot in
  if 1 <? List.length alignments then
    Ok (mkAbundState (d_abund st) (path_seq st) (max_c st)
                     (multi_reads st ++ [(read, mate)])
                     (ambig_reads st) (nocolor_reads st))
  else
    align <- of_option IndexError (hd_error alignments) ;;
    let align_nodes := map fst (al_nodes align) in
    found <- get_matching_path pg align_nodes ;;
    genes <- map_result (fun i => of_option KeyError (idt_genes (idt_of d_idt i))) found ;;
    match dedup genes with
    | [] =>
        first_node <- of_option IndexError (hd_error align_nodes) ;;
        n <- get_node pg first_node ;;
        crossing <- of_option IndexError (hd_error (dict_keys (pathsCrossed n))) ;;
        cluster <- of_option KeyError (idt_cluster (idt_of d_idt crossing)) ;;
        Ok (mkAbundState (d_abund st) (path_seq st) (max_c st) (multi_reads st)
                         (ambig_reads st)
                         (dict_append cluster (read, mate) (nocolor_reads st)))
    | [gene] => unique_match pg st gene mate align
    | genes_found =>
        Ok (mkAbundState (d_abund st) (path_seq st) (max_c st) (multi_reads st)
                         (fold_left (fun acc i => dict_append i (read, mate) acc)
                                    genes_found (ambig_reads st))
                         (nocolor_reads st))
    end.

Definition process_read (pg : Pangenome) (d_idt : dict string Identity)
  (st : AbundState) (entry : string * dict string (list Alignment))
  : result AbundState :=
  for_each (process_pair pg d_idt (fst entry)) (snd entry) st.

(** [get_abundance] up to the end of [for read in reads]. *)
Definition read_loop (pg : Pangenome) (d_idt : dict string Identity) (reads : Reads)
  : result AbundState :=
  for_each (process_read pg d_idt) reads initial_abund.

(** ** Abundance aggregator: the last loop of [get_abundance]

    [d_strains_abund[s][thr]] before the loop holds the samples ['abund'] and
    the copy counts ['nb_copy']; the loop replaces ['abund'] by a mean and adds
    ['std'].  The histograms under ['nb_subst'] are not touched. *)

Record StrainStat : Type := mkStrainStat {
  nb_genes : nat;
  abund : list Q;
  nb_copy : list Z
}.

Record StrainFinal : Type := mkStrainFinal {
  fin_nb_genes : nat;
  fin_abund : option Q;     (* [None] is numpy's nan, the mean of no sample *)
  fin_std : option R;
  fin_nb_copy : list Z
}.

(** [int(a)] on a float: truncation toward zero *)
Definition py_int (a : Q) : Z := Z.quot (Qnum a) (Z.pos (Qden a)).

(** [[int(a) / int(b) for a, b in zip(abund, nb_copy)]] *)
Fixpoint abund_norm (abund : list Q) (nb_copy : list Z) : result (list Q) :=
  match abund, nb_copy with
  | a :: abund', b :: nb_copy' =>
      q <- true_div (py_int a) b ;;
      rest <- abund_norm abund' nb_copy' ;;
      Ok (q :: rest)
  | _, _ => Ok []
  end.

Definition qsum (l : list Q) : Q := fold_left Qplus l (0 # 1)%Q.

Definition qmean (l : list Q) : Q :=
  Qred (Qdiv (qsum l) (inject_Z (Z.of_nat (List.length l)))).

(** [np.mean] *)
Definition np_mean (l : list Q) : option Q :=
  match l with
  | [] => None
  | _ => Some (qmean l)
  end.

(** The mean of the squared deviations from the mean. *)
Definition variance (l : list Q) : Q :=
  qmean (map (fun x => Qmult (Qminus x (qmean l)) (Qminus x (qmean l))) l).

(** [np.std], with its default [ddof=0] *)
Definition np_std (l : list Q) : option R :=
  match l with
  | [] => None
  | _ => Some (sqrt (Q2R (variance l)))
  end.

Definition finalize (r : StrainStat) : result StrainFinal :=
  norm <- abund_norm (abund r) (nb_copy r) ;;
  Ok (mkStrainFinal (nb_genes r) (np_mean norm) (np_std norm) (nb_copy r)).

(** [for s in d_strains_abund: for thr in d_strains_abund[s]] *)
Definition finalize_all (d_strains_abund : dict string (dict Q StrainStat))
  : result (dict string (dict Q StrainFinal)) :=
  map_result
    (fun s =>
       stats <- map_result (fun t => f <- finalize (snd t) ;; Ok (fst t, f)) (snd s) ;;
       Ok (fst s, stats))
    d_strains_abund.

(** [subpath] lists its entries in topological order: every successor index is
    larger than the entry's own and inside the array, as the mapper writes
    them. *)
Definition topo_ordered (subpath : list Subpath) : bool :=
  forallb
    (fun e =>
       match sp_next (snd e) with
       | None => true
       | Some children =>
           forallb (fun c => (fst e <? c) && (c <? List.length subpath)) children
       end)
    (enumerate subpath).

(** ** Graph model: [Pangenome.edges]

    An edge is the Python set [{a, b}]; the pair [(a, b)] stands for it and
    two pairs are the same edge when they agree in one order or the other. *)

Definition Edge : Type := string * string.

(** [{a, b} == {c, d}] *)
Definition edge_eqb (e f : Edge) : bool :=
  ((fst e =? fst f)%string && (snd e =? snd f)%string)
  || ((fst e =? snd f)%string && (snd e =? fst f)%string).

(** [if {neighbour, node_id} not in edges: edges.append({node_id, neighbour})] *)
Definition edge_step (node_id : string) (edges : list Edge) (neighbour : string)
  : list Edge :=
  if existsb (edge_eqb (neighbour, node_id)) edges then edges
  else edges ++ [(node_id, neighbour)].

(** [__generate_edges]: for each node, its predecessors then its successors. *)
Definition generate_edges (pg : Pangenome) : list Edge :=
  fold_left
    (fun edges kv =>
       fold_left (edge_step (fst kv)) (node_next (snd kv))
                 (fold_left (edge_step (fst kv)) (node_previous (snd kv)) edges))
    (pg_nodes pg) [].

Definition edges (pg : Pangenome) : list Edge := generate_edges pg.

(** [pangenome.nodes()] *)
Definition nodes (pg : Pangenome) : list string := dict_keys (pg_nodes pg).


(** ** Abundance aggregator: substitutions per node and per-gene figures

    The part of [get_abundance] between the loop over reads and the strain
    table. *)

(** ["_" in s] *)
Definition has_underscore (s : string) : bool :=
  existsb (Ascii.eqb "_"%char) (chars s).

(** ["_" not in str(pos)]: the decimal writing of an integer has no
    underscore. *)
Definition counted_position (pos : vpos) : bool :=
  match pos with
  | AtBase _ => true
  | Inserted key => negb (has_underscore key)
  end.

(** The body of [for pos in variants[node]] *)
Definition subst_node_step (node : string) (subst : dict string nat) (pos : vpos)
  : dict string nat :=
  if counted_position pos then
    match dict_get node subst with
    | None => dict_set node 1 subst
    | Some c => dict_set node (S c) subst
    end
  else subst.

(** [subst]: key = node id, value = number of substituted positions *)
Definition node_substitutions (variants : Variants) : dict string nat :=
  fold_left
    (fun subst kv => fold_left (subst_node_step (fst kv)) (dict_keys (snd kv)) subst)
    variants [].

(** [d_abund[gene]] after the loop [for gene in d_abund].  The entry
    ['nb_subst']['total_norm'] is kept in a field of its own; it is the last
    key of ['nb_subst']. *)
Record GeneStat : Type := mkGeneStat {
  gs_uniq_count : Q;
  gs_nodes_abund : dict string Q;
  gs_nb_subst : dict nat nat;
  total_norm : Q;
  coverage : Q;
  mean_abund : Q;
  std_abund : R
}.

(** [len([i for i in l if i > 0])] *)
Definition count_positive (l : list Q) : nat :=
  List.length (filter (fun i => negb (Qle_bool i (0 # 1)%Q)) l).

(** The body of [for gene in d_abund].  The coverage is computed before the
    mean and the deviation, so that these see a non-empty list. *)
Definition gene_stats (pg : Pangenome) (d_genes : dict string (list string))
  (subst : dict string nat) (gene : string) (g : GeneAbund) : result GeneStat :=
  let total :=
    fold_left (fun t n => t + get_or (dict_get n subst) 0) (split_on "-"%char gene) 0 in
  members <- of_option KeyError (dict_get gene d_genes) ;;
  first <- of_option IndexError (hd_error members) ;;
  p <- get_path pg first ;;
  norm <- true_div (Z.of_nat total) (Z.of_nat (str_len (path_sequence p))) ;;
  let values := map snd (nodes_abund g) in
  cov <- true_div (Z.of_nat (count_positive values)) (Z.of_nat (List.length values)) ;;
  Ok (mkGeneStat (uniq_count g) (nodes_abund g) (nb_subst g) norm cov
                 (qmean values) (sqrt (Q2R (variance values)))).

Definition all_gene_stats (pg : Pangenome) (d_genes : dict string (list string))
  (subst : dict string nat) (genes : dict string GeneAbund)
  : result (dict string GeneStat) :=
  map_result
    (fun kv => s <- gene_stats pg d_genes subst (fst kv) (snd kv) ;; Ok (fst kv, s))
    genes.

(** ** Abundance aggregator: the strain table [d_strains_abund] *)

(** Float keys: equal numbers are equal terms, values being in lowest terms. *)
Definition q_eqb (a b : Q) : bool :=
  (Qnum a =? Qnum b)%Z && (Qden a =? Qden b)%positive.

#[global] Instance PyKey_Q : PyKey Q.
Proof.
  refine {| key_eqb := q_eqb |}.
  intros [a b] [c d]. unfold q_eqb. simpl.
  rewrite andb_true_iff, Z.eqb_eq, Pos.eqb_eq. split.
  - intros [-> ->]. reflexivity.
  - intro E. injection E as -> ->. now split.
Defined.

(** [[x/100 for x in range(0,105,5)]] *)
Definition list_thr : list Q :=
  map (fun x => Qred (Z.of_nat x # 100)) (map (fun i => 5 * i) (seq 0 21)).

(** A key of ['nb_subst']: a number of substitutions, or ["total_norm"]. *)
Inductive SubstKey : Type :=
| Count (c : nat)
| TotalNorm.

Definition SubstKey_eqb (a b : SubstKey) : bool :=
  match a, b with
  | Count x, Count y => x =? y
  | TotalNorm, TotalNorm => true
  | _, _ => false
  end.

#[global] Instance PyKey_SubstKey : PyKey SubstKey.
Proof.
  refine {| key_eqb := SubstKey_eqb |}.
  intros [x|] [y|]; simpl; split; intro E; try discriminate; try reflexivity.
  - apply Nat.eqb_eq in E. now subst.
  - injection E as ->. apply Nat.eqb_refl.
Defined.

(** [d_strains_abund[e][thr]] while the table is filled *)
Record StrainAcc : Type := mkStrainAcc {
  acc_stat : StrainStat;
  subst_total : dict SubstKey Q;
  subst_uniq : dict SubstKey Q
}.

Definition StrainTable : Type := dict string (dict Q StrainAcc).

Definition empty_acc : StrainAcc := mkStrainAcc (mkStrainStat 0 [] []) [] [].

(** The items of [d_abund[v]['nb_subst']] in the order of the dictionary. *)
Definition subst_items (g : GeneStat) : list (SubstKey * Q) :=
  map (fun kv => (Count (fst kv), inject_Z (Z.of_nat (snd kv)))) (gs_nb_subst g)
  ++ [(TotalNorm, total_norm g)].

(** [g.split("|")[3]] *)
Definition strain_of (g : string) : result string :=
  of_option IndexError (nth_error (split_on "|"%char g) 3).

(** [i.split("|")[-2]] *)
Definition copy_field (i : string) : result string :=
  let fields := split_on "|"%char i in
  if List.length fields <? 2 then Raise IndexError
  else of_option IndexError (nth_error fields (List.length fields - 2)).

(** [c]: the members of the gene whose last field but one is [e] *)
Definition count_copies (e : string) (members : list string) : result nat :=
  for_each
    (fun c i => f <- copy_field i ;; Ok (if (f =? e)%string then S c else c))
    members 0.

(** The body of [for nb in d_abund[v]['nb_subst']] *)
Definition hist_step (single : bool) (acc : StrainAcc) (item : SubstKey * Q)
  : StrainAcc :=
  let '(nb, x) := item in
  let total0 :=
    if dict_mem nb (subst_total acc) then subst_total acc
    else dict_set nb (0 # 1)%Q (subst_total acc) in
  let uniq0 :=
    if dict_mem nb (subst_uniq acc) then subst_uniq acc
    else dict_set nb (0 # 1)%Q (subst_uniq acc) in
  let total1 := dict_set nb (qadd (get_or (dict_get nb total0) (0 # 1)%Q) x) total0 in
  let uniq1 :=
    if single then dict_set nb (qadd (get_or (dict_get nb uniq0) (0 # 1)%Q) x) uniq0
    else uniq0 in
  mkStrainAcc (acc_stat acc) total1 uniq1.

(** What the branch [if cov >= thr] does to [d_strains_abund[e][thr]]. *)
Definition count_gene (g : GeneStat) (c : nat) (single : bool) (acc : StrainAcc)
  : StrainAcc :=
  let st := acc_stat acc in
  fold_left (hist_step single) (subst_items g)
    (mkStrainAcc
       (mkStrainStat (S (nb_genes st)) (abund st ++ [mean_abund g])
                     (nb_copy st ++ [Z.of_nat c]))
       (subst_total acc) (subst_uniq acc)).

(** The body of the second [for thr in list_thr] *)
Definition threshold_step (g : GeneStat) (members : list string) (e : string)
  (single : bool) (d : StrainTable) (thr : Q) : result StrainTable :=
  if Qle_bool thr (coverage g) then
    m <- of_option KeyError (dict_get e d) ;;
    acc <- of_option KeyError (dict_get thr m) ;;
    c <- count_copies e members ;;
    Ok (dict_set e (dict_set thr (count_gene g c single acc) m) d)
  else Ok d.

(** The block [if e not in d_strains_abund] *)
Definition init_strain (e : string) (d : StrainTable) : StrainTable :=
  if dict_mem e d then d
  else dict_set e (fold_left (fun m thr => dict_set thr empty_acc m) list_thr []) d.

(** The body of [for e in s] *)
Definition strain_step (g : GeneStat) (members : list string) (single : bool)
  (d : StrainTable) (e : string) : result StrainTable :=
  for_each (threshold_step g members e single) list_thr (init_strain e d).

(** The body of [for v in d_abund]; the set [s] is walked in the order of the
    first occurrences. *)
Definition gene_rollup (d_genes : dict string (list string)) (d : StrainTable)
  (kv : string * GeneStat) : result StrainTable :=
  members <- of_option KeyError (dict_get (fst kv) d_genes) ;;
  fields <- map_result strain_of members ;;
  let s := dedup fields in
  for_each (strain_step (snd kv) members (List.length s =? 1)) s d.

Definition strain_rollup (d_genes : dict string (list string))
  (stats : dict string GeneStat) : result StrainTable :=
  for_each (gene_rollup d_genes) stats [].

(** The samples and copy counts the last loop of [get_abundance] reads. *)
Definition strain_samples (d : StrainTable) : dict string (dict Q StrainStat) :=
  map (fun s => (fst s, map (fun t => (fst t, acc_stat (snd t))) (snd s))) d.

(** [get_abundance] up to the construction of the data frame: [d_abund] and
    the finished [d_strains_abund]. *)
Definition abundance_tables (pg : Pangenome) (d_genes : dict string (list string))
  (d_idt : dict string Identity) (reads : Reads) (variants : Variants)
  : result (dict string GeneStat * dict string (dict Q StrainFinal)) :=
  st <- read_loop pg d_idt reads ;;
  stats <- all_gene_stats pg d_genes (node_substitutions variants) (d_abund st) ;;
  table <- strain_rollup d_genes stats ;;
  fin <- finalize_all (strain_samples table) ;;
  Ok (stats, fin).


(** * Sample inputs *)

(** Two nodes and a link from the first to the second, given twice. *)
Definition ex_gfa_link : list (list string) :=
  [ ["S"; "1"; "ACGT"];
    ["S"; "2"; "GG"];
    ["L"; "1"; "+"; "2"; "+"; "0M"];
    ["L"; "1"; "+"; "2"; "+"; "0M"] ].

(** One path over two nodes. *)
Definition ex_gfa_path : list (list string) :=
  [ ["S"; "1"; "ACGT"];
    ["S"; "2"; "GG"];
    ["P"; "p1"; "1+,2+"; "*"] ].

(** Three nodes, a gene on nodes 1 and 2 (20 bases), a gene on node 3
    (5 bases). *)
Definition ex_gfa : list (list string) :=
  [ ["S"; "1"; "ACGTACGTAC"];
    ["S"; "2"; "GGGGGGGGGG"];
    ["S"; "3"; "TTTTT"];
    ["L"; "1"; "+"; "2"; "+"; "0M"];
    ["P"; "p1"; "1+,2+"; "*"];
    ["P"; "p2"; "3+"; "*"] ].

Definition ex_pg : Pangenome :=
  match parse_graph ex_gfa with
  | Ok pg => pg
  | Raise _ => empty_pangenome
  end.

Definition ex_idt : dict string Identity :=
  match generate_clusters_dict ex_pg [] with
  | Ok (_, _, d_idt) => d_idt
  | Raise _ => []
  end.

(** A mapping step on [node] made of one match of [l] bases. *)
Definition ex_match (node : string) (l : Z) : Mapping :=
  mkMapping (mkPosition node None None) [mkEdit (Some l) (Some l) None].

(** A one-base substitution by ["A"] at the start of node 1, read on the
    forward strand and on the reverse strand. *)
Definition ex_subst (rev : option bool) : Subpath :=
  mkSubpath
    [mkMapping (mkPosition "1" None rev) [mkEdit (Some 1%Z) (Some 1%Z) (Some "A")]]
    None None.

(** A one-base insertion of ["A"] on the reverse strand of node 1. *)
Definition ex_insert : Subpath :=
  mkSubpath
    [mkMapping (mkPosition "1" None (Some true)) [mkEdit None (Some 1%Z) (Some "A")]]
    None None.

(** A read of 15 bases whose first subpath (score 10) has two successors,
    both sinks, of scores 5 and 3. *)
Definition ex_fork : Aln :=
  mkAln "r1" "ACGTACGTACGGGGG"
        (Some [ mkSubpath [ex_match "1" 10] (Some [1; 2]) (Some 10%Z);
                mkSubpath [ex_match "2" 5] None (Some 5%Z);
                mkSubpath [ex_match "2" 3] None (Some 3%Z) ])
        [0].

(** A chain of two subpaths whose root scores nothing. *)
Definition ex_chain : Aln :=
  mkAln "r2" "ACGTACGTACGGGGG"
        (Some [ mkSubpath [ex_match "1" 10] (Some [1]) None;
                mkSubpath [ex_match "2" 5] None (Some 5%Z) ])
        [0].

(** A read of 10 bases on node 1: nine matches, then a substitution by ["T"];
    score 9, that is 0.9 per base. *)
Definition ex_read1 : Aln :=
  mkAln "r1" "ACGTACGTAC"
        (Some [ mkSubpath
                  [mkMapping (mkPosition "1" None None)
                     [mkEdit (Some 9%Z) (Some 9%Z) None;
                      mkEdit (Some 1%Z) (Some 1%Z) (Some "T")]]
                  None (Some 9%Z) ])
        [0].

(** The same on node 2, for another read. *)
Definition ex_read2 : Aln :=
  mkAln "r2" "GGGGGGGGGG"
        (Some [ mkSubpath
                  [mkMapping (mkPosition "2" None None)
                     [mkEdit (Some 9%Z) (Some 9%Z) None;
                      mkEdit (Some 1%Z) (Some 1%Z) (Some "A")]]
                  None (Some 9%Z) ])
        [0].

(** The alignment the resolver returns for [ex_read1]. *)
Definition ex_alignment1 : Alignment :=
  mkAlignment [("1", 1%Q)] 10 9 (9 # 10)%Q [("1", AtBase 9, "T")].

(** A read of 15 bases whose first subpath (score 10) has two successors,
    both sinks: the first on node 3 with score 3, the second on node 2 with
    score 5. *)
Definition ex_fork_low : Aln :=
  mkAln "r3" "ACGTACGTACGGGGG"
        (Some [ mkSubpath [ex_match "1" 10] (Some [1; 2]) (Some 10%Z);
                mkSubpath [ex_match "3" 5] None (Some 3%Z);
                mkSubpath [ex_match "2" 5] None (Some 5%Z) ])
        [0].

(** The claim's reading of "best": the largest score among the alignments
    returned for the record. *)
Definition best_score (final_paths : list Alignment) : option Z :=
  match final_paths with
  | [] => None
  | a :: rest => Some (fold_left Z.max (map al_score rest) (al_score a))
  end.

(** The slot of read [name] and mate sequence [sq] is present in [reads]. *)
Definition retained (reads : Reads) (name sq : string) : bool :=
  match dict_get name reads with
  | Some slots => dict_mem sq slots
  | None => false
  end.

(** Every slot of [reads] holds at least one alignment. *)
Definition nonempty_slots (reads : Reads) : bool :=
  forallb
    (fun entry =>
       forallb (fun slot => negb (List.length (snd slot) =? 0)) (snd entry))
    reads.

(** A mapped record: one subpath of [l] matches on [node], score [l]. *)
Definition ex_line (name node sq : string) (l : Z) : Aln :=
  mkAln name sq (Some [mkSubpath [ex_match node l] None (Some l)]) [0].

(** Three reads with one alignment each: [a] and [c], of 10 bases, on node 1
    (gene ["2-1"], 20 bases); [b], of 5 bases, on node 3 (gene ["3"],
    5 bases). *)
Definition ex_lines : list Aln :=
  [ ex_line "a" "1" "ACGTACGTAC" 10;
    ex_line "b" "3" "TTTTT" 5;
    ex_line "c" "1" "ACGTACGTAC" 10 ].

(** The same records, [b] last. *)
Definition ex_lines_reordered : list Aln :=
  [ ex_line "a" "1" "ACGTACGTAC" 10;
    ex_line "c" "1" "ACGTACGTAC" 10;
    ex_line "b" "3" "TTTTT" 5 ].

(** The reads retained from a stream at threshold 0.9. *)
Definition reads_of (lines : list Aln) : Reads :=
  match parse_vgmpmap ex_pg 1 (9 # 10)%Q lines with
  | Ok (reads, _) => reads
  | Raise _ => []
  end.

(** One gene met the coverage threshold, with mean abundance 1.5 and one
    copy. *)
Definition ex_stat : StrainStat := mkStrainStat 1 [(3 # 2)%Q] [1%Z].

(** The claim's reading of the normalization: each sample divided by its copy
    count as it is. *)
Fixpoint exact_norm (abund : list Q) (nb_copy : list Z) : list Q :=
  match abund, nb_copy with
  | a :: abund', b :: nb_copy' =>
      Qred (Qdiv a (inject_Z b)) :: exact_norm abund' nb_copy'
  | _, _ => []
  end.

(** A gene of two nodes, one of them covered *)
Definition ex_gene_abund : GeneAbund :=
  mkGeneAbund (5 # 2)%Q [("2", (0 # 1)%Q); ("1", (2 # 1)%Q)] [(0, 2)].

Definition ex_d_genes : dict string (list string) := [("2-1", ["p1"]); ("3", ["p2"])].

Definition ex_gene_stat : GeneStat :=
  mkGeneStat (5 # 2)%Q [("2", (0 # 1)%Q); ("1", (2 # 1)%Q)] [(0, 2)]
             (1 # 20)%Q (1 # 2)%Q (1 # 1)%Q
             (sqrt (Q2R (variance [(0 # 1)%Q; (2 # 1)%Q]))).

(** A gene of one node, covered *)
Definition ex_gene_stat3 : GeneStat :=
  mkGeneStat (1 # 1)%Q [("3", (1 # 1)%Q)] [(0, 1)] (0 # 1)%Q (1 # 1)%Q (1 # 1)%Q
             (sqrt (Q2R (variance [(1 # 1)%Q]))).

Definition ex_stats : dict string GeneStat := [("2-1", ex_gene_stat); ("3", ex_gene_stat3)].

(** Gene members with ids of five fields, the strain in the fourth *)
Definition ex_strain_genes : dict string (list string) :=
  [("2-1", ["x|1|y|sA|g1"; "x|2|y|sB|g1"; "x|3|y|sA|g7"]); ("3", ["x|4|y|sB|g2"])].

Definition ex_table : StrainTable :=
  Eval lazy in
    match strain_rollup ex_strain_genes ex_stats with
    | Ok table => table
    | Raise _ => []
    end.

(** The graph after one more path record, which crosses node 2 on the
    reverse strand and then node 1 on the forward strand. *)
Definition ex_pg_rev : Pangenome :=
  Eval vm_compute in
    match parse_line ex_pg ["P"; "p3"; "2-,1+"; "*"] with
    | Ok pg => pg
    | Raise _ => empty_pangenome
    end.

(** * Vocabulary of the statements *)

(** Every node of the graph satisfies [Q]. *)
Definition all_nodes (Q : Node -> Prop) (pg : Pangenome) : Prop :=
  forall k n, In (k, n) (pg_nodes pg) -> Q n.

(** The variants of a substitution: one per character, the character as it is
    in the edit. *)
Fixpoint subst_variants (nid : string) (is_rev : bool) (pos : Z) (ls : list string)
  : list Variant :=
  match ls with
  | [] => []
  | n :: ls' => (nid, AtBase pos, n) :: subst_variants nid is_rev (move is_rev pos 1) ls'
  end.

(** The frontier entry that seeding gives to a numbered subpath. *)
Definition seed_entry (e : nat * Subpath) : nat * list Prefix :=
  (fst e, [own_prefix (fst e) (snd e)]).

(** What every frontier list satisfies: one score, one end subpath. *)
Definition tied (l : list Prefix) : Prop :=
  forall p q, In p l -> In q l -> pf_score p = pf_score q.

Definition ends_at (idx : nat) (l : list Prefix) : Prop :=
  forall p, In p l -> last (pf_path p) 0 = idx.

Definition frontier_ok (f : Frontier) : Prop :=
  forall idx l, In (idx, l) f -> tied l /\ ends_at idx l.

(** A record passes when it is mapped and the first alignment returned for it
    reaches the threshold. *)
Definition passes (pg : Pangenome) (fuel : nat) (thr : Q) (aln : Aln) : Prop :=
  aln_subpath aln <> None /\
  exists first rest q,
    BFS pg fuel aln = Ok (first :: rest) /\
    true_div (al_score first) (Z.of_nat (str_len (aln_sequence aln))) = Ok q /\
    Qle thr q.

(** Every node is stored under its own identifier and lists each successor
    once. *)
Definition graph_ok (pg : Pangenome) : Prop :=
  forall k n, In (k, n) (pg_nodes pg) -> node_ID n = k /\ NoDup (node_next n).

(** No two edges of the list are the same set. *)
Fixpoint edges_distinct (l : list Edge) : bool :=
  match l with
  | [] => true
  | e :: l' => negb (existsb (edge_eqb e) l') && edges_distinct l'
  end.


(** The length of the sequence of node [nid], 0 when the node is unknown. *)
Definition seq_len_of (pg : Pangenome) (nid : string) : nat :=
  match get_node pg nid with
  | Ok n => str_len (node_sequence n)
  | Raise _ => 0
  end.

(** Each item [i] of the walk of path [pid], a node name followed by its
    strand sign, has its node at position [i] of the node list [nds], and that
    node records [(i, sign)], with the sign of the item, among the occurrences
    of the path. *)
Definition crossed (pg : Pangenome) (pid : string) (items nds : list string) : Prop :=
  List.length nds = List.length items /\
  forall i info,
    nth_error items i = Some info ->
    exists ori n occ,
      last_char info = Ok ori /\
      nth_error nds i = Some (rstrip ori info) /\
      get_node pg (rstrip ori info) = Ok n /\
      dict_get pid (pathsCrossed n) = Some occ /\ In (i, ori) occ.


(** Path [c] is a member of a gene of [d_genes] keyed by its node list joined
    in one order or the other. *)
Definition in_some_gene (pg : Pangenome) (d_genes : dict string (list string))
  (c : string) : Prop :=
  exists p sig members,
    get_path pg c = Ok p /\
    dict_get sig d_genes = Some members /\ In c members /\
    (sig = join "-" (path_nodes p) \/ sig = join "-" (rev (path_nodes p))).


(** The variants of one edit that carry an integer position: the substituted
    characters and the deleted reference bases. *)
Definition edit_count (e : Edit) : nat :=
  if (from_len e =? to_len e)%Z then
    match edit_sequence e with
    | None => 0
    | Some s => List.length (letters s)
    end
  else
    match edit_sequence e with
    | None => Z.to_nat (from_len e)
    | Some _ => 0
    end.

Definition subpath_count (sp : Subpath) : nat :=
  list_sum (map (fun m => list_sum (map edit_count (edit m))) (mapping sp)).

(** No mapping step of the subpath has the key ['is_reverse']. *)
Definition forward_only (sp : Subpath) : bool :=
  forallb (fun m => negb (has (is_reverse (position m)))) (mapping sp).

(** The node of a variant is the node of a mapping step of the subpath. *)
Definition from_step (sp : Subpath) (v : Variant) : Prop :=
  exists m, In m (mapping sp) /\ fst (fst v) = node_id (position m).


(** A variant of node [nid] at an integer position; one under an insertion
    key. *)
Definition at_base (nid : string) (v : Variant) : Prop :=
  fst (fst v) = nid /\ exists pos, snd (fst v) = AtBase pos.

Definition inserted (nid : string) (v : Variant) : Prop :=
  fst (fst v) = nid /\ exists key, snd (fst v) = Inserted key.

(** [b] is listed in the ['next'] of subpath [a]. *)
Definition successor_of (subpath : list Subpath) (a b : nat) : bool :=
  match nth_error subpath a with
  | Some sp =>
      match sp_next sp with
      | Some children => py_in b children
      | None => false
      end
  | None => false
  end.

(** Each index of [path] is a successor of the one before it. *)
Fixpoint chain (subpath : list Subpath) (path : list nat) : bool :=
  match path with
  | [] => true
  | a :: rest =>
      match rest with
      | [] => true
      | b :: _ => successor_of subpath a b && chain subpath rest
      end
  end.

Definition zsum (l : list Z) : Z := fold_right Z.add 0%Z l.

(** The subpaths a list of indices goes through. *)
Definition path_subpaths (subpath : list Subpath) (path : list nat) : list Subpath :=
  flat_map (fun i => match nth_error subpath i with
                     | Some sp => [sp]
                     | None => []
                     end) path.

Definition total_len (subpath : list Subpath) (path : list nat) : Z :=
  zsum (map (fun sp => fst (fst (subpath_stats sp))) (path_subpaths subpath path)).
Definition total_score (subpath : list Subpath) (path : list nat) : Z :=
  zsum (map own_score (path_subpaths subpath path)).
Definition total_match (subpath : list Subpath) (path : list nat) : Z :=
  zsum (map (fun sp => snd (fst (subpath_stats sp))) (path_subpaths subpath path)).
Definition total_aligned (subpath : list Subpath) (path : list nat) : Z :=
  zsum (map (fun sp => snd (subpath_stats sp)) (path_subpaths subpath path)).

(** A prefix is a path of the DAG and carries the totals of its subpaths. *)
Definition prefix_sound (subpath : list Subpath) (p : Prefix) : Prop :=
  pf_path p <> [] /\
  chain subpath (pf_path p) = true /\
  Forall (fun i => i < List.length subpath) (pf_path p) /\
  pf_len p = total_len subpath (pf_path p) /\
  pf_score p = total_score subpath (pf_path p) /\
  pf_match p = total_match subpath (pf_path p) /\
  pf_aligned p = total_aligned subpath (pf_path p).

Definition frontier_sound (subpath : list Subpath) (f : Frontier) : Prop :=
  forall idx l p, In (idx, l) f -> In p l ->
                  last (pf_path p) 0 = idx /\ prefix_sound subpath p.

(** No edit of the array has a negative length. *)
Definition lengths_nonneg (subpath : list Subpath) : bool :=
  forallb
    (fun sp =>
       forallb
         (fun m => forallb (fun e => (0 <=? from_len e)%Z && (0 <=? to_len e)%Z) (edit m))
         (mapping sp))
    subpath.


(** No subpath of the array aligns a base: every edit has a zero
    [min(from_length, to_length)] in total. *)
Definition no_aligned_base (subpath : list Subpath) : bool :=
  forallb (fun sp => (snd (subpath_stats sp) =? 0)%Z) subpath.


(** Matched bases are aligned bases, aligned bases are read bases. *)
Definition stats_bounded (st : Z * Z * Z) : Prop :=
  let '(l, m, a) := st in (0 <= m <= a)%Z /\ (a <= l)%Z.

(** [node_list], or its reverse, is a run of consecutive entries of
    [path_nodes]; a path of the graph has that property. *)
Definition occurs_in (node_list path_nodes : list string) : Prop :=
  exists pre post,
    path_nodes = pre ++ node_list ++ post \/ path_nodes = pre ++ rev node_list ++ post.

Definition matched (pg : Pangenome) (node_list : list string) (path : string) : Prop :=
  exists p, get_path pg path = Ok p /\ occurs_in node_list (path_nodes p).

(** [variants[node][pos][base]], empty when a level is missing. *)
Definition variants_get (vs : Variants) (node : string) (pos : vpos) (base : string)
  : list string :=
  get_or (dict_get base (get_or (dict_get pos (get_or (dict_get node vs) [])) [])) [].


(** A frontier list that the walk leaves in place: its subpath has no
    ['next'], or all its prefixes cover the whole read. *)
Definition terminal (subpath : list Subpath) (seq_len : nat) (idx : nat)
  (l : list Prefix) : Prop :=
  exists sp,
    nth_error subpath idx = Some sp /\
    (sp_next sp = None \/
     forallb (fun i => (pf_len i =? Z.of_nat seq_len)%Z) l = true).

(** The state of the walk on an array in topological order when the indices
    below [k] have been dequeued. *)
Definition walked (subpath : list Subpath) (seq_len k : nat) (cp : Frontier) : Prop :=
  NoDup (dict_keys cp) /\
  (forall j l, dict_get j cp = Some l -> j < List.length subpath) /\
  (forall j, k <= j < List.length subpath ->
             exists l, dict_get j cp = Some l /\ l <> []) /\
  (forall j l, j < k -> dict_get j cp = Some l ->
               l <> [] /\ terminal subpath seq_len j l) /\
  (forall j sp, j < k -> nth_error subpath j = Some sp -> sp_next sp = None ->
                exists l, dict_get j cp = Some l).


(** The substituted positions recorded for one node *)
Definition counted_positions {V : Type} (m : dict vpos V) : nat :=
  List.length (filter counted_position (dict_keys m)).

(** A counter that exists once it has been incremented *)
Definition positive_count (c : nat) : option nat :=
  match c with
  | 0 => None
  | S _ => Some c
  end.

(** The node counters of a gene are the nodes its signature names. *)
Definition nodes_of_signature (gene : string) (g : GeneAbund) : Prop :=
  forall n, In n (dict_keys (nodes_abund g)) <-> In n (split_on "-"%char gene).

(** The strain names of the members of a gene: the fourth field of each id *)
Definition strain_names (members : list string) : list string :=
  map (fun g => nth 3 (split_on "|"%char g) "") members.

(** The last field but one of an id *)
Definition last_but_one (i : string) : string :=
  let fields := split_on "|"%char i in
  nth (List.length fields - 2) fields "".

(** The members of a gene whose last field but one is [e] *)
Definition copy_number (e : string) (members : list string) : nat :=
  List.length (filter (fun i => (last_but_one i =? e)%string) members).

Definition members_of (d_genes : dict string (list string)) (v : string) : list string :=
  get_or (dict_get v d_genes) [].

(** The gene has a member of strain [e]. *)
Definition in_strain (d_genes : dict string (list string)) (e : string)
  (kv : string * GeneStat) : bool :=
  py_in e (strain_names (members_of d_genes (fst kv))).

(** The gene counts for strain [e] at threshold [thr]. *)
Definition counted (d_genes : dict string (list string)) (e : string) (thr : Q)
  (kv : string * GeneStat) : bool :=
  in_strain d_genes e kv && Qle_bool thr (coverage (snd kv)).

(** The figures of a strain from the genes that count for it *)
Definition strain_stat (d_genes : dict string (list string)) (e : string)
  (sel : list (string * GeneStat)) : StrainStat :=
  mkStrainStat (List.length sel)
               (map (fun kv => mean_abund (snd kv)) sel)
               (map (fun kv => Z.of_nat (copy_number e (members_of d_genes (fst kv)))) sel).

Definition expected (d_genes : dict string (list string))
  (stats : list (string * GeneStat)) (e : string) (thr : Q) : option StrainStat :=
  if existsb (in_strain d_genes e) stats
  then Some (strain_stat d_genes e (filter (counted d_genes e thr) stats))
  else None.

(** [d_strains_abund[e][thr]] without the histograms, when it exists *)
Definition strain_view (table : StrainTable) (e : string) (thr : Q) : option StrainStat :=
  match dict_get e table with
  | Some m => option_map acc_stat (dict_get thr m)
  | None => None
  end.

Definition bump (g : GeneStat) (c : nat) (st : StrainStat) : StrainStat :=
  mkStrainStat (S (nb_genes st)) (abund st ++ [mean_abund g])
               (nb_copy st ++ [Z.of_nat c]).

(** One entry per strain, and under each strain the thresholds of
    [list_thr] in order. *)
Definition shaped (table : StrainTable) : Prop :=
  NoDup (dict_keys table) /\ forall e m, In (e, m) table -> dict_keys m = list_thr.

(** What one gene adds to the figures of a strain it belongs to. *)
Definition add_gene (d_genes : dict string (list string)) (e : string) (thr : Q)
  (kv : string * GeneStat) (base : option StrainStat) : StrainStat :=
  let st := get_or base (mkStrainStat 0 [] []) in
  if Qle_bool thr (coverage (snd kv))
  then bump (snd kv) (copy_number e (members_of d_genes (fst kv))) st
  else st.

(** The read/mate slots of [reads] *)
Definition total_slots (reads : Reads) : nat :=
  list_sum (map (fun kv => List.length (snd kv)) reads).

(** The entries of a [defaultdict(list)], all keys together *)
Definition total_entries {V : Type} (d : dict string (list V)) : nat :=
  list_sum (map (fun kv => List.length (snd kv)) d).

(** The reads counted in the histograms ['nb_subst'] of all genes *)
Definition uniq_total (d : dict string GeneAbund) : nat :=
  list_sum (map (fun kv => list_sum (map (fun cn => snd cn) (nb_subst (snd kv)))) d).

(** [n] slots are accounted for: each one is a multimapped read, a read
    without colored path, a read counted for one gene, or an ambiguous read,
    filed under two genes at least. *)
Definition accounted (st : AbundState) (n : nat) : Prop :=
  exists ambiguous,
    n = List.length (multi_reads st) + total_entries (nocolor_reads st)
        + uniq_total (d_abund st) + ambiguous /\
    2 * ambiguous <= total_entries (ambig_reads st).


(** * Properties *)

(** ** Dictionaries *)

Section DictFacts.
Context {K V : Type} `{PyKey K}.

Lemma key_eqb_refl (k : K) : key_eqb k k = true.
Proof. now apply key_eqb_eq. Qed.

Lemma key_eqb_neq (a b : K) : a <> b -> key_eqb a b = false.
Proof.
  intro N. destruct (key_eqb a b) eqn:E; [|reflexivity].
  apply key_eqb_eq in E. contradiction.
Qed.

Lemma dict_get_set_same (k : K) (v : V) (d : dict K V) :
  dict_get k (dict_set k v d) = Some v.
Proof.
  induction d as [|[k' v'] d IH]; simpl.
  - now rewrite key_eqb_refl.
  - destruct (key_eqb k k') eqn:E; simpl; rewrite E; auto.
Qed.

Lemma dict_get_set_other (k k' : K) (v : V) (d : dict K V) :
  k' <> k -> dict_get k' (dict_set k v d) = dict_get k' d.
Proof.
  intro N. induction d as [|[k0 v0] d IH]; simpl.
  - now rewrite key_eqb_neq.
  - destruct (key_eqb k k0) eqn:E; simpl.
    + apply key_eqb_eq in E. subst k0. now rewrite key_eqb_neq.
    + now rewrite IH.
Qed.

Lemma dict_get_pop_other (k k' : K) (d : dict K V) :
  k' <> k -> dict_get k' (dict_pop k d) = dict_get k' d.
Proof.
  intro N. induction d as [|[k0 v0] d IH]; simpl; [reflexivity|].
  destruct (key_eqb k k0) eqn:E; simpl.
  - apply key_eqb_eq in E. subst k0. now rewrite key_eqb_neq.
  - now rewrite IH.
Qed.

Lemma dict_set_In (k k0 : K) (v v0 : V) (d : dict K V) :
  In (k, v) (dict_set k0 v0 d) -> (k = k0 /\ v = v0) \/ In (k, v) d.
Proof.
  induction d as [|[k' v'] d IH]; simpl.
  - intros [E|[]]. injection E as <- <-. now left.
  - destruct (key_eqb k0 k') eqn:E; simpl.
    + apply key_eqb_eq in E. subst k'.
      intros [E0|I]; [injection E0 as <- <-; now left | right; now right].
    + intros [E0|I]; [right; now left|].
      destruct (IH I) as [L|R]; [now left | right; now right].
Qed.

Lemma dict_pop_In (k : K) (kv : K * V) (d : dict K V) :
  In kv (dict_pop k d) -> In kv d.
Proof.
  induction d as [|[k' v'] d IH]; simpl; [tauto|].
  destruct (key_eqb k k'); simpl; [now right|].
  intros [E|I]; [now left | right; auto].
Qed.

Lemma dict_get_In (k : K) (v : V) (d : dict K V) :
  dict_get k d = Some v -> In (k, v) d.
Proof.
  induction d as [|[k' v'] d IH]; simpl; [discriminate|].
  destruct (key_eqb k k') eqn:E.
  - apply key_eqb_eq in E. subst k'. intros [= ->]. now left.
  - intro G. right. auto.
Qed.

Lemma dict_set_absent (k : K) (v : V) (d : dict K V) :
  dict_get k d = None -> dict_set k v d = d ++ [(k, v)].
Proof.
  induction d as [|[k' v'] d IH]; simpl; [reflexivity|].
  destruct (key_eqb k k'); [discriminate|].
  intro G. now rewrite IH.
Qed.

Lemma dict_mem_set (k k' : K) (v : V) (d : dict K V) :
  dict_mem k' d = true -> dict_mem k' (dict_set k v d) = true.
Proof.
  unfold dict_mem. destruct (key_eqb k' k) eqn:E.
  - apply key_eqb_eq in E. subst k'. now rewrite dict_get_set_same.
  - rewrite dict_get_set_other; [auto|].
    intros ->. now rewrite key_eqb_refl in E.
Qed.
End DictFacts.

Lemma for_each_app {S A : Type} (f : S -> A -> result S) (l1 l2 : list A) (st : S) :
  for_each f (l1 ++ l2) st = (st' <- for_each f l1 st ;; for_each f l2 st').
Proof.
  revert st. induction l1 as [|x l1 IH]; intro st; simpl; [reflexivity|].
  destruct (f st x); simpl; auto.
Qed.

(** An invariant carried through a loop. *)
Lemma for_each_inv {S A : Type} (P : S -> Prop) (f : S -> A -> result S) (l : list A) :
  (forall st x st', In x l -> P st -> f st x = Ok st' -> P st') ->
  forall st st', P st -> for_each f l st = Ok st' -> P st'.
Proof.
  induction l as [|x l IH]; intros Hf st st' HP E; simpl in E.
  - now injection E as <-.
  - destruct (f st x) as [s1|] eqn:Ef; simpl in E; [|discriminate].
    apply IH with (st := s1); auto.
    + intros. eapply Hf; eauto. now right.
    + eapply Hf; eauto. now left.
Qed.

(** ** Graph builder *)

Lemma with_node_all (Q : Node -> Prop) (f : Node -> Node) pg key pg' :
  (forall n, Q n -> Q (f n)) ->
  all_nodes Q pg -> with_node pg key f = Ok pg' -> all_nodes Q pg'.
Proof.
  intros Hf Hpg E. unfold with_node, get_node in E.
  destruct (dict_get key (pg_nodes pg)) as [n|] eqn:G; simpl in E; [|discriminate].
  injection E as <-. intros k m I. simpl in I.
  apply dict_set_In in I. destruct I as [[-> ->]|I].
  - apply Hf. eapply Hpg. eapply dict_get_In; eauto.
  - eapply Hpg; eauto.
Qed.

(** The edit type written in the link branch is none of the three that
    [edit_node] knows: the call returns the graph as it is. *)
Lemma edit_node_add_prev pg key value : edit_node pg "add_prev" key value = Ok pg.
Proof. reflexivity. Qed.

Lemma edit_node_previous pg edit_type key value pg' :
  edit_type <> "add_previous" ->
  all_nodes (fun n => node_previous n = []) pg ->
  edit_node pg edit_type key value = Ok pg' ->
  all_nodes (fun n => node_previous n = []) pg'.
Proof.
  intros N Hpg E. unfold edit_node in E.
  destruct (edit_type =? "add_path")%string.
  { destruct value; [|discriminate].
    eapply with_node_all; [|exact Hpg|exact E]. now intros n Hn. }
  destruct (edit_type =? "add_next")%string.
  { destruct value; [discriminate|].
    eapply with_node_all; [|exact Hpg|exact E]. now intros n Hn. }
  destruct (edit_type =? "add_previous")%string eqn:E3.
  { apply String.eqb_eq in E3. contradiction. }
  now injection E as <-.
Qed.

Lemma path_step_previous path_id st item st' :
  all_nodes (fun n => node_previous n = []) (fst (fst st)) ->
  path_step path_id st item = Ok st' ->
  all_nodes (fun n => node_previous n = []) (fst (fst st')).
Proof.
  destruct st as [[pg nodes] pseq], item as [idx node_info]. simpl.
  intros Hpg E. unfold path_step in E.
  destruct (last_char node_info) as [ori|]; simpl in E; [|discriminate].
  destruct (get_node pg (rstrip ori node_info)) as [node|]; simpl in E; [|discriminate].
  destruct (edit_node pg "add_path" (rstrip ori node_info) (PathOcc path_id (idx, ori)))
    as [pg1|] eqn:Ee; simpl in E; [|discriminate].
  assert (H1 : all_nodes (fun n => node_previous n = []) pg1).
  { eapply edit_node_previous; [|exact Hpg|exact Ee]. discriminate. }
  destruct (Ascii.eqb ori "+").
  - now injection E as <-.
  - destruct (reverse_complement (node_sequence node)); simpl in E; [|discriminate].
    now injection E as <-.
Qed.

Lemma link_step_previous pg line pg' :
  all_nodes (fun n => node_previous n = []) pg ->
  link_step pg line = Ok pg' ->
  all_nodes (fun n => node_previous n = []) pg'.
Proof.
  intros Hpg E. unfold link_step in E.
  destruct (field line 1) as [id1|]; simpl in E; [|discriminate].
  destruct (get_node pg id1) as [node1|]; simpl in E; [|discriminate].
  destruct (field line 3) as [id2|]; simpl in E; [|discriminate].
  destruct (get_node pg id2) as [node2|]; simpl in E; [|discriminate].
  match type of E with
  | bind ?c _ = _ => destruct c as [pg1|] eqn:E1; simpl in E; [|discriminate]
  end.
  assert (H1 : all_nodes (fun n => node_previous n = []) pg1).
  { destruct (negb (py_in (node_ID node2) (node_next node1))).
    - eapply edit_node_previous; [|exact Hpg|exact E1]. discriminate.
    - now injection E1 as <-. }
  destruct (negb (py_in (node_ID node1) (node_previous node2))).
  - rewrite edit_node_add_prev in E. now injection E as <-.
  - now injection E as <-.
Qed.

Lemma parse_line_previous pg line pg' :
  all_nodes (fun n => node_previous n = []) pg ->
  parse_line pg line = Ok pg' ->
  all_nodes (fun n => node_previous n = []) pg'.
Proof.
  intros Hpg E. unfold parse_line in E.
  destruct (field line 0) as [tag|]; simpl in E; [|discriminate].
  destruct (tag =? "S")%string.
  { destruct (field line 1) as [ID|]; simpl in E; [|discriminate].
    destruct (field line 2) as [sq|]; simpl in E; [|discriminate].
    injection E as <-. intros k n I. simpl in I.
    apply dict_set_In in I. destruct I as [[-> ->]|I]; [reflexivity|].
    eapply Hpg; eauto. }
  destruct (tag =? "P")%string.
  { destruct (field line 1) as [path_id|]; simpl in E; [|discriminate].
    destruct (field line 2) as [walk|]; simpl in E; [|discriminate].
    match type of E with
    | bind ?c _ = _ => destruct c as [[[pg1 nodes] pseq]|] eqn:E1; simpl in E; [|discriminate]
    end.
    injection E as <-.
    apply (for_each_inv (fun st => all_nodes (fun n => node_previous n = []) (fst (fst st))))
      in E1; auto.
    intros st x st' _. apply path_step_previous. }
  destruct (tag =? "L")%string.
  { eapply link_step_previous; eauto. }
  now injection E as <-.
Qed.

(** Whatever the records, no node of the built graph has a predecessor. *)
Lemma parse_graph_previous_empty lines pg :
  parse_graph lines = Ok pg -> all_nodes (fun n => node_previous n = []) pg.
Proof.
  unfold parse_graph. intro E.
  apply (for_each_inv (all_nodes (fun n => node_previous n = []))) in E; auto.
  - intros st x st' _. apply parse_line_previous.
  - intros k n [].
Qed.

(** C2 (defect).  On two nodes and a link from the first to the second, the
    build appends the second node to the [next] list of the first, once even
    though the link is given twice, and leaves the [previous] list of the
    second node empty: the first node is not a member of it. *)
Theorem link_previous_not_filled :
  exists pg n1 n2,
    parse_graph ex_gfa_link = Ok pg /\
    get_node pg "1" = Ok n1 /\ get_node pg "2" = Ok n2 /\
    node_next n1 = ["2"] /\
    node_previous n2 = [] /\ py_in "1" (node_previous n2) = false.
Proof.
  eexists. eexists. eexists.
  split; [vm_compute; reflexivity|].
  split; [vm_compute; reflexivity|].
  split; [vm_compute; reflexivity|].
  simpl. auto.
Qed.

(** ** Gene identity index *)

(** A path whose two signatures are unknown opens a gene under the signature
    joined in reverse order. *)
Lemma gene_step_new pg d_genes cpath p :
  get_path pg cpath = Ok p ->
  dict_get (join "-" (path_nodes p)) d_genes = None ->
  dict_get (join "-" (rev (path_nodes p))) d_genes = None ->
  gene_step pg d_genes cpath =
  Ok (d_genes ++ [(join "-" (rev (path_nodes p)), [cpath])]).
Proof.
  intros G F R. unfold gene_step. rewrite G. simpl. rewrite F, R.
  now rewrite dict_set_absent.
Qed.

(** C4 (defect).  A graph with the single path [p1] over nodes 1 then 2: both
    signatures are new, and the gene is created under ["2-1"], the
    reverse-joined signature; the forward-joined ["1-2"] is not a key. *)
Theorem new_gene_keyed_by_reverse_signature :
  exists pg p d_genes d_idt,
    parse_graph ex_gfa_path = Ok pg /\
    get_path pg "p1" = Ok p /\ join "-" (path_nodes p) = "1-2" /\
    generate_clusters_dict pg [] = Ok ([], d_genes, d_idt) /\
    d_genes = [("2-1", ["p1"])] /\
    dict_get "1-2" d_genes = None.
Proof.
  do 4 eexists.
  split; [vm_compute; reflexivity|].
  split; [vm_compute; reflexivity|].
  split; [vm_compute; reflexivity|].
  split; [vm_compute; reflexivity|].
  split; reflexivity.
Qed.

(** ** Variant extractor *)

Lemma move_move is_rev pos a b :
  move is_rev (move is_rev pos a) b = move is_rev pos (a + b).
Proof. unfold move. destruct is_rev; lia. Qed.

Lemma subst_fold nid is_rev ls : forall pos out,
  fold_left (subst_step nid is_rev) ls (pos, out) =
  (move is_rev pos (Z.of_nat (List.length ls)),
   out ++ subst_variants nid is_rev pos ls).
Proof.
  induction ls as [|n ls IH]; intros pos out.
  - simpl. rewrite app_nil_r. f_equal. unfold move. destruct is_rev; lia.
  - cbn [fold_left subst_step subst_variants]. rewrite IH.
    rewrite move_move, <- app_assoc. cbn [app List.length].
    replace (1 + Z.of_nat (List.length ls))%Z
      with (Z.of_nat (S (List.length ls))) by lia.
    reflexivity.
Qed.

(** In both orientations a substitution emits its characters unchanged, one
    variant each, and the cursor ends one step per character away. *)
Lemma substitution_step nid is_rev pos out e s :
  from_len e = to_len e -> edit_sequence e = Some s ->
  edit_step nid is_rev (pos, out) e =
  Ok (move is_rev pos (Z.of_nat (List.length (letters s))),
      out ++ subst_variants nid is_rev pos (letters s)) /\
  map snd (subst_variants nid is_rev pos (letters s)) = letters s.
Proof.
  intros L Sq. split.
  - unfold edit_step. rewrite L, Z.eqb_refl, Sq. now rewrite subst_fold.
  - generalize (letters s) as ls. intro ls. revert pos.
    induction ls as [|n ls IH]; intro pos; simpl; [reflexivity|]. now rewrite IH.
Qed.

(** C5 (defect).  A substitution by ["A"] read on the reverse strand of node 1
    (10 bases, cursor starting at 9) is emitted as ["A"], not as its
    reverse complement ["T"]; the forward read emits ["A"] at 0.  The insertion
    branch does complement the same character. *)
Theorem reverse_substitution_not_complemented :
  get_variants ex_pg (ex_subst (Some true)) = Ok [("1", AtBase 9, "A")] /\
  get_variants ex_pg (ex_subst None) = Ok [("1", AtBase 0, "A")] /\
  reverse_complement "A" = Ok "T" /\
  get_variants ex_pg ex_insert = Ok [("1", Inserted "8-9_0", "T")].
Proof. repeat split; vm_compute; reflexivity. Qed.

(** ** Best-path resolver *)

Section Enumerate.
Context {A V : Type} (F : nat -> A -> V).

Let entry (e : nat * A) : nat * V := (fst e, F (fst e) (snd e)).

Lemma get_numbered (l : list A) : forall start j x,
  nth_error l j = Some x ->
  dict_get (start + j) (map entry (combine (seq start (List.length l)) l))
  = Some (F (start + j) x).
Proof.
  induction l as [|a l IH]; intros start j x E.
  - destruct j; discriminate.
  - destruct j as [|j]; simpl in *.
    + injection E as <-. rewrite Nat.add_0_r, Nat.eqb_refl. reflexivity.
    + replace (start + S j =? start) with false
        by (symmetry; apply Nat.eqb_neq; lia).
      replace (start + S j) with (S start + j) by lia. now apply IH.
Qed.

Lemma get_unnumbered (l : list A) : forall start j,
  j < start \/ start + List.length l <= j ->
  dict_get j (map entry (combine (seq start (List.length l)) l)) = None.
Proof.
  induction l as [|a l IH]; intros start j Hj; simpl in *; [reflexivity|].
  replace (j =? start) with false by (symmetry; apply Nat.eqb_neq; lia).
  apply IH. lia.
Qed.

Lemma numbered_snoc (l : list A) (x : A) : forall start,
  combine (seq start (List.length (l ++ [x]))) (l ++ [x])
  = combine (seq start (List.length l)) l ++ [(start + List.length l, x)].
Proof.
  induction l as [|a l IH]; intro start; simpl.
  - now rewrite Nat.add_0_r.
  - rewrite IH.
    replace (S start + List.length l) with (start + S (List.length l)) by lia.
    reflexivity.
Qed.
End Enumerate.

Lemma In_enumerate {A : Type} (l : list A) i x :
  nth_error l i = Some x -> In (i, x) (enumerate l).
Proof.
  unfold enumerate. change i with (0 + i) at 2. generalize 0 as start.
  revert i. induction l as [|a l IH]; intros i start E.
  - destruct i; discriminate.
  - destruct i as [|i]; simpl in *.
    + injection E as <-. left. f_equal. lia.
    + right. replace (start + S i) with (S start + i) by lia. now apply IH.
Qed.

(** *** Seeding *)

Lemma seed_prefix (done rest : list Subpath) :
  fold_left (seed_step (done ++ rest)) (seq 0 (List.length done)) ([], [])
  = (seq 0 (List.length done), map seed_entry (enumerate done)).
Proof.
  revert rest. induction done as [|x done IH] using rev_ind; intro rest.
  - reflexivity.
  - rewrite length_app. simpl List.length. rewrite Nat.add_1_r, seq_S, fold_left_app.
    rewrite <- app_assoc. simpl app at 1. rewrite IH.
    cbn [fold_left]. unfold seed_step.
    rewrite nth_error_app2 by lia.
    replace (0 + List.length done - List.length done) with 0 by lia.
    simpl nth_error. unfold enumerate.
    assert (G : dict_get (0 + List.length done)
                  (map seed_entry (combine (seq 0 (List.length done)) done)) = None)
      by (apply (get_unnumbered (fun i sp => [own_prefix i sp])); lia).
    rewrite G. simpl get_or. simpl app at 2.
    rewrite (dict_set_absent _ _ _ G), numbered_snoc, map_app. reflexivity.
Qed.

(** The queue starts with every index and every index owns a frontier made of
    its one-subpath prefix. *)
Lemma seed_spec (subpath : list Subpath) :
  seed subpath = (seq 0 (List.length subpath), map seed_entry (enumerate subpath)).
Proof.
  unfold seed. rewrite <- (app_nil_r subpath) at 1. apply seed_prefix.
Qed.

Lemma seed_get subpath i sp :
  nth_error subpath i = Some sp ->
  dict_get i (snd (seed subpath)) = Some [own_prefix i sp].
Proof.
  intro E. rewrite seed_spec. simpl snd. unfold enumerate.
  apply (get_numbered (fun i sp => [own_prefix i sp]) subpath 0 i sp E).
Qed.

(** *** The update rule *)

Lemma extend_path child stats sc p :
  pf_path (extend child stats sc p) = pf_path p ++ [child].
Proof. now destruct stats as [[a b] c]. Qed.


(** Against a non-empty list the candidate replaces it when strictly better,
    joins it when equal, and is dropped when worse. *)
Lemma relax_rule child stats sc best rest p :
  let updated := extend child stats sc p in
  relax child stats sc (best :: rest) p =
  if (pf_score best <? pf_score updated)%Z then [updated]
  else if (pf_score updated =? pf_score best)%Z then best :: rest ++ [updated]
  else best :: rest.
Proof.
  intro updated. unfold relax. fold updated.
  rewrite Z.gtb_ltb.
  destruct (pf_score best <? pf_score updated)%Z eqn:L.
  - apply Z.ltb_lt in L.
    replace (pf_score updated =? pf_score best)%Z with false
      by (symmetry; apply Z.eqb_neq; lia).
    reflexivity.
  - destruct (pf_score updated =? pf_score best)%Z; reflexivity.
Qed.

(** *** What every frontier list satisfies *)

Lemma relax_ok child stats sc ending p :
  tied ending /\ ends_at child ending ->
  tied (relax child stats sc ending p) /\ ends_at child (relax child stats sc ending p).
Proof.
  intros [T E].
  assert (U : last (pf_path (extend child stats sc p)) 0 = child)
    by (rewrite extend_path; apply last_last).
  destruct ending as [|best rest].
  - simpl. split.
    + intros a b [<-|[]] [<-|[]]. reflexivity.
    + intros a [<-|[]]. exact U.
  - rewrite relax_rule. cbv zeta.
    destruct (pf_score best <? pf_score (extend child stats sc p))%Z.
    + split.
      * intros a b [<-|[]] [<-|[]]. reflexivity.
      * intros a [<-|[]]. exact U.
    + destruct (pf_score (extend child stats sc p) =? pf_score best)%Z eqn:Q;
        [|now split].
      apply Z.eqb_eq in Q.
      assert (B : forall a, In a (best :: rest ++ [extend child stats sc p]) ->
                  pf_score a = pf_score best /\ last (pf_path a) 0 = child).
      { intros a I. rewrite app_comm_cons in I. apply in_app_or in I.
        destruct I as [I|[<-|[]]].
        - split; [apply T; [exact I | now left] | now apply E].
        - now split. }
      split.
      * intros a b Ia Ib. destruct (B a Ia) as [-> _]. destruct (B b Ib) as [-> _].
        reflexivity.
      * intros a Ia. now destruct (B a Ia).
Qed.

Lemma relax_all_ok child stats sc prefixes : forall ending,
  tied ending /\ ends_at child ending ->
  tied (fold_left (relax child stats sc) prefixes ending) /\
  ends_at child (fold_left (relax child stats sc) prefixes ending).
Proof.
  induction prefixes as [|p prefixes IH]; intros ending Hk; simpl; [exact Hk|].
  apply IH. now apply relax_ok.
Qed.

Lemma empty_ok idx : tied [] /\ ends_at idx [].
Proof. split; [intros p q []|intros p []]. Qed.

Lemma visit_child_ok subpath current_node st child st' :
  frontier_ok (snd st) ->
  visit_child subpath current_node st child = Ok st' ->
  frontier_ok (snd st').
Proof.
  destruct st as [queue cp]. simpl. intros Hcp E. unfold visit_child in E.
  destruct (nth_error subpath child) as [sp|]; simpl in E; [|discriminate].
  destruct (child =? current_node); [discriminate|].
  set (cp1 := if dict_mem child cp then cp else dict_set child [] cp) in E.
  assert (H1 : frontier_ok cp1).
  { unfold cp1. destruct (dict_mem child cp); [exact Hcp|].
    intros idx l I. apply dict_set_In in I. destruct I as [[-> ->]|I].
    - apply empty_ok.
    - now apply Hcp. }
  destruct (dict_get current_node cp1) as [prefixes|]; simpl in E; [|discriminate].
  injection E as <-. simpl. intros idx l I.
  apply dict_set_In in I. destruct I as [[-> ->]|I]; [|now apply H1].
  apply relax_all_ok.
  destruct (dict_get child cp1) as [ending|] eqn:G; simpl.
  - apply H1. now apply dict_get_In.
  - apply empty_ok.
Qed.

Lemma walk_ok subpath seq_len : forall fuel queue cp fr,
  frontier_ok cp -> walk fuel subpath seq_len queue cp = Ok fr -> frontier_ok fr.
Proof.
  induction fuel as [|fuel IH]; intros queue cp fr Hcp E;
    destruct queue as [|current_node queue]; simpl in E;
    try (injection E as <-; exact Hcp); try discriminate.
  destruct (nth_error subpath current_node) as [sp|]; simpl in E; [|discriminate].
  destruct (sp_next sp) as [children|]; [|now apply IH in E].
  destruct (dict_get current_node cp) as [prefixes|]; simpl in E; [|discriminate].
  destruct (forallb _ prefixes); [now apply IH in E|].
  match type of E with
  | bind ?c _ = _ => destruct c as [[queue1 cp1]|] eqn:E1; simpl in E; [|discriminate]
  end.
  apply IH in E; [exact E|].
  apply (for_each_inv (fun st => frontier_ok (snd st))) in E1; auto.
  - simpl in E1. intros idx l I. apply E1. eapply dict_pop_In; eauto.
  - intros st x st' _. apply visit_child_ok.
Qed.

Lemma seed_ok subpath : frontier_ok (snd (seed subpath)).
Proof.
  rewrite seed_spec. simpl. intros idx l I.
  apply in_map_iff in I. destruct I as [[i sp] [E _]].
  unfold seed_entry in E. simpl in E. injection E as <- <-. split.
  - intros p q [<-|[]] [<-|[]]. reflexivity.
  - intros p [<-|[]]. unfold own_prefix.
    now destruct (subpath_stats sp) as [[a b] c].
Qed.

(** In each list left in the frontier all prefixes stop at the list's key and
    have one score. *)
Lemma BFS_frontier_ok fuel aln fr :
  BFS_frontier fuel aln = Ok fr -> frontier_ok fr.
Proof.
  unfold BFS_frontier. destruct (aln_subpath aln) as [subpath|]; simpl; [|discriminate].
  destruct (seed subpath) as [queue cp] eqn:S0. intro E.
  eapply walk_ok; [|exact E].
  change cp with (snd (queue, cp)). rewrite <- S0. apply seed_ok.
Qed.

(** *** Termination on arrays in topological order *)

Lemma topo_ordered_spec subpath i sp children c :
  topo_ordered subpath = true ->
  nth_error subpath i = Some sp -> sp_next sp = Some children -> In c children ->
  i < c < List.length subpath.
Proof.
  intros T E N I. unfold topo_ordered in T.
  rewrite forallb_forall in T. specialize (T (i, sp) (In_enumerate _ _ _ E)).
  simpl in T. rewrite N in T. rewrite forallb_forall in T. specialize (T c I).
  apply andb_true_iff in T. destruct T as [T1 T2].
  apply Nat.ltb_lt in T1, T2. lia.
Qed.

Lemma py_in_seq c start len :
  start <= c < start + len -> py_in c (seq start len) = true.
Proof.
  intro Hc. unfold py_in. apply existsb_exists. exists c. split.
  - apply in_seq. lia.
  - apply Nat.eqb_refl.
Qed.

Lemma dict_mem_get {V : Type} (k : nat) (d : dict nat V) :
  dict_mem k d = true -> exists v, dict_get k d = Some v.
Proof.
  unfold dict_mem. destruct (dict_get k d) as [v|]; [eauto|discriminate].
Qed.

(** The successors of node [k] are all waiting in the queue and all own a
    frontier: the loop over them neither grows the queue nor fails, and no key
    is lost. *)
Lemma visit_children_topo subpath k m : forall children cp,
  k + S m = List.length subpath ->
  (forall c, In c children -> k < c < List.length subpath) ->
  (forall j, k <= j < List.length subpath -> dict_mem j cp = true) ->
  exists cp',
    for_each (visit_child subpath k) children (seq (S k) m, cp) = Ok (seq (S k) m, cp') /\
    (forall j, k <= j < List.length subpath -> dict_mem j cp' = true).
Proof.
  induction children as [|c children IH]; intros cp Hn Hc Hk.
  - exists cp. now split.
  - assert (Rc : k < c < List.length subpath) by (apply Hc; now left).
    cbn [for_each]. unfold visit_child at 1.
    rewrite py_in_seq by lia.
    destruct (nth_error subpath c) as [sp|] eqn:Ec.
    2:{ apply nth_error_None in Ec. lia. }
    simpl bind. replace (c =? k) with false by (symmetry; apply Nat.eqb_neq; lia).
    rewrite (Hk c) by lia.
    destruct (dict_mem_get k cp) as [prefixes Gk]; [apply Hk; lia|].
    rewrite Gk. simpl bind.
    apply IH; auto.
    + intros c' I. apply Hc. now right.
    + intros j Hj. apply dict_mem_set. now apply Hk.
Qed.

Lemma walk_topo subpath seq_len :
  topo_ordered subpath = true ->
  forall m k cp,
    k + m = List.length subpath ->
    (forall j, k <= j < List.length subpath -> dict_mem j cp = true) ->
    exists fr, walk m subpath seq_len (seq k m) cp = Ok fr.
Proof.
  intro T. induction m as [|m IH]; intros k cp Hn Hk.
  - exists cp. reflexivity.
  - cbn [seq walk].
    destruct (nth_error subpath k) as [sp|] eqn:Ek.
    2:{ apply nth_error_None in Ek. lia. }
    simpl bind.
    assert (Next : forall cp0,
               (forall j, k <= j < List.length subpath -> dict_mem j cp0 = true) ->
               exists fr, walk m subpath seq_len (seq (S k) m) cp0 = Ok fr).
    { intros cp0 H0. apply IH; [lia|]. intros j Hj. apply H0. lia. }
    destruct (sp_next sp) as [children|] eqn:En; [|now apply Next].
    destruct (dict_mem_get k cp) as [prefixes Gk]; [apply Hk; lia|].
    rewrite Gk. simpl bind.
    destruct (forallb _ prefixes); [now apply Next|].
    destruct (visit_children_topo subpath k m children cp) as [cp' [E' K']]; auto.
    { intros c I. eapply topo_ordered_spec; eauto. }
    unfold Frontier in *. rewrite E'. simpl bind.
    apply IH; [lia|].
    intros j Hj. unfold dict_mem. rewrite dict_get_pop_other by lia.
    apply K'. lia.
Qed.

(** On an array in topological order the walk ends after as many dequeues as
    there are subpaths. *)
Lemma BFS_frontier_total aln subpath :
  aln_subpath aln = Some subpath -> topo_ordered subpath = true ->
  exists fr, BFS_frontier (List.length subpath) aln = Ok fr.
Proof.
  intros Es T. unfold BFS_frontier. rewrite Es. simpl bind.
  rewrite seed_spec. apply walk_topo; auto.
  intros j Hj. unfold dict_mem.
  destruct (nth_error subpath j) as [sp|] eqn:Ej.
  - pose proof (seed_get subpath j sp Ej) as G. rewrite seed_spec in G.
    simpl in G. now rewrite G.
  - apply nth_error_None in Ej. lia.
Qed.

(** *** From the frontier to the returned alignments *)




(** C1 (defect).  On a read of 15 bases whose first subpath has two
    successors, both of them sinks, the two paths to a sink cover the whole
    read and score 13 and 15.  The resolver leaves one list per end subpath
    and returns both alignments, the one of score 13 first: an alignment is
    returned that scores less than another returned alignment. *)
Theorem lower_score_alignment_returned :
  let subpath := get_or (aln_subpath ex_fork_low) [] in
  topo_ordered subpath = true /\
  chain subpath [0; 1] = true /\ chain subpath [0; 2] = true /\
  successor_of subpath 1 2 = false /\ successor_of subpath 2 1 = false /\
  map (fun sp => sp_next sp) subpath = [Some [1; 2]; None; None] /\
  total_len subpath [0; 1] = 15%Z /\ total_len subpath [0; 2] = 15%Z /\
  total_score subpath [0; 1] = 13%Z /\ total_score subpath [0; 2] = 15%Z /\
  exists p q a b,
    BFS_frontier 3 ex_fork_low = Ok [(1, [p]); (2, [q])] /\
    pf_path p = [0; 1] /\ pf_path q = [0; 2] /\
    BFS ex_pg 3 ex_fork_low = Ok [a; b] /\
    al_score a = 13%Z /\ al_score b = 15%Z /\
    map fst (al_nodes a) = ["1"; "3"] /\ map fst (al_nodes b) = ["1"; "2"] /\
    (al_score a < al_score b)%Z.
Proof.
  cbv zeta. repeat (split; [vm_compute; reflexivity|]).
  do 4 eexists. split; [vm_compute; reflexivity|].
  split; [reflexivity|]. split; [reflexivity|].
  split; [vm_compute; reflexivity|].
  repeat split.
Qed.

(** A chain whose declared root scores 0: the second subpath, not a root,
    is returned on its own beside the path from the root. *)
Lemma chain_seed_survives :
  exists fr,
    BFS_frontier 2 ex_chain = Ok [(1, fr)] /\ map pf_path fr = [[1]; [0; 1]].
Proof. eexists. split; vm_compute; reflexivity. Qed.

(** C10.  A record whose ['subpath'] array is empty gets an empty list from
    the resolver and the parser fails on element 0 of it, whatever was read
    before and whatever follows; a record without the key only updates the
    name of the last line read. *)
Theorem empty_subpath_raises pg fuel thr st name sq starts pre post :
  BFS pg fuel (mkAln name sq (Some []) starts) = Ok [] /\
  parse_record pg fuel thr st (mkAln name sq (Some []) starts) = Raise IndexError /\
  parse_vgmpmap pg fuel thr (pre ++ mkAln name sq (Some []) starts :: post)
  = (_ <- for_each (parse_record pg fuel thr) pre initial_state ;; Raise IndexError) /\
  parse_record pg fuel thr st (mkAln name sq None starts)
  = Ok (mkParseState (st_reads st) (st_variants st) (previous_read st) (Some name)).
Proof.
  assert (B : BFS pg fuel (mkAln name sq (Some []) starts) = Ok []).
  { unfold BFS, BFS_frontier. simpl. now destruct fuel. }
  assert (P : forall st0, parse_record pg fuel thr st0 (mkAln name sq (Some []) starts)
                          = Raise IndexError).
  { intro st0. unfold parse_record. cbn [aln_subpath]. now rewrite B. }
  split; [exact B|]. split; [apply P|]. split; [|reflexivity].
  unfold parse_vgmpmap. rewrite for_each_app.
  destruct (for_each (parse_record pg fuel thr) pre initial_state) as [st1|]; simpl;
    [|reflexivity].
  now rewrite P.
Qed.

(** ** Streaming parser *)

Lemma flush_same_name name reads variants : flush name name reads variants = variants.
Proof. unfold flush. now rewrite String.eqb_refl. Qed.

(** After a line that carries a ['subpath'], [previous_read] is the name of
    the last line read. *)
Lemma parse_record_mapped pg fuel thr st aln st' :
  aln_subpath aln <> None ->
  parse_record pg fuel thr st aln = Ok st' ->
  previous_read st' = aln_name aln /\ last_line st' = Some (aln_name aln).
Proof.
  intros M E. unfold parse_record in E.
  destruct (aln_subpath aln); [|contradiction].
  destruct (BFS pg fuel aln); simpl in E; [|discriminate].
  destruct (store thr (st_reads st) aln a); simpl in E; [|discriminate].
  injection E as <-. now split.
Qed.

(** When the file ends on a mapped line, the statement written after the loop
    changes nothing: what is returned is the state the loop left. *)
Lemma final_flush_idle pg fuel thr lines aln reads variants :
  aln_subpath aln <> None ->
  parse_vgmpmap pg fuel thr (lines ++ [aln]) = Ok (reads, variants) ->
  exists st,
    for_each (parse_record pg fuel thr) (lines ++ [aln]) initial_state = Ok st /\
    reads = st_reads st /\ variants = st_variants st.
Proof.
  intros M E. unfold parse_vgmpmap in E.
  destruct (for_each (parse_record pg fuel thr) (lines ++ [aln]) initial_state)
    as [st|] eqn:F; simpl in E; [|discriminate].
  exists st. split; [reflexivity|].
  rewrite for_each_app in F.
  destruct (for_each (parse_record pg fuel thr) lines initial_state) as [st0|];
    simpl in F; [|discriminate].
  destruct (parse_record pg fuel thr st0 aln) as [st1|] eqn:P; simpl in F; [|discriminate].
  injection F as <-.
  destruct (parse_record_mapped _ _ _ _ _ _ M P) as [Hp Hl].
  rewrite Hl in E. simpl in E. rewrite Hp, flush_same_name in E.
  now injection E as <- <-.
Qed.

(** C3 (defect).  A file of one mapped record, retained with a single
    alignment that carries a variant: at the end of the stream the variants
    mapping is empty.  With a second read after it, the variant of the first
    read is recorded when the name changes, and the second read, now the last
    group, is again left out. *)
Theorem last_group_not_flushed :
  parse_vgmpmap ex_pg 1 (9 # 10)%Q [ex_read1]
  = Ok ([("r1", [("ACGTACGTAC", [ex_alignment1])])], []) /\
  al_variants ex_alignment1 = [("1", AtBase 9, "T")] /\
  exists reads,
    parse_vgmpmap ex_pg 1 (9 # 10)%Q [ex_read1; ex_read2]
    = Ok (reads, [("1", [(AtBase 9, [("T", ["r1"])])])]) /\
    retained reads "r2" "GGGGGGGGGG" = true.
Proof.
  split; [vm_compute; reflexivity|]. split; [reflexivity|].
  eexists. split; vm_compute; reflexivity.
Qed.

(** *** Threshold filtering *)

Lemma true_div_ok a b : b <> 0%Z -> exists q, true_div a b = Ok q.
Proof.
  intro N. unfold true_div.
  replace (b =? 0)%Z with false by (symmetry; now apply Z.eqb_neq). eauto.
Qed.

Lemma retained_set reads name sq l n s :
  retained
    (dict_set name (dict_set sq l (get_or (dict_get name reads) [])) reads) n s
  = if (n =? name)%string
    then (if (s =? sq)%string then true else retained reads name s)
    else retained reads n s.
Proof.
  unfold retained. destruct (n =? name)%string eqn:En.
  - apply String.eqb_eq in En. subst n. rewrite dict_get_set_same.
    unfold dict_mem. destruct (s =? sq)%string eqn:Es.
    + apply String.eqb_eq in Es. subst s. now rewrite dict_get_set_same.
    + apply String.eqb_neq in Es. rewrite dict_get_set_other by exact Es.
      unfold Reads, dict in *. now destruct (dict_get name reads).
  - apply String.eqb_neq in En. now rewrite dict_get_set_other.
Qed.

Lemma nonempty_slots_get reads name slots sq l :
  nonempty_slots reads = true ->
  dict_get name reads = Some slots -> dict_get sq slots = Some l -> l <> [].
Proof.
  intros H G1 G2 ->. unfold nonempty_slots in H. rewrite forallb_forall in H.
  specialize (H _ (dict_get_In _ _ _ G1)). simpl in H.
  rewrite forallb_forall in H. specialize (H _ (dict_get_In _ _ _ G2)).
  discriminate.
Qed.

Lemma nonempty_slots_set reads name sq l :
  nonempty_slots reads = true -> l <> [] ->
  nonempty_slots
    (dict_set name (dict_set sq l (get_or (dict_get name reads) [])) reads) = true.
Proof.
  intros H Hl. unfold nonempty_slots in *. rewrite forallb_forall in *.
  intros [n slots] I. simpl. apply dict_set_In in I.
  destruct I as [[-> ->]|I]; [|exact (H _ I)].
  apply forallb_forall. intros [s l'] I'. simpl. apply dict_set_In in I'.
  destruct I' as [[-> ->]|I'].
  - destruct l; [contradiction|reflexivity].
  - destruct (dict_get name reads) as [sl|] eqn:G; simpl in I'; [|contradiction].
    specialize (H _ (dict_get_In _ _ _ G)). simpl in H.
    rewrite forallb_forall in H. exact (H _ I').
Qed.

(** What [store] does to a record whose alignments start with [first]. *)
Lemma store_spec thr reads aln first rest :
  nonempty_slots reads = true ->
  0 < str_len (aln_sequence aln) ->
  exists new_score reads',
    true_div (al_score first) (Z.of_nat (str_len (aln_sequence aln))) = Ok new_score /\
    store thr reads aln (first :: rest) = Ok reads' /\
    nonempty_slots reads' = true /\
    (forall n s,
       retained reads' n s = true <->
       retained reads n s = true \/
       (n = aln_name aln /\ s = aln_sequence aln /\ Qle thr new_score)) /\
    (~ Qle thr new_score -> reads' = reads).
Proof.
  intros Hne Hlen.
  assert (Nz : Z.of_nat (str_len (aln_sequence aln)) <> 0%Z) by lia.
  destruct (true_div_ok (al_score first) _ Nz) as [q Eq].
  exists q. unfold store. cbn [hd_error of_option bind]. rewrite Eq. cbn [bind].
  destruct (Qle_bool thr q) eqn:Le.
  2:{ exists reads. repeat split; auto.
      - intros [R|[_ [_ Q]]]; [exact R|].
        apply Qle_bool_iff in Q. congruence. }
  assert (LeP : Qle thr q) by now apply Qle_bool_iff.
  assert (New : forall l, l <> [] ->
    let reads' := dict_set (aln_name aln)
                    (dict_set (aln_sequence aln) l
                       (get_or (dict_get (aln_name aln) reads) [])) reads in
    nonempty_slots reads' = true /\
    (forall n s,
       retained reads' n s = true <->
       retained reads n s = true \/
       (n = aln_name aln /\ s = aln_sequence aln /\ Qle thr q)) /\
    (~ Qle thr q -> reads' = reads)).
  { intros l Hl reads'. split; [now apply nonempty_slots_set|]. split; [|contradiction].
    intros n s. unfold reads'. rewrite retained_set.
    destruct (n =? aln_name aln)%string eqn:En.
    - apply String.eqb_eq in En. subst n.
      destruct (s =? aln_sequence aln)%string eqn:Es.
      + apply String.eqb_eq in Es. subst s. split; auto.
      + apply String.eqb_neq in Es. split; [auto|].
        intros [R|[_ [Q _]]]; [exact R|contradiction].
    - apply String.eqb_neq in En. split; [auto|].
      intros [R|[Q _]]; [exact R|contradiction]. }
  destruct (dict_get (aln_sequence aln) (get_or (dict_get (aln_name aln) reads) []))
    as [current|] eqn:G.
  - assert (Gs : exists slots, dict_get (aln_name aln) reads = Some slots /\
                               dict_get (aln_sequence aln) slots = Some current).
    { destruct (dict_get (aln_name aln) reads) as [slots|]; simpl in G;
        [eauto|discriminate]. }
    destruct Gs as [slots [G1 G2]].
    assert (Hc : current <> []) by (eapply nonempty_slots_get; eauto).
    destruct current as [|cur current]; [contradiction|].
    cbn [hd_error of_option bind].
    destruct (true_div_ok (al_score cur) _ Nz) as [cs Ec]. rewrite Ec. cbn [bind].
    destruct (negb (Qle_bool q cs)).
    + eexists. split; [reflexivity|]. split; [reflexivity|]. apply New. discriminate.
    + destruct (Qeq_bool q cs).
      * eexists. split; [reflexivity|]. split; [reflexivity|]. apply New. discriminate.
      * exists reads. repeat split; auto.
        intros [R|[-> [-> _]]]; [exact R|].
        unfold retained, dict_mem. now rewrite G1, G2.
  - eexists. split; [reflexivity|]. split; [reflexivity|]. apply New. discriminate.
Qed.

(** For a record with a non-empty read sequence whose resolver output starts
    with [first], the score compared with the threshold is [first]'s score
    divided by the read length.  When it is at least the threshold, equality
    included, the slot of the record's read name and sequence is present
    afterwards; when it is below, the record leaves the retained reads as they
    were. *)
Lemma first_score_decides_retention thr reads aln first rest :
  nonempty_slots reads = true ->
  0 < str_len (aln_sequence aln) ->
  exists new_score reads',
    true_div (al_score first) (Z.of_nat (str_len (aln_sequence aln))) = Ok new_score /\
    store thr reads aln (first :: rest) = Ok reads' /\
    nonempty_slots reads' = true /\
    (Qle thr new_score -> retained reads' (aln_name aln) (aln_sequence aln) = true) /\
    (~ Qle thr new_score -> reads' = reads).
Proof.
  intros Hne Hlen.
  destruct (store_spec thr reads aln first rest Hne Hlen) as [q [reads' [E1 [E2 [E3 [E4 E5]]]]]].
  exists q, reads'. repeat split; auto.
  intro Le. apply E4. right. auto.
Qed.

(** A normalized score equal to the threshold keeps the slot. *)
Lemma score_equal_to_threshold_retained :
  exists reads,
    store (9 # 10)%Q [] ex_read1 [ex_alignment1] = Ok reads /\
    true_div (al_score ex_alignment1) (Z.of_nat (str_len (aln_sequence ex_read1)))
    = Ok (9 # 10)%Q /\
    retained reads "r1" "ACGTACGTAC" = true.
Proof. eexists. repeat split; vm_compute; reflexivity. Qed.

(** C8 (defect).  The resolver returns two alignments for the record, of
    scores 13 and 15 in this order, on a read of 15 bases.  The best
    normalized score is 15/15, above the threshold 0.9, and yet the slot is not
    retained: the parser compared 13/15, the score of the first alignment. *)
Theorem best_score_passes_but_dropped :
  exists a b best first,
    BFS ex_pg 3 ex_fork_low = Ok [a; b] /\
    al_score a = 13%Z /\ al_score b = 15%Z /\
    best_score [a; b] = Some 15%Z /\
    true_div 15 (Z.of_nat (str_len (aln_sequence ex_fork_low))) = Ok best /\
    Qle_bool (9 # 10)%Q best = true /\
    true_div (al_score a) (Z.of_nat (str_len (aln_sequence ex_fork_low))) = Ok first /\
    Qle_bool (9 # 10)%Q first = false /\
    parse_vgmpmap ex_pg 3 (9 # 10)%Q [ex_fork_low] = Ok ([], []) /\
    retained [] (aln_name ex_fork_low) (aln_sequence ex_fork_low) = false.
Proof.
  do 4 eexists. split; [vm_compute; reflexivity|].
  repeat split; vm_compute; reflexivity.
Qed.

Lemma parse_record_retained pg fuel thr st aln st' :
  nonempty_slots (st_reads st) = true ->
  parse_record pg fuel thr st aln = Ok st' ->
  nonempty_slots (st_reads st') = true /\
  forall n s,
    retained (st_reads st') n s = true <->
    retained (st_reads st) n s = true \/
    (aln_name aln = n /\ aln_sequence aln = s /\ passes pg fuel thr aln).
Proof.
  intros Hne E. unfold parse_record in E.
  destruct (aln_subpath aln) as [subpath|] eqn:Es.
  2:{ injection E as <-. simpl. split; [exact Hne|]. intros n s. split; [auto|].
      intros [R|[_ [_ [M _]]]]; [exact R|]. now rewrite Es in M. }
  destruct (BFS pg fuel aln) as [fp|] eqn:B; simpl in E; [|discriminate].
  destruct (store thr (st_reads st) aln fp) as [reads1|] eqn:St; simpl in E; [|discriminate].
  injection E as <-. simpl.
  destruct fp as [|first rest]; [discriminate|].
  assert (Hlen : 0 < str_len (aln_sequence aln)).
  { unfold store, true_div in St. cbn [hd_error of_option bind] in St.
    destruct (Z.of_nat (str_len (aln_sequence aln)) =? 0)%Z eqn:Z0; [discriminate|].
    apply Z.eqb_neq in Z0. lia. }
  destruct (store_spec thr (st_reads st) aln first rest Hne Hlen)
    as [q [reads' [E1 [E2 [E3 [E4 _]]]]]].
  rewrite St in E2. injection E2 as <-. split; [exact E3|].
  intros n s. rewrite E4. split.
  - intros [R|[-> [-> Le]]]; [now left|]. right. repeat split; auto.
    + now rewrite Es.
    + exists first, rest, q. auto.
  - intros [R|[<- [<- [_ [f [r [q' [Bf [Eq' Le]]]]]]]]]; [now left|]. right.
    rewrite B in Bf. injection Bf as <- <-. rewrite E1 in Eq'. injection Eq' as <-.
    auto.
Qed.

(** Over a whole stream read without error, a slot is retained exactly when
    one of the records of that read name and sequence passes. *)
Lemma retained_iff_some_record_passes pg fuel thr lines : forall st st',
  nonempty_slots (st_reads st) = true ->
  for_each (parse_record pg fuel thr) lines st = Ok st' ->
  nonempty_slots (st_reads st') = true /\
  forall n s,
    retained (st_reads st') n s = true <->
    retained (st_reads st) n s = true \/
    exists aln, In aln lines /\ aln_name aln = n /\ aln_sequence aln = s /\
                passes pg fuel thr aln.
Proof.
  induction lines as [|aln lines IH]; intros st st' Hne E; simpl in E.
  - injection E as <-. split; [exact Hne|]. intros n s. split; [auto|].
    intros [R|[aln [[] _]]]. exact R.
  - destruct (parse_record pg fuel thr st aln) as [st1|] eqn:P; simpl in E; [|discriminate].
    destruct (parse_record_retained _ _ _ _ _ _ Hne P) as [H1 R1].
    destruct (IH _ _ H1 E) as [H2 R2]. split; [exact H2|].
    intros n s. rewrite R2, R1. split.
    + intros [[R|[En [Esq Hp]]]|[a [I Ha]]].
      * now left.
      * right. exists aln. split; [now left|auto].
      * right. exists a. split; [now right|auto].
    + intros [R|[a [[<-|I] [En [Esq Hp]]]]].
      * left. now left.
      * left. right. auto.
      * right. exists a. auto.
Qed.

(** ** Abundance aggregator *)

(** For a gene already in [d_abund], the unique count grows by the read length
    over the length of [path_seq] as the state holds it, whichever gene that
    sequence was built for. *)
Lemma unique_match_known_gene pg st gene mate align g pseq st' :
  dict_get gene (d_abund st) = Some g ->
  path_seq st = Some pseq ->
  unique_match pg st gene mate align = Ok st' ->
  exists g' inc,
    dict_get gene (d_abund st') = Some g' /\
    true_div (Z.of_nat (str_len mate)) (Z.of_nat (str_len pseq)) = Ok inc /\
    uniq_count g' = qadd (uniq_count g) inc /\
    path_seq st' = Some pseq.
Proof.
  intros G P E. unfold unique_match in E. rewrite G in E. cbn [bind] in E.
  rewrite G, P in E. cbn [of_option bind] in E.
  destruct (true_div (Z.of_nat (str_len mate)) (Z.of_nat (str_len pseq))) as [inc|];
    cbn [bind] in E; [|discriminate].
  destruct (for_each _ (al_nodes align) (nodes_abund g)) as [abund1|];
    cbn [bind] in E; [|discriminate].
  injection E as <-. cbn [d_abund path_seq].
  rewrite dict_get_set_same. eexists. exists inc. repeat split; eauto.
Qed.

(** C6 (defect).  Reads [a] and [c], of 10 bases, match gene ["2-1"]
    (20 bases) alone and read [b], of 5 bases, matches gene ["3"] (5 bases)
    alone.  After [a] and [b] the count of ["2-1"] is 10/20; read [c] then adds
    10/5, the length left by gene ["3"], and the count ends at 5/2.  With [b]
    read last the same reads give 10/20 + 10/20 = 1. *)
Theorem unique_increment_uses_last_initialized_gene :
  exists own st2 st3 st3' g2 g3 g3',
    List.length (reads_of ex_lines) = 3 /\
    init_gene ex_pg "2-1" = Ok own /\ str_len (snd own) = 20 /\
    for_each (process_read ex_pg ex_idt) (firstn 2 (reads_of ex_lines)) initial_abund
    = Ok st2 /\
    read_loop ex_pg ex_idt (reads_of ex_lines) = Ok st3 /\
    read_loop ex_pg ex_idt (reads_of ex_lines_reordered) = Ok st3' /\
    path_seq st2 = Some "TTTTT" /\
    dict_get "2-1" (d_abund st2) = Some g2 /\ uniq_count g2 = (1 # 2)%Q /\
    dict_get "2-1" (d_abund st3) = Some g3 /\ uniq_count g3 = (5 # 2)%Q /\
    dict_get "2-1" (d_abund st3') = Some g3' /\ uniq_count g3' = 1%Q.
Proof.
  do 7 eexists.
  split; [vm_compute; reflexivity|].
  split; [vm_compute; reflexivity|]. split; [reflexivity|].
  split; [vm_compute; reflexivity|].
  split; [vm_compute; reflexivity|].
  split; [vm_compute; reflexivity|].
  split; [reflexivity|].
  split; [vm_compute; reflexivity|]. split; [reflexivity|].
  split; [vm_compute; reflexivity|]. split; [reflexivity|].
  split; [vm_compute; reflexivity|]. reflexivity.
Qed.

(** *** Finalization per strain and threshold *)

(** [int] cuts the fractional part: on a non-negative sample it is the floor,
    on a non-positive one the ceiling. *)
Lemma py_int_trunc (a : Q) :
  (Qle 0 a -> Qle (inject_Z (py_int a)) a /\ Qlt a (inject_Z (py_int a + 1))) /\
  (Qle a 0 -> Qle a (inject_Z (py_int a)) /\ Qlt (inject_Z (py_int a - 1)) a).
Proof.
  destruct a as [n d]. unfold py_int, Qle, Qlt. simpl.
  pose proof (Z.quot_rem' n (Z.pos d)) as D.
  split; intro H.
  - pose proof (Z.rem_bound_pos_pos n (Z.pos d)) as B. nia.
  - pose proof (Z.rem_bound_pos_neg n (Z.pos d)) as B. nia.
Qed.

Lemma abund_norm_spec (samples : list Q) : forall (copies : list Z),
  Forall (fun b => b <> 0%Z) copies ->
  exists norm,
    abund_norm samples copies = Ok norm /\
    List.length norm = Nat.min (List.length samples) (List.length copies) /\
    forall i a b,
      nth_error samples i = Some a -> nth_error copies i = Some b ->
      nth_error norm i = Some (Qred (Qdiv (inject_Z (py_int a)) (inject_Z b))).
Proof.
  induction samples as [|a samples IH]; intros copies Hnz.
  - exists []. split; [reflexivity|]. split; [reflexivity|].
    intros [|i] ? ? E; discriminate.
  - destruct copies as [|b copies].
    + exists []. split; [reflexivity|]. split; [reflexivity|].
      intros [|i] ? ? _ E; discriminate.
    + inversion Hnz as [|? ? Hb Hrest]; subst.
      destruct (IH copies Hrest) as [norm [E [L N]]].
      exists (Qred (Qdiv (inject_Z (py_int a)) (inject_Z b)) :: norm).
      split; [|split].
      * simpl. unfold true_div.
        replace (b =? 0)%Z with false by (symmetry; now apply Z.eqb_neq).
        simpl. now rewrite E.
      * simpl. now rewrite L.
      * intros [|i] a' b' Ea Eb; simpl in *.
        -- now injection Ea as <-; injection Eb as <-.
        -- now apply N.
Qed.

Lemma fold_qplus_shift l : forall acc,
  Qeq (fold_left Qplus l acc) (Qplus acc (fold_left Qplus l (0 # 1)%Q)).
Proof.
  induction l as [|x l IH]; intro acc; simpl.
  - ring.
  - rewrite IH, (IH (Qplus (0 # 1) x)). ring.
Qed.

(** The mean times the number of samples is their sum. *)
Lemma qmean_spec l :
  l <> [] ->
  Qeq (Qmult (qmean l) (inject_Z (Z.of_nat (List.length l)))) (qsum l).
Proof.
  intro N. unfold qmean. rewrite Qred_correct.
  assert (Hn : ~ Qeq (inject_Z (Z.of_nat (List.length l))) (0 # 1)%Q).
  { destruct l; [contradiction|]. unfold Qeq. simpl. lia. }
  field. exact Hn.
Qed.

(** C7 (as amended).  When no copy count is 0, finalization succeeds; the
    normalized list pairs samples and copy counts position by position; each
    entry is the sample cut to an integer by [int] (toward zero: the floor for
    a non-negative sample) and then divided by the copy count without further
    rounding; the final abundance is the mean of that list (its sum over its
    length) and [std] is the square root of the mean squared deviation from
    that mean. *)
Theorem finalize_truncates_samples r :
  Forall (fun b => b <> 0%Z) (nb_copy r) ->
  exists norm,
    finalize r
    = Ok (mkStrainFinal (nb_genes r) (np_mean norm) (np_std norm) (nb_copy r)) /\
    List.length norm = Nat.min (List.length (abund r)) (List.length (nb_copy r)) /\
    (forall i a b,
       nth_error (abund r) i = Some a -> nth_error (nb_copy r) i = Some b ->
       nth_error norm i = Some (Qred (Qdiv (inject_Z (py_int a)) (inject_Z b))) /\
       (Qle 0 a -> Qle (inject_Z (py_int a)) a /\ Qlt a (inject_Z (py_int a + 1)))) /\
    (norm <> [] ->
     np_mean norm = Some (qmean norm) /\
     Qeq (Qmult (qmean norm) (inject_Z (Z.of_nat (List.length norm)))) (qsum norm) /\
     np_std norm
     = Some (sqrt (Q2R (qmean (map (fun x => Qmult (Qminus x (qmean norm))
                                                   (Qminus x (qmean norm))) norm))))).
Proof.
  intro Hnz. destruct (abund_norm_spec (abund r) (nb_copy r) Hnz) as [norm [E [L N]]].
  exists norm. split; [|split; [exact L|split]].
  - unfold finalize. now rewrite E.
  - intros i a b Ea Eb. split; [now apply N | apply py_int_trunc].
  - intro Hn. split; [|split].
    + destruct norm; [contradiction|reflexivity].
    + now apply qmean_spec.
    + destruct norm; [contradiction|reflexivity].
Qed.

Lemma finalize_truncates_samples_witness :
  exists norm,
    finalize ex_stat
    = Ok (mkStrainFinal (nb_genes ex_stat) (np_mean norm) (np_std norm) (nb_copy ex_stat)) /\
    List.length norm
    = Nat.min (List.length (abund ex_stat)) (List.length (nb_copy ex_stat)) /\
    (forall i a b,
       nth_error (abund ex_stat) i = Some a -> nth_error (nb_copy ex_stat) i = Some b ->
       nth_error norm i = Some (Qred (Qdiv (inject_Z (py_int a)) (inject_Z b))) /\
       (Qle 0 a -> Qle (inject_Z (py_int a)) a /\ Qlt a (inject_Z (py_int a + 1)))) /\
    (norm <> [] ->
     np_mean norm = Some (qmean norm) /\
     Qeq (Qmult (qmean norm) (inject_Z (Z.of_nat (List.length norm)))) (qsum norm) /\
     np_std norm
     = Some (sqrt (Q2R (qmean (map (fun x => Qmult (Qminus x (qmean norm))
                                                   (Qminus x (qmean norm))) norm))))).
Proof.
  apply (finalize_truncates_samples ex_stat).
  simpl. constructor; [lia|constructor].
Defined.

(** C7 (counterexample).  A sample of 1.5 with one copy is normalized to 1,
    not to 1.5: the final abundance is 1 where exact division gives 1.5. *)
Lemma sample_truncated_before_division :
  abund_norm (abund ex_stat) (nb_copy ex_stat) = Ok [1%Q] /\
  exact_norm (abund ex_stat) (nb_copy ex_stat) = [(3 # 2)%Q] /\
  (exists f, finalize ex_stat = Ok f /\ fin_abund f = Some 1%Q) /\
  np_mean (exact_norm (abund ex_stat) (nb_copy ex_stat)) = Some (3 # 2)%Q /\
  ~ Qeq 1 (3 # 2).
Proof.
  split; [reflexivity|]. split; [reflexivity|].
  split; [eexists; split; [unfold finalize; simpl; reflexivity | reflexivity]|].
  split; [reflexivity|]. discriminate.
Qed.

(** * Further properties of the script *)

(** ** Strings and signatures *)

Lemma complement_involutive b c : complement b = Ok c -> complement c = Ok b.
Proof.
  destruct b as [[] [] [] [] [] [] [] []]; simpl; intro E;
    try discriminate; injection E as <-; reflexivity.
Qed.

Lemma complement_all_app l1 : forall l2 r1 r2,
  complement_all l1 = Ok r1 -> complement_all l2 = Ok r2 ->
  complement_all (l1 ++ l2) = Ok (r1 ++ r2).
Proof.
  induction l1 as [|b l1 IH]; intros l2 r1 r2 E1 E2; simpl in *.
  - now injection E1 as <-.
  - destruct (complement b) as [c|]; simpl in *; [|discriminate].
    destruct (complement_all l1) as [cs|] eqn:E; simpl in *; [|discriminate].
    injection E1 as <-. now rewrite (IH l2 cs r2 eq_refl E2).
Qed.

Lemma complement_all_rev l : forall r,
  complement_all l = Ok r ->
  complement_all (rev r) = Ok (rev l) /\ List.length r = List.length l.
Proof.
  induction l as [|b l IH]; intros r E; simpl in E.
  - injection E as <-. now split.
  - destruct (complement b) as [c|] eqn:Ec; simpl in E; [|discriminate].
    destruct (complement_all l) as [cs|] eqn:El; simpl in E; [|discriminate].
    injection E as <-. destruct (IH cs eq_refl) as [R L]. split.
    + simpl. apply complement_all_app; [exact R|].
      simpl. now rewrite (complement_involutive _ _ Ec).
    + simpl. now rewrite L.
Qed.

Lemma str_len_chars s : str_len s = List.length (chars s).
Proof.
  unfold str_len, chars. induction s as [|a s IH]; simpl; [reflexivity|now rewrite IH].
Qed.

(** X1.  The reverse complement of a reverse complement is the sequence one
    started from, and the two have the same length. *)
Theorem reverse_complement_involutive dna rc :
  reverse_complement dna = Ok rc ->
  reverse_complement rc = Ok dna /\ str_len rc = str_len dna.
Proof.
  unfold reverse_complement. intro E.
  destruct (complement_all (rev (chars dna))) as [cs|] eqn:Ec; simpl in E; [|discriminate].
  injection E as <-. destruct (complement_all_rev _ _ Ec) as [R L].
  unfold chars at 1. rewrite list_ascii_of_string_of_list_ascii.
  rewrite R. simpl. rewrite rev_involutive. unfold chars.
  rewrite string_of_list_ascii_of_string. split; [reflexivity|].
  rewrite !str_len_chars. unfold chars at 1.
  rewrite list_ascii_of_string_of_list_ascii, L. apply length_rev.
Qed.

Lemma reverse_complement_involutive_witness :
  reverse_complement "TTGCAN" = Ok "NTGCAA" /\ str_len "TTGCAN" = str_len "NTGCAA".
Proof. exact (reverse_complement_involutive "NTGCAA" "TTGCAN" eq_refl). Defined.

Lemma complement_all_defined l :
  (exists r, complement_all l = Ok r) <->
  Forall (fun c => In c ["A"; "C"; "G"; "T"; "N"]%char) l.
Proof.
  induction l as [|b l IH]; simpl.
  - split; [constructor | eexists; reflexivity].
  - split.
    + intros [r E].
      destruct (complement b) as [c|] eqn:Ec; simpl in E; [|discriminate].
      destruct (complement_all l) as [cs|] eqn:El; simpl in E; [|discriminate].
      constructor; [|apply IH; eauto].
      clear - Ec. destruct b as [[] [] [] [] [] [] [] []]; simpl in Ec;
        try discriminate; simpl; tauto.
    + intro F. inversion F as [|? ? Hb Hl]; subst.
      apply IH in Hl. destruct Hl as [cs El]. rewrite El.
      simpl in Hb.
      destruct Hb as [<-|[<-|[<-|[<-|[<-|[]]]]]]; simpl; eexists; reflexivity.
Qed.

Lemma complement_all_error l e : complement_all l = Raise e -> e = KeyError.
Proof.
  induction l as [|b l IH]; simpl; [discriminate|].
  destruct (complement b) as [c|] eqn:Ec; simpl.
  - destruct (complement_all l) as [cs|]; simpl; [discriminate|].
    intros [= <-]. now apply IH.
  - intros [= <-]. clear - Ec.
    destruct b as [[] [] [] [] [] [] [] []]; simpl in Ec;
      try discriminate; now injection Ec as <-.
Qed.

(** X2.  [reverse_complement] returns a string exactly when every character is
    one of A, C, G, T, N (upper case); on any other input it raises
    [KeyError], never anything else. *)
Theorem reverse_complement_alphabet dna :
  ((exists rc, reverse_complement dna = Ok rc) <->
   Forall (fun c => In c ["A"; "C"; "G"; "T"; "N"]%char) (chars dna)) /\
  (forall e, reverse_complement dna = Raise e -> e = KeyError).
Proof.
  unfold reverse_complement. split; [split|].
  - intros [rc E].
    destruct (complement_all (rev (chars dna))) as [cs|] eqn:Ec; simpl in E; [|discriminate].
    assert (F : Forall (fun c => In c ["A"; "C"; "G"; "T"; "N"]%char) (rev (chars dna)))
      by (apply complement_all_defined; eauto).
    rewrite Forall_forall in *. intros c I. apply F. now apply in_rev in I.
  - intro F.
    assert (F' : Forall (fun c => In c ["A"; "C"; "G"; "T"; "N"]%char) (rev (chars dna))).
    { rewrite Forall_forall in *. intros c I. apply F. now apply in_rev. }
    apply complement_all_defined in F'. destruct F' as [cs Ec]. rewrite Ec.
    simpl. eauto.
  - intros e E.
    destruct (complement_all (rev (chars dna))) as [cs|] eqn:Ec; simpl in E; [discriminate|].
    injection E as <-. eapply complement_all_error; eauto.
Qed.

Lemma reverse_complement_alphabet_witness :
  reverse_complement "ACgT" = Raise KeyError.
Proof.
  destruct (reverse_complement "ACgT") as [rc|e] eqn:E.
  - discriminate E.
  - now rewrite (proj2 (reverse_complement_alphabet "ACgT") e E).
Defined.

Lemma split_on_nonempty c s : split_on c s <> [].
Proof.
  destruct s as [|a s]; simpl; [discriminate|].
  destruct (Ascii.eqb a c); [discriminate|].
  destruct (split_on c s); discriminate.
Qed.

Lemma join_cons sep w ws :
  ws <> [] -> join sep (w :: ws) = (w ++ sep ++ join sep ws)%string.
Proof. destruct ws; [contradiction|reflexivity]. Qed.

Lemma join_split c s : join (String c "") (split_on c s) = s.
Proof.
  induction s as [|a s IH]; [reflexivity|]. cbn [split_on].
  destruct (Ascii.eqb a c) eqn:E.
  - apply Ascii.eqb_eq in E. subst a.
    rewrite join_cons by apply split_on_nonempty. rewrite IH. reflexivity.
  - pose proof (split_on_nonempty c s) as N.
    destruct (split_on c s) as [|w ws]; [contradiction|].
    destruct ws as [|w' ws].
    + change (join (String c "") [w]) with w in IH.
      change (join (String c "") [String a w]) with (String a w). now rewrite IH.
    + rewrite join_cons by discriminate. rewrite join_cons in IH by discriminate.
      cbn [append] in *. now rewrite IH.
Qed.

Lemma split_on_word c w : forall rest,
  ~ In c (chars w) ->
  split_on c (w ++ String c rest) = w :: split_on c rest.
Proof.
  induction w as [|a w IH]; intros rest N; simpl.
  - now rewrite Ascii.eqb_refl.
  - simpl in N. destruct (Ascii.eqb a c) eqn:E.
    + apply Ascii.eqb_eq in E. subst a. tauto.
    + rewrite IH by tauto. reflexivity.
Qed.

Lemma split_on_single c w : ~ In c (chars w) -> split_on c w = [w].
Proof.
  induction w as [|a w IH]; intro N; simpl; [reflexivity|].
  simpl in N. destruct (Ascii.eqb a c) eqn:E.
  - apply Ascii.eqb_eq in E. subst a. tauto.
  - rewrite IH by tauto. reflexivity.
Qed.

(** X3.  Splitting a string on a character and joining the pieces with it
    gives the string back; joining a non-empty list of pieces that do not
    contain the character and splitting again gives the list back.  This is
    what takes a gene signature (['-'.join(nodes)]) back to its node list
    ([gene.split('-')]). *)
Theorem signature_round_trip c :
  (forall s, join (String c "") (split_on c s) = s) /\
  (forall l, l <> [] -> Forall (fun w => ~ In c (chars w)) l ->
             split_on c (join (String c "") l) = l).
Proof.
  split; [apply join_split|].
  induction l as [|w l IH]; intros N F; [contradiction|].
  inversion F as [|? ? Hw Hl]; subst.
  destruct l as [|w' l].
  - simpl. now apply split_on_single.
  - rewrite join_cons by discriminate. simpl append.
    rewrite split_on_word by exact Hw. f_equal. apply IH; [discriminate|exact Hl].
Qed.

Lemma signature_round_trip_witness :
  split_on "-"%char (join "-" ["12"; "7"; "30"]) = ["12"; "7"; "30"].
Proof.
  apply (proj2 (signature_round_trip "-"%char)).
  - discriminate.
  - repeat constructor; simpl; intuition discriminate.
Defined.

(** ** Graph builder, continued *)

Section MoreDictFacts.
Context {K V : Type} `{PyKey K}.

Lemma py_in_In (x : K) (l : list K) : py_in x l = true <-> In x l.
Proof.
  unfold py_in. rewrite existsb_exists. split.
  - intros [y [I E]]. apply key_eqb_eq in E. now subst.
  - intro I. exists x. split; [exact I|apply key_eqb_refl].
Qed.

Lemma dict_set_keys (k : K) (v : V) (d : dict K V) :
  dict_keys (dict_set k v d)
  = if dict_mem k d then dict_keys d else dict_keys d ++ [k].
Proof.
  unfold dict_mem, dict_keys. induction d as [|[k' v'] d IH]; simpl; [reflexivity|].
  destruct (key_eqb k k') eqn:E; simpl; [reflexivity|].
  rewrite IH. now destruct (dict_get k d).
Qed.

Lemma dict_get_keys (k : K) (d : dict K V) :
  In k (dict_keys d) <-> exists v, dict_get k d = Some v.
Proof.
  unfold dict_keys. induction d as [|[k' v'] d IH]; simpl.
  - split; [tauto|]. intros [v E]. discriminate.
  - destruct (key_eqb k k') eqn:E.
    + apply key_eqb_eq in E. subst k'. split; [eauto|now left].
    + rewrite <- IH. split; [|tauto].
      intros [E'|I]; [|exact I]. subst k'. now rewrite key_eqb_refl in E.
Qed.

Lemma dict_set_keys_NoDup (k : K) (v : V) (d : dict K V) :
  NoDup (dict_keys d) -> NoDup (dict_keys (dict_set k v d)).
Proof.
  intro N. rewrite dict_set_keys. unfold dict_mem.
  destruct (dict_get k d) as [v0|] eqn:G; [exact N|].
  apply NoDup_app; [exact N|repeat constructor; tauto|].
  intros x I [<-|[]]. apply dict_get_keys in I. destruct I as [v1 G1]. congruence.
Qed.

Lemma dict_In_get (k : K) (v : V) (d : dict K V) :
  NoDup (dict_keys d) -> In (k, v) d -> dict_get k d = Some v.
Proof.
  unfold dict_keys. induction d as [|[k' v'] d IH]; simpl; [tauto|].
  intros N I. inversion N as [|? ? Hk Nd]; subst.
  destruct I as [E|I].
  - injection E as -> ->. now rewrite key_eqb_refl.
  - destruct (key_eqb k k') eqn:E; [|now apply IH].
    apply key_eqb_eq in E. subst k'. exfalso. apply Hk.
    change k with (fst (k, v)). now apply in_map.
Qed.
End MoreDictFacts.

(** Node identifiers are distinct and the graph is well kept. *)
Definition graph_wf (pg : Pangenome) : Prop :=
  NoDup (dict_keys (pg_nodes pg)) /\ graph_ok pg.

Lemma with_node_inv pg key f pg' :
  with_node pg key f = Ok pg' ->
  exists n, dict_get key (pg_nodes pg) = Some n /\
            pg' = mkPangenome (dict_set key (f n) (pg_nodes pg)) (pg_paths pg).
Proof.
  unfold with_node, get_node.
  destruct (dict_get key (pg_nodes pg)) as [n|]; simpl; [|discriminate].
  intros [= <-]. eauto.
Qed.

Lemma with_node_wf pg key f pg' :
  graph_wf pg -> with_node pg key f = Ok pg' ->
  (forall n, dict_get key (pg_nodes pg) = Some n -> NoDup (node_next n) ->
             node_ID (f n) = node_ID n /\ NoDup (node_next (f n))) ->
  graph_wf pg'.
Proof.
  intros [Nk Hok] E Hf. apply with_node_inv in E. destruct E as [n [G ->]].
  split; simpl.
  - now apply dict_set_keys_NoDup.
  - intros k m I. simpl in I. apply dict_set_In in I.
    destruct I as [[-> ->]|I]; [|now apply Hok].
    destruct (Hok key n (dict_get_In _ _ _ G)) as [Hid Hnd].
    destruct (Hf n G Hnd) as [Hid' Hnd']. split; [congruence|exact Hnd'].
Qed.

Lemma path_step_wf path_id st item st' :
  graph_wf (fst (fst st)) -> path_step path_id st item = Ok st' ->
  graph_wf (fst (fst st')).
Proof.
  destruct st as [[pg nds] pseq], item as [idx node_info]. simpl.
  intros W E. unfold path_step in E.
  destruct (last_char node_info) as [ori|]; simpl in E; [|discriminate].
  destruct (get_node pg (rstrip ori node_info)) as [node|]; simpl in E; [|discriminate].
  destruct (edit_node pg "add_path" (rstrip ori node_info) (PathOcc path_id (idx, ori)))
    as [pg1|] eqn:Ee; simpl in E; [|discriminate].
  assert (W1 : graph_wf pg1).
  { change (with_node pg (rstrip ori node_info) (cross path_id (idx, ori)) = Ok pg1) in Ee.
    eapply with_node_wf; [exact W|exact Ee|]. intros n _ Hn. now split. }
  destruct (Ascii.eqb ori "+").
  - now injection E as <-.
  - destruct (reverse_complement (node_sequence node)); simpl in E; [|discriminate].
    now injection E as <-.
Qed.

Lemma link_step_wf pg line pg' :
  graph_wf pg -> link_step pg line = Ok pg' -> graph_wf pg'.
Proof.
  intros W E. unfold link_step in E.
  destruct (field line 1) as [id1|]; simpl in E; [|discriminate].
  destruct (get_node pg id1) as [node1|] eqn:G1; simpl in E; [|discriminate].
  destruct (field line 3) as [id2|]; simpl in E; [|discriminate].
  destruct (get_node pg id2) as [node2|]; simpl in E; [|discriminate].
  match type of E with
  | bind ?c _ = _ => destruct c as [pg1|] eqn:E1; simpl in E; [|discriminate]
  end.
  assert (W1 : graph_wf pg1).
  { destruct (negb (py_in (node_ID node2) (node_next node1))) eqn:Ng.
    - change (with_node pg (node_ID node1) (push_next (node_ID node2)) = Ok pg1) in E1.
      eapply with_node_wf; [exact W|exact E1|]. intros n Gn Hn. split; [reflexivity|].
      assert (n = node1).
      { unfold get_node in G1.
        destruct (dict_get id1 (pg_nodes pg)) as [m|] eqn:Gm; simpl in G1; [|discriminate].
        injection G1 as ->.
        destruct W as [_ Hok]. destruct (Hok _ _ (dict_get_In _ _ _ Gm)) as [Hid _].
        rewrite Hid in Gn. congruence. }
      subst n. simpl. apply NoDup_app; [exact Hn|repeat constructor; tauto|].
      intros x I [<-|[]]. apply negb_true_iff in Ng.
      apply py_in_In in I. congruence.
    - now injection E1 as <-. }
  destruct (negb (py_in (node_ID node1) (node_previous node2))).
  - rewrite edit_node_add_prev in E. now injection E as <-.
  - now injection E as <-.
Qed.

Lemma parse_line_wf pg line pg' :
  graph_wf pg -> parse_line pg line = Ok pg' -> graph_wf pg'.
Proof.
  intros W E. unfold parse_line in E.
  destruct (field line 0) as [tag|]; simpl in E; [|discriminate].
  destruct (tag =? "S")%string.
  { destruct (field line 1) as [ID|]; simpl in E; [|discriminate].
    destruct (field line 2) as [sq|]; simpl in E; [|discriminate].
    injection E as <-. destruct W as [Nk Hok]. split; simpl.
    - now apply dict_set_keys_NoDup.
    - intros k n I. simpl in I. apply dict_set_In in I.
      destruct I as [[-> ->]|I]; [split; [reflexivity|constructor]|now apply Hok]. }
  destruct (tag =? "P")%string.
  { destruct (field line 1) as [path_id|]; simpl in E; [|discriminate].
    destruct (field line 2) as [walk|]; simpl in E; [|discriminate].
    match type of E with
    | bind ?c _ = _ => destruct c as [[[pg1 nds] pseq]|] eqn:E1; simpl in E; [|discriminate]
    end.
    injection E as <-.
    apply (for_each_inv (fun st => graph_wf (fst (fst st)))) in E1; auto.
    intros st x st' _. apply path_step_wf. }
  destruct (tag =? "L")%string.
  { eapply link_step_wf; eauto. }
  now injection E as <-.
Qed.

Lemma parse_graph_wf lines pg : parse_graph lines = Ok pg -> graph_wf pg.
Proof.
  unfold parse_graph. intro E.
  apply (for_each_inv graph_wf) in E; auto.
  - intros st x st' _. apply parse_line_wf.
  - split; [constructor|intros k n []].
Qed.

(** X4.  In every graph that [parse_graph] builds, a node fetched by an
    identifier carries that identifier, lists no successor twice, and has an
    empty list of predecessors. *)
Theorem built_graph_nodes lines pg id n :
  parse_graph lines = Ok pg -> get_node pg id = Ok n ->
  node_ID n = id /\ NoDup (node_next n) /\ node_previous n = [].
Proof.
  intros E G. unfold get_node in G.
  destruct (dict_get id (pg_nodes pg)) as [m|] eqn:Gm; simpl in G; [|discriminate].
  injection G as ->. apply dict_get_In in Gm.
  destruct (parse_graph_wf _ _ E) as [_ Hok]. destruct (Hok _ _ Gm) as [Hid Hn].
  repeat split; auto. exact (parse_graph_previous_empty _ _ E _ _ Gm).
Qed.

Lemma built_graph_nodes_witness :
  node_ID (mkNode "1" "ACGT" [] [] ["2"]) = "1" /\
  NoDup (node_next (mkNode "1" "ACGT" [] [] ["2"])) /\
  node_previous (mkNode "1" "ACGT" [] [] ["2"]) = [].
Proof.
  apply (built_graph_nodes ex_gfa_link
           (mkPangenome [("1", mkNode "1" "ACGT" [] [] ["2"]);
                         ("2", mkNode "2" "GG" [] [] [])] [])).
  - vm_compute. reflexivity.
  - vm_compute. reflexivity.
Defined.

(** X5.  After a link record is read on a built graph, the second node of the
    record is among the successors of the first. *)
Theorem link_adds_successor lines pg line pg' id1 id2 :
  parse_graph lines = Ok pg ->
  field line 1 = Ok id1 -> field line 3 = Ok id2 ->
  link_step pg line = Ok pg' ->
  exists n1, get_node pg' id1 = Ok n1 /\ In id2 (node_next n1).
Proof.
  intros Eg F1 F3 E. destruct (parse_graph_wf _ _ Eg) as [Nk Hok].
  unfold link_step in E. rewrite F1, F3 in E. simpl in E.
  destruct (get_node pg id1) as [node1|] eqn:G1; simpl in E; [|discriminate].
  destruct (get_node pg id2) as [node2|] eqn:G2; simpl in E; [|discriminate].
  assert (I1 : node_ID node1 = id1 /\ dict_get id1 (pg_nodes pg) = Some node1).
  { unfold get_node in G1.
    destruct (dict_get id1 (pg_nodes pg)) as [m|] eqn:Gm; simpl in G1; [|discriminate].
    injection G1 as ->. split; [|reflexivity]. now apply (Hok _ _ (dict_get_In _ _ _ Gm)). }
  assert (I2 : node_ID node2 = id2).
  { unfold get_node in G2.
    destruct (dict_get id2 (pg_nodes pg)) as [m|] eqn:Gm; simpl in G2; [|discriminate].
    injection G2 as ->. now apply (Hok _ _ (dict_get_In _ _ _ Gm)). }
  destruct I1 as [I1 Gd]. rewrite I1, I2 in E.
  match type of E with
  | bind ?c _ = _ => destruct c as [pg1|] eqn:E1; simpl in E; [|discriminate]
  end.
  assert (R : pg' = pg1).
  { destruct (negb (py_in id1 (node_previous node2))).
    - rewrite edit_node_add_prev in E. now injection E as <-.
    - now injection E as <-. }
  subst pg'.
  destruct (negb (py_in id2 (node_next node1))) eqn:Ng.
  - change (with_node pg id1 (push_next id2) = Ok pg1) in E1.
    apply with_node_inv in E1. destruct E1 as [n [Gn ->]].
    rewrite Gd in Gn. injection Gn as <-.
    exists (push_next id2 node1). split.
    + unfold get_node. simpl. now rewrite dict_get_set_same.
    + simpl. apply in_or_app. right. now left.
  - injection E1 as <-. exists node1. split; [exact G1|].
    apply negb_false_iff in Ng. now apply py_in_In in Ng.
Qed.

Lemma link_adds_successor_witness :
  exists n1,
    get_node (mkPangenome [("1", mkNode "1" "ACGT" [] [] ["2"]);
                           ("2", mkNode "2" "GG" [] [] [])] []) "1" = Ok n1 /\
    In "2" (node_next n1).
Proof.
  apply (link_adds_successor
           [["S"; "1"; "ACGT"]; ["S"; "2"; "GG"]]
           (mkPangenome [("1", new_Node "1" "ACGT"); ("2", new_Node "2" "GG")] [])
           ["L"; "1"; "+"; "2"; "+"; "0M"]).
  - vm_compute. reflexivity.
  - reflexivity.
  - reflexivity.
  - vm_compute. reflexivity.
Defined.

Lemma str_len_app a b : str_len (a ++ b)%string = str_len a + str_len b.
Proof. unfold str_len. induction a as [|c a IH]; simpl; [reflexivity|now rewrite IH]. Qed.

Lemma reverse_complement_length dna rc :
  reverse_complement dna = Ok rc -> str_len rc = str_len dna.
Proof.
  unfold reverse_complement. intro E.
  destruct (complement_all (rev (chars dna))) as [cs|] eqn:Ec; simpl in E; [|discriminate].
  injection E as <-. destruct (complement_all_rev _ _ Ec) as [_ L].
  rewrite !str_len_chars. unfold chars at 1.
  rewrite list_ascii_of_string_of_list_ascii, L. apply length_rev.
Qed.

(** One step of a path walk: the state keeps the graph well formed, the node
    list grows by the node read, which gets the occurrence with the strand of
    the item, and the sequence grows by the length of that node. *)
Lemma path_step_crossed pid pg done nds pseq info pg1 nds1 pseq1 :
  graph_wf pg -> crossed pg pid done nds ->
  str_len pseq = list_sum (map (seq_len_of pg) nds) ->
  path_step pid (pg, nds, pseq) (List.length nds, info) = Ok (pg1, nds1, pseq1) ->
  graph_wf pg1 /\ crossed pg1 pid (done ++ [info]) nds1 /\
  str_len pseq1 = list_sum (map (seq_len_of pg1) nds1).
Proof.
  intros W [Ld C] L E.
  assert (W1 : graph_wf pg1)
    by exact (path_step_wf pid (pg, nds, pseq) (List.length nds, info) _ W E).
  unfold path_step in E.
  destruct (last_char info) as [ori|] eqn:Eo; simpl in E; [|discriminate].
  set (nid := rstrip ori info) in *.
  destruct (get_node pg nid) as [node|] eqn:G; simpl in E; [|discriminate].
  change (edit_node pg "add_path" nid (PathOcc pid (List.length nds, ori)))
    with (with_node pg nid (cross pid (List.length nds, ori))) in E.
  destruct (with_node pg nid (cross pid (List.length nds, ori))) as [pg2|] eqn:Ew;
    simpl in E; [|discriminate].
  destruct (with_node_inv _ _ _ _ Ew) as [n [Gn Epg]].
  assert (Hn : n = node /\ node_ID node = nid).
  { unfold get_node in G. rewrite Gn in G. simpl in G. injection G as <-.
    split; [reflexivity|]. destruct W as [_ Hok].
    now apply (Hok _ _ (dict_get_In _ _ _ Gn)). }
  destruct Hn as [-> Hid].
  assert (Get2 : forall k, get_node pg2 k =
                   if (k =? nid)%string then Ok (cross pid (List.length nds, ori) node)
                   else get_node pg k).
  { intro k. subst pg2. unfold get_node. simpl.
    destruct (k =? nid)%string eqn:Ek.
    - apply String.eqb_eq in Ek. subst k. now rewrite dict_get_set_same.
    - apply String.eqb_neq in Ek. now rewrite dict_get_set_other. }
  assert (Len2 : forall k, seq_len_of pg2 k = seq_len_of pg k).
  { intro k. unfold seq_len_of. rewrite Get2.
    destruct (k =? nid)%string eqn:Ek; [|reflexivity].
    apply String.eqb_eq in Ek. subst k. now rewrite G. }
  assert (C2 : crossed pg2 pid (done ++ [info]) (nds ++ [nid])).
  { split; [rewrite !length_app; simpl; lia|].
    intros i info0 Ei.
    destruct (Nat.lt_ge_cases i (List.length done)) as [Lt|Ge].
    - rewrite nth_error_app1 in Ei by exact Lt.
      destruct (C i info0 Ei) as [o [m [occ [Lo [En [Gm [Go Io]]]]]]].
      exists o. rewrite Get2.
      destruct (rstrip o info0 =? nid)%string eqn:Ek.
      + apply String.eqb_eq in Ek. rewrite Ek in Gm. rewrite G in Gm. injection Gm as <-.
        eexists. exists (occ ++ [(List.length nds, ori)]).
        split; [exact Lo|]. split; [rewrite nth_error_app1 by lia; exact En|].
        split; [reflexivity|]. split; [|apply in_or_app; now left].
        simpl. rewrite Go. simpl. apply dict_get_set_same.
      + exists m, occ. split; [exact Lo|].
        split; [rewrite nth_error_app1 by lia; exact En|]. now split.
    - rewrite nth_error_app2 in Ei by exact Ge.
      destruct (i - List.length done) as [|d] eqn:Ed; simpl in Ei;
        [|destruct d; discriminate].
      injection Ei as <-.
      assert (i = List.length nds) by lia. subst i.
      exists ori. rewrite Get2. fold nid. rewrite String.eqb_refl.
      eexists. eexists. split; [exact Eo|].
      split; [rewrite nth_error_app2 by lia; now rewrite Nat.sub_diag|].
      split; [reflexivity|].
      split; [simpl; apply dict_get_set_same|].
      apply in_or_app. right. now left. }
  assert (Sum : forall s, str_len s = seq_len_of pg nid ->
                  str_len (pseq ++ s)%string
                  = list_sum (map (seq_len_of pg2) (nds ++ [nid]))).
  { intros s Hs. rewrite str_len_app, map_app, list_sum_app. simpl.
    rewrite Len2, Hs, Nat.add_0_r. f_equal. rewrite L.
    f_equal. apply map_ext. intro k. now rewrite Len2. }
  assert (Own : seq_len_of pg nid = str_len (node_sequence node))
    by (unfold seq_len_of; now rewrite G).
  destruct (Ascii.eqb ori "+").
  - injection E as <- <- <-. rewrite Hid.
    split; [exact W1|]. split; [exact C2|].
    apply Sum. now rewrite Own.
  - destruct (reverse_complement (node_sequence node)) as [rc|] eqn:Er; simpl in E;
      [|discriminate].
    injection E as <- <- <-. rewrite Hid.
    split; [exact W1|]. split; [exact C2|].
    apply Sum. rewrite Own. now apply reverse_complement_length.
Qed.

Lemma path_walk_crossed pid : forall items pg done nds pseq pg1 nds1 pseq1,
  graph_wf pg -> crossed pg pid done nds ->
  str_len pseq = list_sum (map (seq_len_of pg) nds) ->
  for_each (path_step pid)
           (combine (seq (List.length nds) (List.length items)) items) (pg, nds, pseq)
  = Ok (pg1, nds1, pseq1) ->
  graph_wf pg1 /\ crossed pg1 pid (done ++ items) nds1 /\
  str_len pseq1 = list_sum (map (seq_len_of pg1) nds1).
Proof.
  induction items as [|info items IH]; intros pg done nds pseq pg1 nds1 pseq1 W C L E.
  - simpl in E. injection E as <- <- <-. rewrite app_nil_r.
    split; [exact W|]. split; [exact C|exact L].
  - cbn [List.length seq combine for_each] in E.
    destruct (path_step pid (pg, nds, pseq) (List.length nds, info))
      as [[[pg2 nds2] pseq2]|] eqn:Es; simpl in E; [|discriminate].
    destruct (path_step_crossed _ _ _ _ _ _ _ _ _ W C L Es) as [W2 [C2 S2]].
    assert (L2 : List.length nds2 = S (List.length nds)).
    { destruct C as [Ld _]. destruct C2 as [Ld2 _].
      rewrite Ld2, length_app, Ld. simpl. lia. }
    rewrite <- L2 in E.
    destruct (IH _ _ _ _ _ _ _ W2 C2 S2 E) as [W3 [C3 S3]].
    split; [exact W3|]. split; [|exact S3].
    now rewrite <- app_assoc in C3.
Qed.

(** X6.  After a path record is read on a built graph, the path is stored
    under its identifier with one node per item of the walk, the node the
    item names; the node of item [i] records [(i, sign)] under the path, with
    the strand sign the item ends with; and the path sequence is as long as
    the sequences of its nodes together. *)
Theorem path_record_registered lines pg pid walk rest pg' :
  parse_graph lines = Ok pg ->
  parse_line pg ("P" :: pid :: walk :: rest) = Ok pg' ->
  exists p,
    get_path pg' pid = Ok p /\
    crossed pg' pid (split_on ","%char walk) (path_nodes p) /\
    str_len (path_sequence p) = list_sum (map (seq_len_of pg') (path_nodes p)).
Proof.
  intros Eg E. pose proof (parse_graph_wf _ _ Eg) as W.
  unfold parse_line in E. cbn [field nth_error of_option bind] in E.
  change ("P" =? "S")%string with false in E.
  change ("P" =? "P")%string with true in E. cbv iota in E.
  unfold enumerate in E.
  match type of E with
  | bind ?c _ = _ => destruct c as [[[pg1 nds] pseq]|] eqn:E1; simpl in E; [|discriminate]
  end.
  injection E as <-.
  destruct (path_walk_crossed pid (split_on ","%char walk) pg [] [] "" pg1 nds pseq) as
    [W1 [C1 S1]]; auto.
  { split; [reflexivity|]. intros i info Ei. destruct i; discriminate. }
  exists (mkPath pid nds pseq). split; [|split].
  - unfold get_path, add_path. simpl. now rewrite dict_get_set_same.
  - exact C1.
  - exact S1.
Qed.

Lemma path_record_registered_witness :
  exists p,
    get_path ex_pg_rev "p3" = Ok p /\
    crossed ex_pg_rev "p3" (split_on ","%char "2-,1+") (path_nodes p) /\
    str_len (path_sequence p) = list_sum (map (seq_len_of ex_pg_rev) (path_nodes p)).
Proof.
  apply (path_record_registered ex_gfa ex_pg "p3" "2-,1+" ["*"]).
  - vm_compute. reflexivity.
  - vm_compute. reflexivity.
Defined.

(** ** Edges of the graph *)

Lemma edge_eqb_swap a b f : edge_eqb (a, b) f = edge_eqb (b, a) f.
Proof.
  unfold edge_eqb. simpl.
  destruct (a =? fst f)%string, (b =? snd f)%string, (a =? snd f)%string,
    (b =? fst f)%string; reflexivity.
Qed.

Lemma edge_eqb_sym e f : edge_eqb e f = edge_eqb f e.
Proof.
  unfold edge_eqb.
  rewrite (String.eqb_sym (fst e) (fst f)), (String.eqb_sym (snd e) (snd f)),
    (String.eqb_sym (fst e) (snd f)), (String.eqb_sym (snd e) (fst f)).
  destruct (fst f =? fst e)%string, (snd f =? snd e)%string,
    (snd f =? fst e)%string, (fst f =? snd e)%string; reflexivity.
Qed.

Lemma edge_eqb_refl e : edge_eqb e e = true.
Proof. unfold edge_eqb. now rewrite !String.eqb_refl. Qed.

Lemma edges_distinct_snoc l e :
  edges_distinct (l ++ [e]) = edges_distinct l && negb (existsb (edge_eqb e) l).
Proof.
  induction l as [|f l IH]; simpl.
  - reflexivity.
  - rewrite IH, existsb_app. simpl. rewrite (edge_eqb_sym e f).
    destruct (existsb (edge_eqb f) l), (edge_eqb f e), (edges_distinct l),
      (existsb (edge_eqb e) l); reflexivity.
Qed.

Lemma existsb_edge_swap a b l :
  existsb (edge_eqb (a, b)) l = existsb (edge_eqb (b, a)) l.
Proof.
  induction l as [|f l IH]; simpl; [reflexivity|].
  now rewrite IH, (edge_eqb_swap a b f).
Qed.

(** One neighbour: the list stays free of repeated edges, keeps what it
    covered, covers the new edge, and gains at most that edge. *)
Lemma edge_step_spec id l nb :
  edges_distinct l = true ->
  edges_distinct (edge_step id l nb) = true /\
  existsb (edge_eqb (id, nb)) (edge_step id l nb) = true /\
  (forall e, existsb (edge_eqb e) l = true ->
             existsb (edge_eqb e) (edge_step id l nb) = true) /\
  (forall e, In e (edge_step id l nb) -> In e l \/ e = (id, nb)).
Proof.
  intro D. unfold edge_step.
  destruct (existsb (edge_eqb (nb, id)) l) eqn:X.
  - split; [exact D|]. split; [now rewrite existsb_edge_swap|]. split; auto.
  - split; [|split; [|split]].
    + rewrite edges_distinct_snoc, D. simpl.
      now rewrite existsb_edge_swap, X.
    + rewrite existsb_app. simpl. rewrite edge_eqb_refl. apply orb_true_r.
    + intros e C. rewrite existsb_app, C. reflexivity.
    + intros e I. apply in_app_or in I. destruct I as [I|[<-|[]]]; auto.
Qed.

Lemma edge_steps_spec id nbs : forall l,
  edges_distinct l = true ->
  edges_distinct (fold_left (edge_step id) nbs l) = true /\
  (forall nb, In nb nbs ->
              existsb (edge_eqb (id, nb)) (fold_left (edge_step id) nbs l) = true) /\
  (forall e, existsb (edge_eqb e) l = true ->
             existsb (edge_eqb e) (fold_left (edge_step id) nbs l) = true) /\
  (forall e, In e (fold_left (edge_step id) nbs l) ->
             In e l \/ exists nb, In nb nbs /\ e = (id, nb)).
Proof.
  induction nbs as [|nb nbs IH]; intros l D; simpl.
  - split; [exact D|]. split; [intros nb []|]. split; auto.
  - destruct (edge_step_spec id l nb D) as [D1 [C1 [M1 S1]]].
    destruct (IH _ D1) as [D2 [C2 [M2 S2]]].
    split; [exact D2|]. split; [|split].
    + intros x [<-|I]; [now apply M2|now apply C2].
    + intros e C. apply M2. now apply M1.
    + intros e I. destruct (S2 e I) as [I1|[x [Ix ->]]].
      * destruct (S1 e I1) as [I0| ->]; [now left|]. right. exists nb. split; [now left|reflexivity].
      * right. exists x. split; [now right|reflexivity].
Qed.

Lemma generate_edges_spec nds : forall l,
  edges_distinct l = true ->
  let out :=
    fold_left
      (fun edges kv =>
         fold_left (edge_step (fst kv)) (node_next (snd kv))
                   (fold_left (edge_step (fst kv)) (node_previous (snd kv)) edges))
      nds l in
  edges_distinct out = true /\
  (forall k n v, In (k, n) nds -> In v (node_previous n ++ node_next n) ->
                 existsb (edge_eqb (k, v)) out = true) /\
  (forall e, existsb (edge_eqb e) l = true -> existsb (edge_eqb e) out = true) /\
  (forall e, In e out ->
             In e l \/ exists n, In (fst e, n) nds /\
                                 In (snd e) (node_previous n ++ node_next n)).
Proof.
  induction nds as [|[k n] nds IH]; intros l D; cbn [fold_left fst snd].
  - split; [exact D|]. split; [intros ? ? ? []|]. split; auto.
  - destruct (edge_steps_spec k (node_previous n) l D) as [D1 [C1 [M1 S1]]].
    destruct (edge_steps_spec k (node_next n) _ D1) as [D2 [C2 [M2 S2]]].
    destruct (IH _ D2) as [D3 [C3 [M3 S3]]]. cbv zeta in *.
    split; [exact D3|]. split; [|split].
    + intros k' n' v [E|I] Iv.
      * injection E as <- <-. apply M3. apply in_app_or in Iv.
        destruct Iv as [Iv|Iv]; [apply M2; now apply C1|now apply C2].
      * eapply C3; eauto.
    + intros e C. apply M3, M2, M1, C.
    + intros e I. destruct (S3 e I) as [I2|[m [Im Iv]]].
      * destruct (S2 e I2) as [I1|[x [Ix ->]]].
        -- destruct (S1 e I1) as [I0|[x [Ix ->]]]; [now left|].
           right. exists n. split; [now left|]. apply in_or_app. now left.
        -- right. exists n. split; [now left|]. apply in_or_app. now right.
      * right. exists m. split; [now right|exact Iv].
Qed.

(** X7.  [edges()] lists no edge twice, in either direction; it has an edge
    for every successor or predecessor recorded in a node; and each of its
    edges comes from such a record. *)
Theorem edges_spec pg :
  edges_distinct (edges pg) = true /\
  (forall k n v,
     In (k, n) (pg_nodes pg) -> In v (node_previous n ++ node_next n) ->
     existsb (edge_eqb (k, v)) (edges pg) = true) /\
  (forall e,
     In e (edges pg) ->
     exists n, In (fst e, n) (pg_nodes pg) /\
               In (snd e) (node_previous n ++ node_next n)).
Proof.
  destruct (generate_edges_spec (pg_nodes pg) [] eq_refl) as [D [C [_ S]]].
  cbv zeta in *. split; [exact D|]. split; [exact C|].
  intros e I. destruct (S e I) as [[]|H]. exact H.
Qed.

Lemma edges_spec_witness :
  existsb (edge_eqb ("2", "1")) (edges ex_pg) = true.
Proof.
  rewrite existsb_edge_swap.
  apply (proj1 (proj2 (edges_spec ex_pg)) "1"
           (mkNode "1" "ACGTACGTAC" [("p1", [(0, "+"%char)])] [] ["2"]) "2").
  - vm_compute. left. reflexivity.
  - simpl. left. reflexivity.
Defined.

(** ** Gene identity index, continued *)

Lemma gene_step_member pg d c done :
  (exists p, get_path pg c = Ok p) ->
  (forall x, In x done -> in_some_gene pg d x) ->
  exists d', gene_step pg d c = Ok d' /\
             forall x, In x (c :: done) -> in_some_gene pg d' x.
Proof.
  intros [p Gp] Inv. unfold gene_step. rewrite Gp. cbn [bind].
  assert (Keep : forall sig members d',
            d' = dict_set sig (members ++ [c]) d ->
            (dict_get sig d = Some members \/ dict_get sig d = None) ->
            forall x, In x done -> in_some_gene pg d' x).
  { intros sig members d' -> Hs x Ix.
    destruct (Inv x Ix) as [q [s [ms [Gq [Gs [Im Hq]]]]]].
    destruct (String.eqb_spec s sig) as [->|Ne].
    - exists q, sig, (members ++ [c]). rewrite dict_get_set_same.
      repeat split; auto. destruct Hs as [Hs|Hs]; rewrite Hs in Gs; [|discriminate].
      injection Gs as <-. apply in_or_app. now left.
    - exists q, s, ms. rewrite dict_get_set_other by exact Ne. auto. }
  assert (New : forall sig members,
            (sig = join "-" (path_nodes p) \/ sig = join "-" (rev (path_nodes p))) ->
            in_some_gene pg (dict_set sig (members ++ [c]) d) c).
  { intros sig members Hs. exists p, sig, (members ++ [c]).
    rewrite dict_get_set_same. repeat split; auto. apply in_or_app. right. now left. }
  destruct (dict_get (join "-" (path_nodes p)) d) as [members|] eqn:F.
  - eexists. split; [reflexivity|]. intros x [<-|Ix]; [apply New; auto|].
    eapply Keep; eauto.
  - destruct (dict_get (join "-" (rev (path_nodes p))) d) as [members|] eqn:R.
    + eexists. split; [reflexivity|]. intros x [<-|Ix]; [apply New; auto|].
      eapply Keep; eauto.
    + eexists. split; [reflexivity|]. intros x [<-|Ix].
      * apply (New _ []). auto.
      * apply (Keep (join "-" (rev (path_nodes p))) [] _ eq_refl); auto.
Qed.

Lemma gene_steps_member pg : forall l d done,
  (forall c, In c l -> exists p, get_path pg c = Ok p) ->
  (forall x, In x done -> in_some_gene pg d x) ->
  exists d', for_each (gene_step pg) l d = Ok d' /\
             forall x, In x l \/ In x done -> in_some_gene pg d' x.
Proof.
  induction l as [|c l IH]; intros d done Hl Inv; simpl.
  - exists d. split; [reflexivity|]. intros x [[]|Ix]. now apply Inv.
  - destruct (gene_step_member pg d c done) as [d1 [E1 Inv1]]; auto.
    { apply Hl. now left. }
    rewrite E1. cbn [bind].
    destruct (IH d1 (c :: done)) as [d2 [E2 Inv2]]; auto.
    { intros x Ix. apply Hl. now right. }
    exists d2. split; [exact E2|]. intros x [[<-|Ix]|Ix]; apply Inv2.
    + right. now left.
    + now left.
    + right. now right.
Qed.

Lemma every_path_in_a_gene_aux pg :
  exists d_genes,
    build_genes pg = Ok d_genes /\
    forall c, In c (paths pg) -> in_some_gene pg d_genes c.
Proof.
  destruct (gene_steps_member pg (paths pg) [] []) as [d [E Inv]].
  - intros c I. unfold paths in I. apply dict_get_keys in I. destruct I as [p G].
    exists p. unfold get_path. now rewrite G.
  - intros x [].
  - exists d. split; [exact E|]. intros c I. apply Inv. now left.
Qed.

(** X8.  Building the gene dictionary never fails, and every path of the graph
    ends up as a member of a gene whose key is the path's node list joined by
    hyphens, forward or reversed. *)
Theorem every_path_in_a_gene pg :
  exists d_genes,
    build_genes pg = Ok d_genes /\
    forall c, In c (paths pg) -> in_some_gene pg d_genes c.
Proof. apply every_path_in_a_gene_aux. Qed.

Lemma every_path_in_a_gene_witness :
  exists d_genes,
    build_genes ex_pg = Ok d_genes /\ in_some_gene ex_pg d_genes "p2".
Proof.
  destruct (every_path_in_a_gene ex_pg) as [d [E H]].
  exists d. split; [exact E|]. apply H. vm_compute. right. left. reflexivity.
Defined.

(** Tagging the members of each list of a table, the later lists winning:
    the shape shared by the two loops that fill [d_idt]. *)
Section Tagging.
Variable tag : string -> dict string Identity -> string -> dict string Identity.
Variable proj : Identity -> option string.
Hypothesis tag_proj : forall i acc j j',
  proj (idt_of (tag i acc j) j')
  = if (j' =? j)%string then Some i else proj (idt_of acc j').

Lemma tag_members i : forall ms acc j,
  (proj (idt_of (fold_left (tag i) ms acc) j) = proj (idt_of acc j) /\ ~ In j ms) \/
  (In j ms /\ proj (idt_of (fold_left (tag i) ms acc) j) = Some i).
Proof.
  induction ms as [|m ms IH]; intros acc j; simpl.
  - left. split; [reflexivity|tauto].
  - destruct (IH (tag i acc m) j) as [[E N]|[I E]].
    + rewrite tag_proj in E. destruct (j =? m)%string eqn:Ejm.
      * apply String.eqb_eq in Ejm. right. split; [now left|exact E].
      * apply String.eqb_neq in Ejm. left. split; [exact E|].
        intros [Em|I]; [now symmetry in Em|tauto].
    + right. split; [now right|exact E].
Qed.

Lemma tag_table : forall (l : dict string (list string)) acc j,
  let out := fold_left (fun a kv => fold_left (tag (fst kv)) (snd kv) a) l acc in
  (proj (idt_of out j) = proj (idt_of acc j) /\
   forall i ms, In (i, ms) l -> ~ In j ms) \/
  (exists i ms, In (i, ms) l /\ In j ms /\ proj (idt_of out j) = Some i).
Proof.
  induction l as [|[i ms] l IH]; intros acc j; cbn [fold_left fst snd].
  - left. split; [reflexivity|]. intros ? ? [].
  - destruct (IH (fold_left (tag i) ms acc) j) as [[E N]|[i' [ms' [I [Ij E]]]]].
    + destruct (tag_members i ms acc j) as [[E' N']|[I' E']].
      * left. split; [cbv zeta in *; congruence|].
        intros i0 ms0 [[= <- <-]|I0]; [exact N'|eauto].
      * right. exists i, ms. split; [now left|]. split; [exact I'|].
        cbv zeta in *. congruence.
    + right. exists i', ms'. split; [now right|]. split; [exact Ij|exact E].
Qed.
End Tagging.

Lemma idt_of_set d j v j' :
  idt_of (dict_set j v d) j' = if (j' =? j)%string then v else idt_of d j'.
Proof.
  unfold idt_of. destruct (String.eqb_spec j' j) as [->|Ne].
  - now rewrite dict_get_set_same.
  - now rewrite dict_get_set_other.
Qed.

Lemma set_genes_genes i acc j j' :
  idt_genes (idt_of (set_genes i acc j) j')
  = if (j' =? j)%string then Some i else idt_genes (idt_of acc j').
Proof. unfold set_genes. rewrite idt_of_set. now destruct (j' =? j)%string. Qed.

Lemma set_cluster_cluster i acc j j' :
  idt_cluster (idt_of (set_cluster i acc j) j')
  = if (j' =? j)%string then Some i else idt_cluster (idt_of acc j').
Proof. unfold set_cluster. rewrite idt_of_set. now destruct (j' =? j)%string. Qed.

Lemma set_genes_cluster i acc j j' :
  idt_cluster (idt_of (set_genes i acc j) j') = idt_cluster (idt_of acc j').
Proof.
  unfold set_genes. rewrite idt_of_set.
  destruct (String.eqb_spec j' j) as [->|Ne]; reflexivity.
Qed.

Lemma set_cluster_genes i acc j j' :
  idt_genes (idt_of (set_cluster i acc j) j') = idt_genes (idt_of acc j').
Proof.
  unfold set_cluster. rewrite idt_of_set.
  destruct (String.eqb_spec j' j) as [->|Ne]; reflexivity.
Qed.

(** A loop that leaves one field alone. *)
Lemma untouched_table (tag : string -> dict string Identity -> string -> dict string Identity)
  (proj : Identity -> option string) :
  (forall i acc j j', proj (idt_of (tag i acc j) j') = proj (idt_of acc j')) ->
  forall (l : dict string (list string)) acc j,
    proj (idt_of (fold_left (fun a kv => fold_left (tag (fst kv)) (snd kv) a) l acc) j)
    = proj (idt_of acc j).
Proof.
  intros Hp. induction l as [|[i ms] l IH]; intros acc j; cbn [fold_left fst snd].
  - reflexivity.
  - rewrite IH. clear IH. revert acc. induction ms as [|m ms IHm]; intro acc; simpl.
    + reflexivity.
    + now rewrite IHm, Hp.
Qed.

(** X9.  In the identity table, the gene of a path is the key of a gene that
    lists the path, and every path of the graph has one; the cluster of a
    path is a cluster whose list names it, and a path named by no cluster has
    no cluster entry. *)
Theorem identity_table pg d_clusters :
  exists d_genes d_idt,
    generate_clusters_dict pg d_clusters = Ok (d_clusters, d_genes, d_idt) /\
    (forall j sig, idt_genes (idt_of d_idt j) = Some sig ->
                   exists members, In (sig, members) d_genes /\ In j members) /\
    (forall c, In c (paths pg) -> idt_genes (idt_of d_idt c) <> None) /\
    (forall j i, idt_cluster (idt_of d_idt j) = Some i ->
                 exists genes_list, In (i, genes_list) d_clusters /\ In j genes_list) /\
    (forall j, (forall i genes_list, In (i, genes_list) d_clusters -> ~ In j genes_list) ->
               idt_cluster (idt_of d_idt j) = None).
Proof.
  destruct (every_path_in_a_gene_aux pg) as [d_genes [E Hm]].
  exists d_genes, (build_idt d_clusters d_genes).
  unfold generate_clusters_dict. rewrite E. cbn [bind].
  split; [reflexivity|]. unfold build_idt.
  set (with_genes := fold_left (fun acc kv => fold_left (set_genes (fst kv)) (snd kv) acc)
                               d_genes []).
  assert (G : forall j,
    idt_genes (idt_of (fold_left (fun acc kv => fold_left (set_cluster (fst kv)) (snd kv) acc)
                                 d_clusters with_genes) j)
    = idt_genes (idt_of with_genes j))
    by (intro j; apply (untouched_table set_cluster idt_genes set_cluster_genes)).
  assert (C0 : forall j, idt_cluster (idt_of with_genes j) = None)
    by (intro j; unfold with_genes;
        now rewrite (untouched_table set_genes idt_cluster set_genes_cluster)).
  pose proof (tag_table set_genes idt_genes set_genes_genes d_genes []) as TG.
  pose proof (tag_table set_cluster idt_cluster set_cluster_cluster d_clusters with_genes)
    as TC.
  cbv zeta in TG, TC. fold with_genes in TG.
  split; [|split; [|split]].
  - intros j sig Hs. rewrite G in Hs.
    destruct (TG j) as [[E0 _]|[i [ms [I [Ij E1]]]]].
    + rewrite E0 in Hs. discriminate.
    + rewrite E1 in Hs. injection Hs as <-. eauto.
  - intros c Ic. rewrite G. destruct (Hm c Ic) as [p [sig [ms [_ [Gs [Im _]]]]]].
    destruct (TG c) as [[_ N]|[i [ms' [I [Ij E1]]]]].
    + exfalso. exact (N sig ms (dict_get_In _ _ _ Gs) Im).
    + rewrite E1. discriminate.
  - intros j i Hc. destruct (TC j) as [[E0 _]|[i' [ms [I [Ij E1]]]]].
    + rewrite E0, C0 in Hc. discriminate.
    + rewrite E1 in Hc. injection Hc as <-. eauto.
  - intros j N. destruct (TC j) as [[E0 _]|[i' [ms [I [Ij E1]]]]].
    + now rewrite E0, C0.
    + exfalso. exact (N i' ms I Ij).
Qed.

Lemma identity_table_witness :
  exists d_genes d_idt,
    generate_clusters_dict ex_pg [("c1", ["p1"])]
    = Ok ([("c1", ["p1"])], d_genes, d_idt) /\
    idt_cluster (idt_of d_idt "p2") = None.
Proof.
  destruct (identity_table ex_pg [("c1", ["p1"])]) as [dg [di [E [_ [_ [_ H]]]]]].
  exists dg, di. split; [exact E|]. apply H.
  intros i gl [[= <- <-]|[]] [E'|[]]. discriminate E'.
Defined.

(** ** Variant extractor, continued *)

Lemma count_subst_app a b : count_subst (a ++ b) = count_subst a + count_subst b.
Proof. unfold count_subst. now rewrite filter_app, length_app. Qed.

Lemma count_at_base nid l : Forall (at_base nid) l -> count_subst l = List.length l.
Proof.
  induction 1 as [|v l [_ [pos Hv]] _ IH]; [reflexivity|].
  unfold count_subst in *. simpl. rewrite Hv. simpl. now rewrite IH.
Qed.

Lemma count_inserted nid l : Forall (inserted nid) l -> count_subst l = 0.
Proof.
  induction 1 as [|v l [_ [key Hv]] _ IH]; [reflexivity|].
  unfold count_subst in *. simpl. now rewrite Hv.
Qed.

(** A loop that yields one positioned variant per item and moves the cursor. *)
Lemma emit_fold {X : Type} (nid : string) (is_rev : bool) (base : X -> string)
  (step : Z * list Variant -> X -> Z * list Variant) :
  (forall pos out x,
     step (pos, out) x = (move is_rev pos 1, out ++ [(nid, AtBase pos, base x)])) ->
  forall xs pos out,
  exists added,
    fold_left step xs (pos, out)
    = (move is_rev pos (Z.of_nat (List.length xs)), out ++ added) /\
    List.length added = List.length xs /\ Forall (at_base nid) added.
Proof.
  intro Hs. induction xs as [|x xs IH]; intros pos out.
  - exists []. simpl. rewrite app_nil_r. split; [|split; [reflexivity|constructor]].
    f_equal. unfold move. destruct is_rev; lia.
  - cbn [fold_left]. rewrite Hs.
    destruct (IH (move is_rev pos 1) (out ++ [(nid, AtBase pos, base x)]))
      as [added [E [L F]]].
    exists ((nid, AtBase pos, base x) :: added). split; [|split].
    + rewrite E, move_move, <- app_assoc. cbn [app List.length].
      replace (1 + Z.of_nat (List.length xs))%Z
        with (Z.of_nat (S (List.length xs))) by lia.
      reflexivity.
    + simpl. now rewrite L.
    + constructor; [|exact F]. split; [reflexivity|]. simpl. eauto.
Qed.

Lemma ins_fold nid is_rev pos : forall ls pos_bis out pos_bis' out',
  for_each (ins_step nid is_rev pos) ls (pos_bis, out) = Ok (pos_bis', out') ->
  exists added,
    out' = out ++ added /\
    List.length added = List.length ls /\ Forall (inserted nid) added.
Proof.
  induction ls as [|n ls IH]; intros pos_bis out pos_bis' out' E; cbn [for_each] in E.
  - injection E as <- <-. exists []. rewrite app_nil_r. repeat constructor.
  - unfold ins_step at 1 in E.
    destruct (if is_rev then reverse_complement n else Ok n) as [n'|];
      cbn [bind] in E; [|discriminate].
    apply IH in E. destruct E as [added [-> [L F]]].
    eexists (_ :: added). split; [rewrite <- app_assoc; reflexivity|]. split.
    + simpl. now rewrite L.
    + constructor; [|exact F]. split; [reflexivity|]. simpl. eauto.
Qed.

(** One edit adds variants of the step's node only, and as many with an
    integer position as [edit_count] says. *)
Lemma edit_step_added nid is_rev pos out e pos' out' :
  edit_step nid is_rev (pos, out) e = Ok (pos', out') ->
  exists added,
    out' = out ++ added /\
    Forall (fun v => fst (fst v) = nid) added /\
    count_subst added = edit_count e.
Proof.
  unfold edit_step, edit_count.
  destruct (from_len e =? to_len e)%Z; destruct (edit_sequence e) as [s|].
  - destruct (emit_fold nid is_rev (fun n : string => n) (subst_step nid is_rev)
                (fun _ _ _ => eq_refl) (letters s) pos out) as [added [E [L F]]].
    rewrite E. intros [= <- <-]. exists added. split; [reflexivity|]. split.
    + eapply Forall_impl; [|exact F]. now intros v [H _].
    + now rewrite (count_at_base nid), L.
  - intros [= <- <-]. exists []. rewrite app_nil_r. repeat constructor.
  - intro E.
    destruct (for_each (ins_step nid is_rev pos) (letters s) _) as [[pb o]|] eqn:Ei;
      cbn [bind] in E; [|discriminate].
    injection E as <- <-. apply ins_fold in Ei. destruct Ei as [added [-> [L F]]].
    exists added. split; [reflexivity|]. split.
    + eapply Forall_impl; [|exact F]. now intros v [H _].
    + now apply (count_inserted nid).
  - destruct (emit_fold nid is_rev (fun _ : nat => " ") (del_step nid is_rev)
                (fun _ _ _ => eq_refl) (seq 0 (Z.to_nat (from_len e))) pos out)
      as [added [E [L F]]].
    rewrite E. intros [= <- <-]. exists added. split; [reflexivity|]. split.
    + eapply Forall_impl; [|exact F]. now intros v [H _].
    + now rewrite (count_at_base nid), L, length_seq.
Qed.

Lemma edit_steps_added nid is_rev : forall edits pos out pos' out',
  for_each (edit_step nid is_rev) edits (pos, out) = Ok (pos', out') ->
  exists added,
    out' = out ++ added /\
    Forall (fun v => fst (fst v) = nid) added /\
    count_subst added = list_sum (map edit_count edits).
Proof.
  induction edits as [|e edits IH]; intros pos out pos' out' E; cbn [for_each] in E.
  - injection E as <- <-. exists []. rewrite app_nil_r. repeat constructor.
  - destruct (edit_step nid is_rev (pos, out) e) as [[p1 o1]|] eqn:E1;
      cbn [bind] in E; [|discriminate].
    apply edit_step_added in E1. destruct E1 as [a1 [-> [F1 C1]]].
    apply IH in E. destruct E as [a2 [-> [F2 C2]]].
    exists (a1 ++ a2). split; [now rewrite app_assoc|]. split.
    + apply Forall_app. now split.
    + rewrite count_subst_app, C1, C2. reflexivity.
Qed.

Lemma node_variants_added pg out node out' :
  node_variants pg out node = Ok out' ->
  exists added,
    out' = out ++ added /\
    Forall (fun v => fst (fst v) = node_id (position node)) added /\
    count_subst added = list_sum (map edit_count (edit node)).
Proof.
  unfold node_variants. intro E.
  match type of E with
  | bind ?c _ = _ => destruct c as [pos|]; cbn [bind] in E; [|discriminate]
  end.
  destruct (for_each _ (edit node) (pos, out)) as [[p o]|] eqn:Ee;
    cbn [bind] in E; [|discriminate].
  injection E as <-. now apply edit_steps_added in Ee.
Qed.

Lemma get_variants_added pg : forall steps out out',
  for_each (node_variants pg) steps out = Ok out' ->
  exists added,
    out' = out ++ added /\
    Forall (fun v => exists m, In m steps /\ fst (fst v) = node_id (position m)) added /\
    count_subst added
    = list_sum (map (fun m => list_sum (map edit_count (edit m))) steps).
Proof.
  induction steps as [|m steps IH]; intros out out' E; cbn [for_each] in E.
  - injection E as <-. exists []. rewrite app_nil_r. repeat constructor.
  - destruct (node_variants pg out m) as [o1|] eqn:E1; cbn [bind] in E; [|discriminate].
    apply node_variants_added in E1. destruct E1 as [a1 [-> [F1 C1]]].
    apply IH in E. destruct E as [a2 [-> [F2 C2]]].
    exists (a1 ++ a2). split; [now rewrite app_assoc|]. split.
    + apply Forall_app. split.
      * eapply Forall_impl; [|exact F1]. intros v Hv. exists m. split; [now left|exact Hv].
      * eapply Forall_impl; [|exact F2]. intros v [m' [I Hv]]. exists m'.
        split; [now right|exact Hv].
    + rewrite count_subst_app, C1, C2. reflexivity.
Qed.

(** X10.  Every variant extracted from a subpath names the node of one of its
    mapping steps, and the variants with an integer position, the ones
    [get_abundance] counts as substitutions, are one per substituted character
    and one per deleted reference base: matches and insertions add none. *)
Theorem variants_counted pg sp vs :
  get_variants pg sp = Ok vs ->
  Forall (from_step sp) vs /\ count_subst vs = subpath_count sp.
Proof.
  unfold get_variants. intro E. apply get_variants_added in E.
  destruct E as [added [-> [F C]]]. simpl. split; [exact F|exact C].
Qed.

Lemma variants_counted_witness :
  Forall (from_step (ex_subst (Some true))) [("1", AtBase 9, "A")] /\
  count_subst [("1", AtBase 9, "A")] = subpath_count (ex_subst (Some true)).
Proof.
  apply (variants_counted ex_pg). vm_compute. reflexivity.
Defined.

Lemma ins_forward nid pos : forall ls st,
  exists st', for_each (ins_step nid false pos) ls st = Ok st'.
Proof.
  induction ls as [|n ls IH]; intros [pb out]; simpl; [eauto|]. apply IH.
Qed.

Lemma edits_forward nid : forall edits st,
  exists st', for_each (edit_step nid false) edits st = Ok st'.
Proof.
  induction edits as [|e edits IH]; intros [pos out]; simpl; [eauto|].
  unfold edit_step at 1.
  destruct (from_len e =? to_len e)%Z; destruct (edit_sequence e) as [s|];
    cbn [bind]; try apply IH.
  destruct (ins_forward nid pos (letters s)
              (if false then (Z.of_nat (str_len s) - 1)%Z else 0%Z, out))
    as [[pb o] E].
  rewrite E. cbn [bind]. apply IH.
Qed.

(** X11.  On a subpath none of whose mapping steps has the key ['is_reverse'],
    variant extraction returns a list whatever the graph holds: it neither
    looks a node up nor complements a base. *)
Theorem forward_variants_total pg sp :
  forward_only sp = true -> exists vs, get_variants pg sp = Ok vs.
Proof.
  unfold forward_only, get_variants. generalize (@nil Variant) as out.
  induction (mapping sp) as [|m steps IH]; intros out F; simpl in *; [eauto|].
  apply andb_true_iff in F. destruct F as [Fm Fs].
  apply negb_true_iff in Fm. unfold node_variants at 1. rewrite Fm. cbn [bind].
  destruct (edits_forward (node_id (position m)) (edit m)
              (get_or (offset (position m)) 0%Z, out)) as [[p o] E].
  rewrite E. cbn [bind]. now apply IH.
Qed.

Lemma forward_variants_total_witness :
  exists vs, get_variants empty_pangenome (ex_subst None) = Ok vs.
Proof. apply forward_variants_total. reflexivity. Defined.

(** ** Best-path resolver, continued *)

Lemma relax_In child stats sc ending p x :
  In x (relax child stats sc ending p) ->
  In x ending \/ x = extend child stats sc p.
Proof.
  destruct ending as [|best rest].
  - simpl. intros [<-|[]]. now right.
  - rewrite relax_rule. cbv zeta.
    destruct (pf_score best <? pf_score (extend child stats sc p))%Z.
    + intros [<-|[]]. now right.
    + destruct (pf_score (extend child stats sc p) =? pf_score best)%Z; [|now left].
      rewrite app_comm_cons. intro I. apply in_app_or in I.
      destruct I as [I|[<-|[]]]; [now left|now right].
Qed.

Lemma relax_all_In child stats sc prefixes : forall ending x,
  In x (fold_left (relax child stats sc) prefixes ending) ->
  In x ending \/ exists p, In p prefixes /\ x = extend child stats sc p.
Proof.
  induction prefixes as [|p prefixes IH]; intros ending x I; simpl in I; [now left|].
  destruct (IH _ _ I) as [I1|[q [Iq ->]]].
  - destruct (relax_In _ _ _ _ _ _ I1) as [I0| ->]; [now left|].
    right. exists p. split; [now left|reflexivity].
  - right. exists q. split; [now right|reflexivity].
Qed.

Lemma chain_snoc subpath c : forall path,
  path <> [] -> chain subpath path = true ->
  successor_of subpath (last path 0) c = true ->
  chain subpath (path ++ [c]) = true.
Proof.
  induction path as [|a path IH]; intros N C S; [contradiction|].
  destruct path as [|b path].
  - simpl in *. now rewrite S.
  - change (chain subpath (a :: (b :: path) ++ [c]) = true).
    cbn [chain app] in *. apply andb_true_iff in C. destruct C as [C1 C2].
    rewrite C1. simpl. apply IH; [discriminate|exact C2|exact S].
Qed.

Lemma zsum_app a b : zsum (a ++ b) = (zsum a + zsum b)%Z.
Proof. unfold zsum. induction a as [|x a IH]; simpl; [reflexivity|]. rewrite IH. lia. Qed.

Lemma path_subpaths_snoc subpath path c sp :
  nth_error subpath c = Some sp ->
  path_subpaths subpath (path ++ [c]) = path_subpaths subpath path ++ [sp].
Proof.
  intro E. unfold path_subpaths. rewrite flat_map_app. simpl. now rewrite E.
Qed.

(** Seeds are sound, and so is a sound prefix extended by a successor of its
    last subpath. *)
Lemma own_prefix_sound subpath i sp :
  nth_error subpath i = Some sp -> prefix_sound subpath (own_prefix i sp).
Proof.
  intro E. unfold prefix_sound, own_prefix, total_len, total_score, total_match,
    total_aligned, path_subpaths.
  destruct (subpath_stats sp) as [[l m] a] eqn:St. simpl. rewrite E. simpl.
  rewrite St. simpl.
  repeat split; try lia; try discriminate.
  constructor; [|constructor]. apply nth_error_Some. congruence.
Qed.

Lemma extend_sound subpath p c sp :
  prefix_sound subpath p ->
  nth_error subpath c = Some sp ->
  successor_of subpath (last (pf_path p) 0) c = true ->
  prefix_sound subpath (extend c (subpath_stats sp) (own_score sp) p) /\
  last (pf_path (extend c (subpath_stats sp) (own_score sp) p)) 0 = c.
Proof.
  intros [N [C [F [L [S [M A]]]]]] E Su.
  split; [|rewrite extend_path; apply last_last].
  unfold prefix_sound, total_len, total_score, total_match, total_aligned in *.
  rewrite extend_path, (path_subpaths_snoc _ _ _ _ E), !map_app, !zsum_app.
  rewrite <- L, <- S, <- M, <- A.
  split; [destruct (pf_path p); discriminate|].
  split; [now apply chain_snoc|].
  split.
  { apply Forall_app. split; [exact F|]. constructor; [|constructor].
    apply nth_error_Some. congruence. }
  destruct (subpath_stats sp) as [[l m] a] eqn:St. unfold zsum. simpl.
  rewrite St. simpl. repeat split; lia.
Qed.

Lemma visit_child_sound subpath current_node sp children st child st' :
  nth_error subpath current_node = Some sp -> sp_next sp = Some children ->
  In child children ->
  frontier_sound subpath (snd st) ->
  visit_child subpath current_node st child = Ok st' ->
  frontier_sound subpath (snd st').
Proof.
  destruct st as [queue cp]. simpl. intros Ec En Ic Hcp E. unfold visit_child in E.
  destruct (nth_error subpath child) as [spc|] eqn:Ech; simpl in E; [|discriminate].
  destruct (child =? current_node); [discriminate|].
  set (cp1 := if dict_mem child cp then cp else dict_set child [] cp) in E.
  assert (H1 : frontier_sound subpath cp1).
  { unfold cp1. destruct (dict_mem child cp); [exact Hcp|].
    intros idx l p I Ip. apply dict_set_In in I. destruct I as [[-> ->]|I].
    - destruct Ip.
    - eapply Hcp; eauto. }
  destruct (dict_get current_node cp1) as [prefixes|] eqn:Gc; simpl in E; [|discriminate].
  injection E as <-. simpl. intros idx l p I Ip.
  apply dict_set_In in I. destruct I as [[-> ->]|I]; [|eapply H1; eauto].
  apply relax_all_In in Ip. destruct Ip as [Ip|[q [Iq ->]]].
  - destruct (dict_get child cp1) as [ending|] eqn:G; simpl in Ip; [|destruct Ip].
    eapply H1; [apply dict_get_In; exact G|exact Ip].
  - destruct (H1 _ _ _ (dict_get_In _ _ _ Gc) Iq) as [La Sq].
    destruct (extend_sound subpath q child spc Sq Ech) as [S' L'].
    + rewrite La. unfold successor_of. rewrite Ec, En. now apply py_in_In.
    + now split.
Qed.

Lemma walk_sound subpath seq_len : forall fuel queue cp fr,
  frontier_sound subpath cp ->
  walk fuel subpath seq_len queue cp = Ok fr -> frontier_sound subpath fr.
Proof.
  induction fuel as [|fuel IH]; intros queue cp fr Hcp E;
    destruct queue as [|current_node queue]; simpl in E;
    try (injection E as <-; exact Hcp); try discriminate.
  destruct (nth_error subpath current_node) as [sp|] eqn:Ec; simpl in E; [|discriminate].
  destruct (sp_next sp) as [children|] eqn:En; [|now apply IH in E].
  destruct (dict_get current_node cp) as [prefixes|]; simpl in E; [|discriminate].
  destruct (forallb _ prefixes); [now apply IH in E|].
  match type of E with
  | bind ?c _ = _ => destruct c as [[queue1 cp1]|] eqn:E1; simpl in E; [|discriminate]
  end.
  apply IH in E; [exact E|].
  apply (for_each_inv (fun st => frontier_sound subpath (snd st))) in E1; auto.
  - simpl in E1. intros idx l p I Ip. eapply E1; [|exact Ip]. eapply dict_pop_In; eauto.
  - intros st x st' Ix. eapply visit_child_sound; eauto.
Qed.

Lemma BFS_frontier_sound fuel aln subpath fr :
  aln_subpath aln = Some subpath ->
  BFS_frontier fuel aln = Ok fr -> frontier_sound subpath fr.
Proof.
  unfold BFS_frontier. intros -> E. simpl in E.
  rewrite seed_spec in E. eapply walk_sound; [|exact E].
  intros idx l p I Ip. apply in_map_iff in I. destruct I as [[i sp] [Ei Ii]].
  unfold seed_entry in Ei. simpl in Ei. injection Ei as <- <-.
  destruct Ip as [<-|[]].
  assert (En : nth_error subpath i = Some sp).
  { unfold enumerate in Ii. clear - Ii.
    assert (G : forall (l : list Subpath) start, In (i, sp) (combine (seq start (List.length l)) l) ->
                start <= i /\ nth_error l (i - start) = Some sp).
    { induction l as [|x l IHl]; intros start I; simpl in I; [destruct I|].
      destruct I as [[= <- <-]|I].
      - split; [lia|]. now rewrite Nat.sub_diag.
      - destruct (IHl _ I) as [Le E]. split; [lia|].
        replace (i - start) with (S (i - S start)) by lia. exact E. }
    destruct (G _ _ Ii) as [_ E]. now rewrite Nat.sub_0_r in E. }
  split; [|now apply own_prefix_sound].
  unfold own_prefix. now destruct (subpath_stats sp) as [[a b] c].
Qed.

Lemma map_result_In {A B : Type} (f : A -> result B) : forall l out y,
  map_result f l = Ok out -> In y out -> exists x, In x l /\ f x = Ok y.
Proof.
  induction l as [|x l IH]; intros out y E I; simpl in E.
  - injection E as <-. destruct I.
  - destruct (f x) as [y0|] eqn:Ef; simpl in E; [|discriminate].
    destruct (map_result f l) as [ys|] eqn:El; simpl in E; [|discriminate].
    injection E as <-. destruct I as [<-|I].
    + exists x. split; [now left|exact Ef].
    + destruct (IH _ _ eq_refl I) as [x' [Ix Ex]]. exists x'. split; [now right|exact Ex].
Qed.

Lemma tuples_In fr p :
  In p (tuples fr) -> exists idx l, In (idx, l) fr /\ In p l.
Proof.
  unfold tuples. intro I. apply in_concat in I. destruct I as [l [Il Ip]].
  apply in_map_iff in Il. destruct Il as [[idx l'] [E Il]]. simpl in E. subst l'.
  eauto.
Qed.

(** Each returned alignment comes from a sound prefix of the frontier. *)
Lemma BFS_alignment_prefix pg fuel aln subpath out a :
  aln_subpath aln = Some subpath ->
  BFS pg fuel aln = Ok out -> In a out ->
  exists p, prefix_sound subpath p /\ make_alignment pg subpath p = Ok a.
Proof.
  intros Es E Ia. unfold BFS in E. rewrite Es in E. cbn [of_option bind] in E.
  destruct (BFS_frontier fuel aln) as [fr|] eqn:Ef; cbn [bind] in E; [|discriminate].
  destruct (map_result_In _ _ _ _ E Ia) as [p [Ip Ep]].
  destruct (tuples_In _ _ Ip) as [idx [l [Il Ipl]]].
  exists p. split; [|exact Ep].
  now apply (BFS_frontier_sound _ _ _ _ Es Ef idx l p).
Qed.

Lemma make_alignment_fields pg subpath p a :
  make_alignment pg subpath p = Ok a ->
  al_len a = pf_len p /\ al_score a = pf_score p /\
  true_div (pf_match p) (pf_aligned p) = Ok (al_identity a).
Proof.
  unfold make_alignment. intro E.
  destruct (for_each _ (pf_path p) _) as [[nds variants]|]; simpl in E; [|discriminate].
  destruct (true_div (pf_match p) (pf_aligned p)) as [q|]; simpl in E; [|discriminate].
  injection E as <-. now repeat split.
Qed.

(** X12.  Every alignment the resolver returns follows a path of the subpath
    DAG: a non-empty list of valid indices, each listed in the ['next'] of the
    one before; its score is the sum of the scores of the subpaths on that
    path (absent scores counting 0) and its length the sum of the read bases
    their edits consume. *)
Theorem alignments_follow_paths pg fuel aln subpath out a :
  aln_subpath aln = Some subpath ->
  BFS pg fuel aln = Ok out -> In a out ->
  exists path,
    path <> [] /\ chain subpath path = true /\
    Forall (fun i => i < List.length subpath) path /\
    al_score a = total_score subpath path /\
    al_len a = total_len subpath path.
Proof.
  intros Es E Ia.
  destruct (BFS_alignment_prefix _ _ _ _ _ _ Es E Ia) as [p [[N [C [F [L [S _]]]]] Ep]].
  destruct (make_alignment_fields _ _ _ _ Ep) as [El [Esc _]].
  exists (pf_path p). repeat split; auto; congruence.
Qed.

Lemma alignments_follow_paths_witness :
  exists path,
    path <> [] /\
    chain (get_or (aln_subpath ex_fork) []) path = true /\
    Forall (fun i => i < List.length (get_or (aln_subpath ex_fork) [])) path /\
    al_score (mkAlignment [("1", 1%Q); ("2", (1 # 2)%Q)] 15 15 1%Q [])
    = total_score (get_or (aln_subpath ex_fork) []) path /\
    al_len (mkAlignment [("1", 1%Q); ("2", (1 # 2)%Q)] 15 15 1%Q [])
    = total_len (get_or (aln_subpath ex_fork) []) path.
Proof.
  apply (alignments_follow_paths ex_pg 3 ex_fork _
           [mkAlignment [("1", 1%Q); ("2", (1 # 2)%Q)] 15 15 1%Q [];
            mkAlignment [("1", 1%Q); ("2", (3 # 10)%Q)] 13 13 1%Q []]).
  - reflexivity.
  - vm_compute. reflexivity.
  - left. reflexivity.
Defined.

Lemma edit_stats_bounded acc e :
  (0 <= from_len e)%Z -> (0 <= to_len e)%Z ->
  stats_bounded acc -> stats_bounded (edit_stats acc e).
Proof.
  destruct acc as [[l m] a]. unfold stats_bounded, edit_stats. intros Hf Ht [Hm Ha].
  destruct ((from_len e =? to_len e)%Z && negb (has (edit_sequence e))) eqn:B.
  - apply andb_true_iff in B. destruct B as [B _]. apply Z.eqb_eq in B. lia.
  - lia.
Qed.

Lemma subpath_stats_bounded sp :
  forallb (fun m => forallb (fun e => (0 <=? from_len e)%Z && (0 <=? to_len e)%Z) (edit m))
          (mapping sp) = true ->
  stats_bounded (subpath_stats sp).
Proof.
  unfold subpath_stats. intro H.
  assert (G : forall steps acc,
             forallb (fun m => forallb (fun e => (0 <=? from_len e)%Z && (0 <=? to_len e)%Z)
                                       (edit m)) steps = true ->
             stats_bounded acc ->
             stats_bounded (fold_left (fun acc node => fold_left edit_stats (edit node) acc)
                                      steps acc)).
  { induction steps as [|m steps IH]; intros acc Hs Hb; simpl in *; [exact Hb|].
    apply andb_true_iff in Hs. destruct Hs as [Hm Hs]. apply IH; [exact Hs|].
    clear - Hm Hb. revert acc Hb.
    induction (edit m) as [|e es IHe]; intros acc Hb; simpl in *; [exact Hb|].
    apply andb_true_iff in Hm. destruct Hm as [He Hes].
    apply andb_true_iff in He. destruct He as [H1 H2].
    apply IHe; [exact Hes|]. apply edit_stats_bounded; auto; now apply Z.leb_le. }
  apply G; [exact H|]. simpl. lia.
Qed.

Lemma path_subpaths_In subpath path sp :
  In sp (path_subpaths subpath path) -> In sp subpath.
Proof.
  unfold path_subpaths. intro I. apply in_flat_map in I. destruct I as [i [_ I]].
  destruct (nth_error subpath i) as [sp'|] eqn:E; [|destruct I].
  destruct I as [<-|[]]. eapply nth_error_In; eauto.
Qed.

Lemma totals_bounded subpath path :
  lengths_nonneg subpath = true ->
  (0 <= total_match subpath path <= total_aligned subpath path)%Z.
Proof.
  intro H. unfold total_match, total_aligned, lengths_nonneg in *.
  rewrite forallb_forall in H.
  assert (G : forall sps, (forall sp, In sp sps -> In sp subpath) ->
             (0 <= zsum (map (fun sp => snd (fst (subpath_stats sp))) sps)
              <= zsum (map (fun sp => snd (subpath_stats sp)) sps))%Z).
  { induction sps as [|sp sps IH]; intro Hin; simpl; [lia|].
    pose proof (subpath_stats_bounded sp (H sp (Hin sp (or_introl eq_refl)))) as B.
    destruct (subpath_stats sp) as [[l m] a]. simpl in *.
    assert (IH' := IH (fun x Ix => Hin x (or_intror Ix))). lia. }
  apply G. intros sp I. eapply path_subpaths_In; eauto.
Qed.

Lemma true_div_unit m a q :
  (0 <= m <= a)%Z -> true_div m a = Ok q -> Qle 0 q /\ Qle q 1.
Proof.
  intros Hm E. unfold true_div in E.
  destruct (a =? 0)%Z eqn:Z0; [discriminate|]. injection E as <-.
  apply Z.eqb_neq in Z0. destruct a as [|pa|pa]; try lia.
  assert (E : Qeq (Qred (Qdiv (inject_Z m) (inject_Z (Z.pos pa)))) (m # pa)).
  { eapply Qeq_trans; [apply Qred_correct|]. apply Qeq_sym, Qmake_Qdiv. }
  split.
  - apply (Qle_trans _ (m # pa)); [unfold Qle; simpl; lia|].
    apply Qle_lteq. right. now apply Qeq_sym.
  - apply (Qle_trans _ (m # pa)); [apply Qle_lteq; now right|].
    unfold Qle. simpl. lia.
Qed.

(** X13.  When no edit of the record has a negative length, the identity of
    every returned alignment is a ratio between 0 and 1. *)
Theorem identity_in_unit_interval pg fuel aln subpath out a :
  aln_subpath aln = Some subpath -> lengths_nonneg subpath = true ->
  BFS pg fuel aln = Ok out -> In a out ->
  Qle 0 (al_identity a) /\ Qle (al_identity a) 1.
Proof.
  intros Es Hn E Ia.
  destruct (BFS_alignment_prefix _ _ _ _ _ _ Es E Ia) as [p [[_ [_ [_ [_ [_ [M A]]]]]] Ep]].
  destruct (make_alignment_fields _ _ _ _ Ep) as [_ [_ Ei]].
  eapply true_div_unit; [|exact Ei]. rewrite M, A. now apply totals_bounded.
Qed.

Lemma identity_in_unit_interval_witness :
  Qle 0 (al_identity ex_alignment1) /\ Qle (al_identity ex_alignment1) 1.
Proof.
  apply (identity_in_unit_interval ex_pg 1 ex_read1
           (get_or (aln_subpath ex_read1) []) [ex_alignment1]).
  - reflexivity.
  - reflexivity.
  - vm_compute. reflexivity.
  - left. reflexivity.
Defined.

(** X14.  From a record none of whose subpaths aligns a base the resolver
    returns no alignment: whenever a prefix is left in the frontier, the
    division that computes its identity raises. *)
Theorem unaligned_record_gives_nothing pg fuel aln subpath out :
  aln_subpath aln = Some subpath -> no_aligned_base subpath = true ->
  BFS pg fuel aln = Ok out -> out = [].
Proof.
  intros Es Hz E. destruct out as [|a out]; [reflexivity|]. exfalso.
  destruct (BFS_alignment_prefix _ _ _ _ _ _ Es E (or_introl eq_refl))
    as [p [[_ [_ [_ [_ [_ [_ A]]]]]] Ep]].
  destruct (make_alignment_fields _ _ _ _ Ep) as [_ [_ Ei]].
  assert (Z0 : pf_aligned p = 0%Z).
  { rewrite A. unfold total_aligned, no_aligned_base in *. rewrite forallb_forall in Hz.
    assert (G : forall sps, (forall sp, In sp sps -> In sp subpath) ->
               zsum (map (fun sp => snd (subpath_stats sp)) sps) = 0%Z).
    { induction sps as [|sp sps IH]; intro Hin; simpl; [reflexivity|].
      rewrite IH by (intros x Ix; apply Hin; now right).
      pose proof (Hz sp (Hin sp (or_introl eq_refl))) as Hs.
      apply Z.eqb_eq in Hs. lia. }
    apply G. intros sp I. eapply path_subpaths_In; eauto. }
  unfold true_div in Ei. rewrite Z0 in Ei. simpl in Ei. discriminate.
Qed.

Lemma unaligned_record_gives_nothing_witness :
  BFS ex_pg 1 (mkAln "r" "A" (Some [ex_insert]) [0]) = Raise ZeroDivisionError.
Proof.
  destruct (BFS ex_pg 1 (mkAln "r" "A" (Some [ex_insert]) [0])) as [out|e] eqn:E.
  - pose proof (unaligned_record_gives_nothing ex_pg 1
                  (mkAln "r" "A" (Some [ex_insert]) [0]) [ex_insert] out
                  eq_refl eq_refl E) as H.
    subst out. vm_compute in E. discriminate E.
  - vm_compute in E. injection E as <-. reflexivity.
Defined.

(** ** Alignments *)

Lemma add_abund_keys nodeID q : forall nds,
  NoDup (map fst nds) -> NoDup (map fst (add_abund nodeID q nds)).
Proof.
  intros nds N.
  assert (K : map fst (add_abund nodeID q nds)
              = if py_in nodeID (map fst nds) then map fst nds else map fst nds ++ [nodeID]).
  { clear N. induction nds as [|[n a] nds IH]; simpl; [reflexivity|].
    destruct (nodeID =? n)%string eqn:En; simpl; [reflexivity|].
    rewrite IH. unfold py_in. simpl. now destruct (existsb _ (map fst nds)). }
  rewrite K. destruct (py_in nodeID (map fst nds)) eqn:P; [exact N|].
  apply NoDup_app; [exact N|repeat constructor; tauto|].
  intros x I [<-|[]]. apply py_in_In in I. congruence.
Qed.

(** X15.  An alignment lists each node once, however many mapping steps and
    subpaths of its path go through the node; its length and score are those
    of the prefix it is built from. *)
Theorem alignment_nodes_distinct pg subpath tupl a :
  make_alignment pg subpath tupl = Ok a ->
  NoDup (map fst (al_nodes a)) /\
  al_len a = pf_len tupl /\ al_score a = pf_score tupl.
Proof.
  intro E. destruct (make_alignment_fields _ _ _ _ E) as [L [S _]].
  split; [|now split]. unfold make_alignment in E.
  destruct (for_each (subpath_node_step pg subpath) (pf_path tupl) ([], []))
    as [[nds variants]|] eqn:Ef; simpl in E; [|discriminate].
  destruct (true_div _ _); simpl in E; [|discriminate]. injection E as <-. simpl.
  apply (for_each_inv (fun st => NoDup (map fst (fst st)))) in Ef;
    [exact Ef| |constructor].
  intros [nds0 vs0] i [nds1 vs1] _ N0 Es. simpl in *. unfold subpath_node_step in Es.
  destruct (nth_error subpath i) as [sp|]; simpl in Es; [|discriminate].
  destruct (for_each (node_abund pg) (mapping sp) nds0) as [nds2|] eqn:En;
    simpl in Es; [|discriminate].
  destruct (get_variants pg sp); simpl in Es; [|discriminate].
  injection Es as <- <-.
  apply (for_each_inv (fun n => NoDup (map fst n))) in En; [exact En| |exact N0].
  intros n0 m n1 _ Nn Em. unfold node_abund in Em.
  destruct (for_each (edit_abund pg (node_id (position m))) (edit m) (0 # 1)%Q);
    simpl in Em; [|discriminate].
  injection Em as <-. now apply add_abund_keys.
Qed.

Lemma alignment_nodes_distinct_witness :
  NoDup (map fst (al_nodes (mkAlignment [("1", 1%Q); ("2", (1 # 2)%Q)] 15 15 1%Q []))) /\
  al_len (mkAlignment [("1", 1%Q); ("2", (1 # 2)%Q)] 15 15 1%Q [])
  = pf_len (mkPrefix [0; 1] 15 15 15 15) /\
  al_score (mkAlignment [("1", 1%Q); ("2", (1 # 2)%Q)] 15 15 1%Q [])
  = pf_score (mkPrefix [0; 1] 15 15 15 15).
Proof.
  apply (alignment_nodes_distinct ex_pg (get_or (aln_subpath ex_fork) [])).
  vm_compute. reflexivity.
Defined.

(** ** Path matcher *)

Lemma list_eqb_eq l1 : forall l2, list_eqb l1 l2 = true <-> l1 = l2.
Proof.
  induction l1 as [|x l1 IH]; intros [|y l2]; simpl; split; intro E;
    try discriminate; try reflexivity.
  - apply andb_true_iff in E. destruct E as [E1 E2].
    apply String.eqb_eq in E1. apply IH in E2. now subst.
  - injection E as -> ->. rewrite String.eqb_refl. now apply IH.
Qed.

Lemma py_slice_inside {A : Type} (l : list A) a b :
  exists pre post, l = pre ++ py_slice l a b ++ post.
Proof.
  unfold py_slice.
  set (a' := Z.to_nat (clamp (Z.of_nat (List.length l)) a)).
  set (n := Z.to_nat (clamp (Z.of_nat (List.length l)) b
                      - clamp (Z.of_nat (List.length l)) a)).
  exists (firstn a' l), (skipn n (skipn a' l)).
  now rewrite (firstn_skipn n), (firstn_skipn a').
Qed.

Lemma py_slice_middle {A : Type} (pre mid post : list A) :
  py_slice (pre ++ mid ++ post) (Z.of_nat (List.length pre))
           (Z.of_nat (List.length pre) + Z.of_nat (List.length mid)) = mid.
Proof.
  unfold py_slice, clamp. rewrite !length_app.
  replace (Z.of_nat (List.length pre) <? 0)%Z with false by (symmetry; apply Z.ltb_ge; lia).
  replace (Z.of_nat (List.length pre) + Z.of_nat (List.length mid) <? 0)%Z with false
    by (symmetry; apply Z.ltb_ge; lia).
  rewrite !Z.min_l by lia.
  replace (Z.to_nat (Z.of_nat (List.length pre) + Z.of_nat (List.length mid)
                     - Z.of_nat (List.length pre))) with (List.length mid) by lia.
  rewrite Nat2Z.id, skipn_app, skipn_all, Nat.sub_diag. simpl.
  rewrite firstn_app, firstn_all, Nat.sub_diag. simpl. apply app_nil_r.
Qed.

Lemma occurrence_step_spec pg node_list path found idx found' :
  occurrence_step pg node_list path found idx = Ok found' ->
  exists p, get_path pg path = Ok p /\
    (found' = found \/
     (found' = found ++ [path] /\ occurs_in node_list (path_nodes p))) /\
    (list_eqb (py_slice (path_nodes p) (Z.of_nat (fst idx))
                        (Z.of_nat (fst idx) + Z.of_nat (List.length node_list)))
              node_list = true
     \/ list_eqb (py_slice (path_nodes p)
                           (Z.of_nat (fst idx) - Z.of_nat (List.length node_list) + 1)
                           (Z.of_nat (fst idx) + 1))
                 (rev node_list) = true ->
     found' = found ++ [path]).
Proof.
  unfold occurrence_step. intro E.
  destruct (get_path pg path) as [p|]; cbn [bind] in E; [|discriminate].
  exists p. split; [reflexivity|].
  destruct (list_eqb (py_slice (path_nodes p) _ _) node_list) eqn:F.
  - injection E as <-. split; [|reflexivity].
    right. split; [reflexivity|]. apply list_eqb_eq in F.
    destruct (py_slice_inside (path_nodes p) (Z.of_nat (fst idx))
                (Z.of_nat (fst idx) + Z.of_nat (List.length node_list))) as [pre [post H]].
    exists pre, post. left. now rewrite F in H.
  - destruct (list_eqb (py_slice (path_nodes p) _ _) (rev node_list)) eqn:R.
    + injection E as <-. split; [|reflexivity].
      right. split; [reflexivity|]. apply list_eqb_eq in R.
      destruct (py_slice_inside (path_nodes p)
                  (Z.of_nat (fst idx) - Z.of_nat (List.length node_list) + 1)
                  (Z.of_nat (fst idx) + 1)) as [pre [post H]].
      exists pre, post. right. now rewrite R in H.
    + injection E as <-. split; [now left|]. intros [H|H]; discriminate.
Qed.

Lemma occurrences_spec pg node_list path : forall occ found found',
  for_each (occurrence_step pg node_list path) occ found = Ok found' ->
  (forall x, In x found -> matched pg node_list x) ->
  (forall x, In x found' -> matched pg node_list x) /\
  (forall x, In x found -> In x found').
Proof.
  induction occ as [|idx occ IH]; intros found found' E Hf; cbn [for_each] in E.
  - injection E as <-. now split.
  - destruct (occurrence_step pg node_list path found idx) as [f1|] eqn:E1;
      cbn [bind] in E; [|discriminate].
    destruct (occurrence_step_spec _ _ _ _ _ _ E1) as [p [Gp [[->|[-> Oc]] _]]].
    + now apply IH.
    + destruct (IH _ _ E) as [H1 H2].
      * intros x I. apply in_app_or in I. destruct I as [I|[<-|[]]]; [now apply Hf|].
        exists p. now split.
      * split; [exact H1|]. intros x I. apply H2. apply in_or_app. now left.
Qed.

(** X16.  Every path the matcher returns is a path of the graph whose node
    list contains the given list, or the given list reversed, as a run of
    consecutive nodes. *)
Theorem matched_paths_contain_list pg node_list found path :
  get_matching_path pg node_list = Ok found -> In path found ->
  matched pg node_list path.
Proof.
  unfold get_matching_path. intros E I.
  destruct (hd_error node_list) as [start_node|]; cbn [of_option bind] in E; [|discriminate].
  destruct (get_node pg start_node) as [n|]; cbn [bind] in E; [|discriminate].
  revert path I.
  eapply (for_each_inv (fun found => forall x, In x found -> matched pg node_list x));
    [| |exact E].
  - intros f0 [path0 occ] f1 _ H0 E0. cbn [fst snd] in E0.
    now apply (occurrences_spec _ _ _ _ _ _ E0 H0).
  - intros x [].
Qed.

Lemma matched_paths_contain_list_witness : matched ex_pg ["2"] "p1".
Proof.
  apply (matched_paths_contain_list ex_pg ["2"] ["p1"] "p1").
  - vm_compute. reflexivity.
  - left. reflexivity.
Defined.

Lemma occurrences_mono pg node_list path : forall occ found found' x,
  for_each (occurrence_step pg node_list path) occ found = Ok found' ->
  In x found -> In x found'.
Proof.
  induction occ as [|idx occ IH]; intros found found' x E I; cbn [for_each] in E.
  - now injection E as <-.
  - destruct (occurrence_step pg node_list path found idx) as [f1|] eqn:E1;
      cbn [bind] in E; [|discriminate].
    eapply IH; [exact E|].
    destruct (occurrence_step_spec _ _ _ _ _ _ E1) as [p [_ [[->|[-> _]] _]]];
      [exact I|apply in_or_app; now left].
Qed.

Lemma occurrences_hit pg node_list path p idx : forall occ found found',
  for_each (occurrence_step pg node_list path) occ found = Ok found' ->
  In idx occ -> get_path pg path = Ok p ->
  (list_eqb (py_slice (path_nodes p) (Z.of_nat (fst idx))
                      (Z.of_nat (fst idx) + Z.of_nat (List.length node_list)))
            node_list = true
   \/ list_eqb (py_slice (path_nodes p)
                         (Z.of_nat (fst idx) - Z.of_nat (List.length node_list) + 1)
                         (Z.of_nat (fst idx) + 1))
               (rev node_list) = true) ->
  In path found'.
Proof.
  induction occ as [|i0 occ IH]; intros found found' E I Gp H; cbn [for_each] in E;
    [destruct I|].
  destruct (occurrence_step pg node_list path found i0) as [f1|] eqn:E1;
    cbn [bind] in E; [|discriminate].
  destruct I as [->|I]; [|eapply IH; eauto].
  destruct (occurrence_step_spec _ _ _ _ _ _ E1) as [q [Gq [_ Hit]]].
  rewrite Gp in Gq. injection Gq as <-. rewrite (Hit H) in E.
  eapply occurrences_mono; [exact E|]. apply in_or_app. right. now left.
Qed.

(** X17.  When the first node of the list records an occurrence of a path at
    position [i], and the nodes of that path from position [i] on spell the
    list, or the nodes up to position [i] spell it backwards, the matcher
    returns the path (provided it returns at all). *)
Theorem matcher_finds_occurrence pg node_list found start n path occ i ori p pre post :
  get_matching_path pg node_list = Ok found ->
  hd_error node_list = Some start -> get_node pg start = Ok n ->
  dict_get path (pathsCrossed n) = Some occ -> In (i, ori) occ ->
  get_path pg path = Ok p ->
  (path_nodes p = pre ++ node_list ++ post /\ List.length pre = i) \/
  (path_nodes p = pre ++ rev node_list ++ post /\
   List.length pre + List.length node_list = S i) ->
  In path found.
Proof.
  unfold get_matching_path. intros E Hh Gn Go Io Gp H.
  rewrite Hh in E. cbn [of_option bind] in E. rewrite Gn in E. cbn [bind] in E.
  apply dict_get_In in Go.
  assert (Slice :
    list_eqb (py_slice (path_nodes p) (Z.of_nat (fst (i, ori)))
                (Z.of_nat (fst (i, ori)) + Z.of_nat (List.length node_list)))
             node_list = true
    \/ list_eqb (py_slice (path_nodes p)
                   (Z.of_nat (fst (i, ori)) - Z.of_nat (List.length node_list) + 1)
                   (Z.of_nat (fst (i, ori)) + 1))
                (rev node_list) = true).
  { cbn [fst]. destruct H as [[-> L]|[-> L]].
    - left. apply list_eqb_eq. subst i. apply py_slice_middle.
    - right. apply list_eqb_eq.
      replace (Z.of_nat i - Z.of_nat (List.length node_list) + 1)%Z
        with (Z.of_nat (List.length pre)) by lia.
      replace (Z.of_nat i + 1)%Z
        with (Z.of_nat (List.length pre) + Z.of_nat (List.length (rev node_list)))%Z
        by (rewrite length_rev; lia).
      apply py_slice_middle. }
  revert E Go. generalize (@nil string) as f0. generalize (pathsCrossed n) as entries.
  induction entries as [|[path0 occ0] entries IH]; intros f0 E Go; [destruct Go|].
  cbn [for_each fst snd] in E.
  destruct (for_each (occurrence_step pg node_list path0) occ0 f0) as [f1|] eqn:E1;
    cbn [bind] in E; [|discriminate].
  destruct Go as [[= -> ->]|Go]; [|eapply IH; eauto].
  assert (I1 : In path f1) by (eapply occurrences_hit; eauto).
  clear - E I1. revert f1 E I1.
  induction entries as [|[path1 occ1] entries IH]; intros f1 E I1; cbn [for_each] in E.
  - now injection E as <-.
  - cbn [fst snd] in E.
    destruct (for_each (occurrence_step pg node_list path1) occ1 f1) as [f2|] eqn:E2;
      cbn [bind] in E; [|discriminate].
    eapply IH; [exact E|]. eapply occurrences_mono; eauto.
Qed.

Lemma matcher_finds_occurrence_witness : In "p1" ["p1"].
Proof.
  apply (matcher_finds_occurrence ex_pg ["2"] ["p1"] "2"
           (mkNode "2" "GGGGGGGGGG" [("p1", [(1, "+"%char)])] [] [])
           "p1" [(1, "+"%char)] 1 "+"%char
           (mkPath "p1" ["1"; "2"] "ACGTACGTACGGGGGGGGGG") ["1"] []).
  - vm_compute. reflexivity.
  - reflexivity.
  - vm_compute. reflexivity.
  - reflexivity.
  - left. reflexivity.
  - vm_compute. reflexivity.
  - left. split; reflexivity.
Defined.

(** ** Variant bookkeeping *)

Lemma add_variant_get read vs n p b n' p' b' :
  variants_get (add_variant read vs (n, p, b)) n' p' b'
  = if (n' =? n)%string && vpos_eqb p' p && (b' =? b)%string
    then variants_get vs n p b ++ [read]
    else variants_get vs n' p' b'.
Proof.
  unfold variants_get, add_variant.
  destruct (String.eqb_spec n' n) as [->|Nn]; simpl.
  - rewrite dict_get_set_same. simpl.
    destruct (vpos_eqb p' p) eqn:Ep; simpl.
    + apply (@key_eqb_eq vpos PyKey_vpos) in Ep. subst p'.
      rewrite dict_get_set_same. simpl.
      destruct (String.eqb_spec b' b) as [->|Nb].
      * now rewrite dict_get_set_same.
      * now rewrite dict_get_set_other.
    + rewrite dict_get_set_other; [reflexivity|].
      intros ->. assert (T : vpos_eqb p p = true)
        by now apply (@key_eqb_eq vpos PyKey_vpos).
      congruence.
  - now rewrite dict_get_set_other.
Qed.

Lemma add_variants_get read : forall tupls vs n p b,
  (forall x, In x (variants_get vs n p b) ->
             In x (variants_get (fold_left (add_variant read) tupls vs) n p b)) /\
  (In (n, p, b) tupls ->
   In read (variants_get (fold_left (add_variant read) tupls vs) n p b)).
Proof.
  induction tupls as [|[[n0 p0] b0] tupls IH]; intros vs n p b; simpl.
  - split; [auto|tauto].
  - destruct (IH (add_variant read vs (n0, p0, b0)) n p b) as [Keep Hit].
    assert (Step : forall x, In x (variants_get vs n p b) ->
                   In x (variants_get (add_variant read vs (n0, p0, b0)) n p b)).
    { intros x I. rewrite add_variant_get.
      destruct ((n =? n0)%string && vpos_eqb p p0 && (b =? b0)%string) eqn:B; [|exact I].
      apply andb_true_iff in B. destruct B as [B B3].
      apply andb_true_iff in B. destruct B as [B1 B2].
      apply String.eqb_eq in B1, B3. apply (@key_eqb_eq vpos PyKey_vpos) in B2.
      subst. apply in_or_app. now left. }
    split; [intros x I; apply Keep, Step, I|].
    intros [[= -> -> ->]|I]; [|now apply Hit].
    apply Keep. rewrite add_variant_get, !String.eqb_refl.
    replace (vpos_eqb p p) with true
      by (symmetry; now apply (@key_eqb_eq vpos PyKey_vpos)).
    simpl. apply in_or_app. right. now left.
Qed.

(** X18.  When every mate slot of a read holds exactly one alignment, the
    flush files the read's name under the node, position and base of every
    variant of these alignments, and keeps every name filed before; when some
    slot holds more than one alignment, it changes nothing. *)
Theorem flush_files_every_variant slots read vs :
  (forallb (fun kv => one_alignment (snd kv)) slots = true ->
   (forall sq a n p b, In (sq, [a]) slots -> In (n, p, b) (al_variants a) ->
                       In read (variants_get (record_variants slots read vs) n p b)) /\
   (forall x n p b, In x (variants_get vs n p b) ->
                    In x (variants_get (record_variants slots read vs) n p b))) /\
  (forallb (fun kv => one_alignment (snd kv)) slots = false ->
   record_variants slots read vs = vs).
Proof.
  unfold record_variants. split; intro H; rewrite H; [|reflexivity].
  clear H. revert vs.
  induction slots as [|[sq0 l0] slots IH]; intro vs; cbn [fold_left snd].
  - split; [intros ? ? ? ? ? []|auto].
  - set (vs1 := match l0 with
                | a :: _ => fold_left (add_variant read) (al_variants a) vs
                | [] => vs
                end).
    destruct (IH vs1) as [Hit Keep].
    assert (Keep1 : forall x n p b, In x (variants_get vs n p b) ->
                                    In x (variants_get vs1 n p b)).
    { intros x n p b I. unfold vs1. destruct l0 as [|a l0]; [exact I|].
      now apply (proj1 (add_variants_get read (al_variants a) vs n p b)). }
    split.
    + intros sq a n p b [[= -> ->]|I] Iv; [|eapply Hit; eauto].
      apply Keep. unfold vs1.
      now apply (proj2 (add_variants_get read (al_variants a) vs n p b)).
    + intros x n p b I. apply Keep, Keep1, I.
Qed.

Lemma flush_files_every_variant_witness :
  In "r1" (variants_get
             (record_variants [("ACGTACGTAC", [ex_alignment1])] "r1" [])
             "1" (AtBase 9) "T").
Proof.
  apply (proj1 (proj1 (flush_files_every_variant
                         [("ACGTACGTAC", [ex_alignment1])] "r1" []) eq_refl)
           "ACGTACGTAC" ex_alignment1).
  - left. reflexivity.
  - left. reflexivity.
Defined.

(** ** Streaming parser, continued *)

(** X19.  Over a stream read without error, a read/mate slot is present in
    the retained reads exactly when it was there at the start or some record
    of that read name and sequence is mapped and has the first alignment
    returned for it at or above the threshold; no slot is ever left empty. *)
Theorem stream_retention pg fuel thr lines st st' :
  nonempty_slots (st_reads st) = true ->
  for_each (parse_record pg fuel thr) lines st = Ok st' ->
  nonempty_slots (st_reads st') = true /\
  forall n s,
    retained (st_reads st') n s = true <->
    retained (st_reads st) n s = true \/
    exists aln, In aln lines /\ aln_name aln = n /\ aln_sequence aln = s /\
                passes pg fuel thr aln.
Proof. apply retained_iff_some_record_passes. Qed.

Lemma stream_retention_witness :
  nonempty_slots [("r1", [("ACGTACGTAC", [ex_alignment1])])] = true /\
  forall n s,
    retained [("r1", [("ACGTACGTAC", [ex_alignment1])])] n s = true <->
    retained [] n s = true \/
    exists aln, In aln [ex_read1] /\ aln_name aln = n /\ aln_sequence aln = s /\
                passes ex_pg 1 (9 # 10)%Q aln.
Proof.
  apply (stream_retention ex_pg 1 (9 # 10)%Q [ex_read1] initial_state
           (mkParseState [("r1", [("ACGTACGTAC", [ex_alignment1])])] [] "r1" (Some "r1"))).
  - reflexivity.
  - vm_compute. reflexivity.
Defined.

(** X20.  When the last line of the stream is a mapped record, the block
    written after the loop does nothing: the reads and variants returned are
    the ones the loop left. *)
Theorem end_of_stream_block_idle pg fuel thr lines aln reads variants :
  aln_subpath aln <> None ->
  parse_vgmpmap pg fuel thr (lines ++ [aln]) = Ok (reads, variants) ->
  exists st,
    for_each (parse_record pg fuel thr) (lines ++ [aln]) initial_state = Ok st /\
    reads = st_reads st /\ variants = st_variants st.
Proof. apply final_flush_idle. Qed.

Lemma end_of_stream_block_idle_witness :
  exists st,
    for_each (parse_record ex_pg 1 (9 # 10)%Q) ([] ++ [ex_read1]) initial_state = Ok st /\
    [("r1", [("ACGTACGTAC", [ex_alignment1])])] = st_reads st /\
    [] = st_variants st.
Proof.
  apply (end_of_stream_block_idle ex_pg 1 (9 # 10)%Q [] ex_read1).
  - discriminate.
  - vm_compute. reflexivity.
Defined.

(** ** Best-path resolver: what is left in the frontier *)

Section PopFacts.
Context {K V : Type} `{PyKey K}.

Lemma dict_pop_keys (k : K) (d : dict K V) x :
  In x (dict_keys (dict_pop k d)) -> In x (dict_keys d).
Proof.
  unfold dict_keys. induction d as [|[k' v'] d IH]; simpl; [tauto|].
  destruct (key_eqb k k'); simpl; [now right|].
  intros [E|I]; [now left|right; auto].
Qed.

Lemma dict_pop_keys_NoDup (k : K) (d : dict K V) :
  NoDup (dict_keys d) -> NoDup (dict_keys (dict_pop k d)).
Proof.
  unfold dict_keys. induction d as [|[k' v'] d IH]; simpl; intro N; [constructor|].
  inversion N as [|? ? Hk Nd]; subst.
  destruct (key_eqb k k'); simpl; [exact Nd|].
  constructor; [|now apply IH]. intro I. apply Hk. eapply dict_pop_keys; eauto.
Qed.

Lemma dict_get_pop_same (k : K) (d : dict K V) :
  NoDup (dict_keys d) -> dict_get k (dict_pop k d) = None.
Proof.
  unfold dict_keys. induction d as [|[k' v'] d IH]; simpl; intro N; [reflexivity|].
  inversion N as [|? ? Hk Nd]; subst.
  destruct (key_eqb k k') eqn:E; simpl.
  - apply key_eqb_eq in E. subst k'.
    destruct (dict_get k d) as [v|] eqn:G; [|reflexivity].
    exfalso. apply Hk. apply dict_get_keys. eauto.
  - rewrite E. now apply IH.
Qed.
End PopFacts.

Lemma relax_nonempty child stats sc ending p : relax child stats sc ending p <> [].
Proof.
  destruct ending as [|best rest]; [discriminate|].
  rewrite relax_rule. cbv zeta.
  destruct (_ <? _)%Z; [discriminate|]. destruct (_ =? _)%Z; discriminate.
Qed.

Lemma relax_all_nonempty child stats sc prefixes : forall ending,
  ending <> [] -> fold_left (relax child stats sc) prefixes ending <> [].
Proof.
  induction prefixes as [|p prefixes IH]; intros ending N; simpl; [exact N|].
  apply IH, relax_nonempty.
Qed.

(** The successors of node [k] on an array in topological order: the queue is
    left alone, keys stay distinct and in range, nothing changes at or below
    [k], and every later index keeps a non-empty list. *)
Lemma visit_children_walked subpath k m : forall children (cp : Frontier),
  k + S m = List.length subpath ->
  (forall c, In c children -> k < c < List.length subpath) ->
  NoDup (dict_keys cp) ->
  (forall j l, dict_get j cp = Some l -> j < List.length subpath) ->
  (forall j, k <= j < List.length subpath ->
             exists l, dict_get j cp = Some l /\ l <> []) ->
  exists cp',
    for_each (visit_child subpath k) children (seq (S k) m, cp) = Ok (seq (S k) m, cp') /\
    NoDup (dict_keys cp') /\
    (forall j l, dict_get j cp' = Some l -> j < List.length subpath) /\
    (forall j, j <= k -> dict_get j cp' = dict_get j cp) /\
    (forall j, k <= j < List.length subpath ->
               exists l, dict_get j cp' = Some l /\ l <> []).
Proof.
  induction children as [|c children IH]; intros cp Hn Hc Nk Rg Hk.
  - exists cp. repeat split; auto.
  - assert (Rc : k < c < List.length subpath) by (apply Hc; now left).
    cbn [for_each]. unfold visit_child at 1.
    rewrite py_in_seq by lia.
    destruct (nth_error subpath c) as [sp|] eqn:Ec.
    2:{ apply nth_error_None in Ec. lia. }
    cbn [of_option bind]. replace (c =? k) with false by (symmetry; apply Nat.eqb_neq; lia).
    destruct (Hk c) as [lc [Gc Nc]]; [lia|].
    destruct (Hk k) as [lk [Gk Nlk]]; [lia|].
    unfold dict_mem. unfold Frontier in *. rewrite Gc, Gk. cbn [of_option bind].
    rewrite Gc. cbn [get_or].
    set (cp1 := dict_set c (fold_left (relax c (subpath_stats sp) (own_score sp)) lk lc) cp).
    destruct (IH cp1) as [cp' [E' [N' [Rg' [Low' High']]]]]; auto.
    + intros c' I. apply Hc. now right.
    + unfold cp1. now apply dict_set_keys_NoDup.
    + intros j l. unfold cp1. destruct (Nat.eq_dec j c) as [->|Ne]; [lia|].
      rewrite dict_get_set_other by exact Ne. apply Rg.
    + intros j Hj. unfold cp1. destruct (Nat.eq_dec j c) as [->|Ne].
      * rewrite dict_get_set_same. eexists. split; [reflexivity|].
        now apply relax_all_nonempty.
      * rewrite dict_get_set_other by exact Ne. now apply Hk.
    + exists cp'. split; [exact E'|]. split; [exact N'|]. split; [exact Rg'|].
      split; [|exact High'].
      intros j Hj. rewrite Low' by exact Hj. unfold cp1.
      apply dict_get_set_other. lia.
Qed.

Lemma walk_walked subpath seq_len :
  topo_ordered subpath = true ->
  forall m k cp,
    k + m = List.length subpath ->
    walked subpath seq_len k cp ->
    exists fr, walk m subpath seq_len (seq k m) cp = Ok fr /\
               walked subpath seq_len (List.length subpath) fr.
Proof.
  intro T. induction m as [|m IH]; intros k cp Hn W.
  - exists cp. split; [reflexivity|]. now replace (List.length subpath) with k by lia.
  - destruct W as [Nk [Rg [High [Low Sinks]]]]. cbn [seq walk].
    destruct (nth_error subpath k) as [sp|] eqn:Ek.
    2:{ apply nth_error_None in Ek. lia. }
    cbn [of_option bind].
    destruct (High k) as [lk [Gk Nlk]]; [lia|].
    assert (Stay : (sp_next sp = None \/
                    forallb (fun i => (pf_len i =? Z.of_nat seq_len)%Z) lk = true) ->
                   walked subpath seq_len (S k) cp).
    { intro Ht. split; [exact Nk|]. split; [exact Rg|]. split; [|split].
      - intros j Hj. apply High. lia.
      - intros j l Hj G. destruct (Nat.eq_dec j k) as [->|Ne]; [|apply Low; [lia|exact G]].
        unfold Frontier in *. rewrite Gk in G. injection G as <-.
        split; [exact Nlk|]. exists sp. now split.
      - intros j sp' Hj E' N'. destruct (Nat.eq_dec j k) as [->|Ne]; [eauto|].
        eapply Sinks; eauto. lia. }
    destruct (sp_next sp) as [children|] eqn:En.
    2:{ apply IH; [lia|]. apply Stay. now left. }
    unfold Frontier in *. rewrite Gk. cbn [of_option bind].
    destruct (forallb (fun i => (pf_len i =? Z.of_nat seq_len)%Z) lk) eqn:Full.
    { apply IH; [lia|]. apply Stay. now right. }
    destruct (visit_children_walked subpath k m children cp)
      as [cp' [E' [N' [Rg' [Low' High']]]]]; auto.
    { intros c I. eapply topo_ordered_spec; eauto. }
    unfold Frontier in *. rewrite E'. cbn [bind].
    apply IH; [lia|]. split; [now apply dict_pop_keys_NoDup|]. split; [|split; [|split]].
    + intros j l G. destruct (Nat.eq_dec j k) as [->|Ne]; [lia|].
      rewrite dict_get_pop_other in G by exact Ne. eapply Rg'; eauto.
    + intros j Hj. rewrite dict_get_pop_other by lia. apply High'. lia.
    + intros j l Hj G. destruct (Nat.eq_dec j k) as [->|Ne].
      * rewrite dict_get_pop_same in G by exact N'. discriminate.
      * rewrite dict_get_pop_other in G by exact Ne.
        rewrite Low' in G by lia. apply Low; [lia|exact G].
    + intros j sp' Hj Ej Nj. destruct (Nat.eq_dec j k) as [->|Ne].
      * rewrite Ek in Ej. injection Ej as <-. congruence.
      * rewrite dict_get_pop_other by exact Ne. rewrite Low' by lia.
        eapply Sinks; eauto. lia.
Qed.

Lemma seed_walked subpath seq_len : walked subpath seq_len 0 (snd (seed subpath)).
Proof.
  split; [|split; [|split; [|split]]].
  - rewrite seed_spec. simpl. unfold dict_keys, enumerate.
    rewrite map_map. simpl.
    assert (K : forall (l : list Subpath) start,
               map (fun x => fst x) (combine (seq start (List.length l)) l)
               = seq start (List.length l)).
    { induction l as [|x l IHl]; intro start; simpl; [reflexivity|]. now rewrite IHl. }
    rewrite K. apply seq_NoDup.
  - intros j l G. destruct (Nat.lt_ge_cases j (List.length subpath)) as [Lt|Ge]; [exact Lt|].
    rewrite seed_spec in G. simpl snd in G. unfold enumerate in G.
    match type of G with
    | ?t = _ => assert (U : t = None)
    end.
    { apply (get_unnumbered (fun i sp => [own_prefix i sp]) subpath 0 j).
      right. simpl. exact Ge. }
    rewrite U in G. discriminate.
  - intros j Hj. destruct (nth_error subpath j) as [sp|] eqn:Ej.
    + exists [own_prefix j sp]. split; [now apply seed_get|discriminate].
    + apply nth_error_None in Ej. lia.
  - intros j l Hj. lia.
  - intros j sp Hj. lia.
Qed.

(** X21.  On an array in topological order the walk leaves distinct keys;
    every subpath without a ['next'] key is one of them; and every list left
    is non-empty and belongs to a subpath that has no ['next'] key or whose
    prefixes all cover the whole read. *)
Theorem sinks_are_kept aln subpath :
  aln_subpath aln = Some subpath -> topo_ordered subpath = true ->
  exists fr,
    BFS_frontier (List.length subpath) aln = Ok fr /\
    NoDup (dict_keys fr) /\
    (forall i sp, nth_error subpath i = Some sp -> sp_next sp = None ->
                  exists l, dict_get i fr = Some l /\ l <> []) /\
    (forall idx l, dict_get idx fr = Some l ->
                   l <> [] /\ terminal subpath (str_len (aln_sequence aln)) idx l).
Proof.
  intros Es T. unfold BFS_frontier. rewrite Es. cbn [of_option bind].
  pose proof (seed_walked subpath (str_len (aln_sequence aln))) as W0.
  rewrite seed_spec in *. cbn [snd] in W0.
  destruct (walk_walked subpath (str_len (aln_sequence aln)) T
              (List.length subpath) 0 _ eq_refl W0) as [fr [E [Nk [Rg [_ [Low Sinks]]]]]].
  exists fr. split; [exact E|]. split; [exact Nk|]. split.
  - intros i sp Ei Ni.
    assert (Hi : i < List.length subpath) by (apply nth_error_Some; congruence).
    destruct (Sinks i sp Hi Ei Ni) as [l G]. exists l. split; [exact G|].
    now apply (Low i l Hi G).
  - intros idx l G. apply Low; [|exact G]. eapply Rg; eauto.
Qed.

Lemma sinks_are_kept_witness :
  exists fr,
    BFS_frontier 3 ex_fork = Ok fr /\
    NoDup (dict_keys fr) /\
    (forall i sp, nth_error (get_or (aln_subpath ex_fork) []) i = Some sp ->
                  sp_next sp = None ->
                  exists l, dict_get i fr = Some l /\ l <> []) /\
    (forall idx l, dict_get idx fr = Some l ->
                   l <> [] /\
                   terminal (get_or (aln_subpath ex_fork) [])
                            (str_len (aln_sequence ex_fork)) idx l).
Proof.
  exact (sinks_are_kept ex_fork (get_or (aln_subpath ex_fork) []) eq_refl eq_refl).
Defined.

(** ** Abundance aggregator: substitutions per node *)

Lemma subst_node_fold node : forall ps subst k,
  dict_get node subst = positive_count k ->
  dict_get node (fold_left (subst_node_step node) ps subst)
  = positive_count (k + List.length (filter counted_position ps)).
Proof.
  induction ps as [|p ps IH]; intros subst k E; simpl.
  - now rewrite Nat.add_0_r.
  - unfold subst_node_step at 2. destruct (counted_position p); simpl.
    + replace (k + S (List.length (filter counted_position ps)))
        with (S k + List.length (filter counted_position ps)) by lia.
      apply IH. rewrite E. destruct k; simpl; now rewrite dict_get_set_same.
    + now apply IH.
Qed.

Lemma subst_node_other node n : n <> node -> forall ps subst,
  dict_get n (fold_left (subst_node_step node) ps subst) = dict_get n subst.
Proof.
  intros Ne. induction ps as [|p ps IH]; intro subst; simpl; [reflexivity|].
  rewrite IH. unfold subst_node_step.
  destruct (counted_position p); [|reflexivity].
  destruct (dict_get node subst); now apply dict_get_set_other.
Qed.

Lemma substitutions_untouched n : forall (vs : Variants) subst,
  ~ In n (dict_keys vs) ->
  dict_get n
    (fold_left
       (fun subst kv => fold_left (subst_node_step (fst kv)) (dict_keys (snd kv)) subst)
       vs subst)
  = dict_get n subst.
Proof.
  induction vs as [|[k0 v0] vs IH]; intros subst Hn; simpl; [reflexivity|].
  simpl in Hn. rewrite IH by tauto.
  apply subst_node_other. intros ->. tauto.
Qed.

(** X22.  With one entry per node in [variants], a node is a key of [subst]
    exactly when a position without underscore is recorded for it, and its
    value is the number of these positions. *)
Theorem substitutions_per_node (variants : Variants) n :
  NoDup (dict_keys variants) ->
  dict_get n (node_substitutions variants)
  = positive_count (counted_positions (get_or (dict_get n variants) [])).
Proof.
  unfold node_substitutions.
  assert (G : forall (vs : Variants) subst,
             NoDup (dict_keys vs) -> dict_get n subst = None ->
             dict_get n
               (fold_left
                  (fun subst kv =>
                     fold_left (subst_node_step (fst kv)) (dict_keys (snd kv)) subst)
                  vs subst)
             = positive_count (counted_positions (get_or (dict_get n vs) []))).
  { induction vs as [|[k0 v0] vs IH]; intros subst Nd E; simpl.
    - exact E.
    - simpl in Nd. inversion Nd as [|? ? Hk Nd']; subst.
      destruct (n =? k0)%string eqn:Ek.
      + apply String.eqb_eq in Ek. subst k0.
        rewrite substitutions_untouched by exact Hk.
        apply (subst_node_fold n (dict_keys v0) subst 0). exact E.
      + apply String.eqb_neq in Ek. apply IH; [exact Nd'|].
        rewrite subst_node_other by exact Ek. exact E. }
  intro Nd. now apply G.
Qed.

Lemma substitutions_per_node_witness :
  dict_get "1"
    (node_substitutions
       [("1", [(AtBase 3, [("A", ["r1"])]); (Inserted "8-9_0", [("T", ["r1"])]);
               (AtBase 5, [("C", ["r2"])])]);
        ("2", [(Inserted "0-1_0", [("G", ["r2"])])])])
  = Some 2.
Proof.
  apply (substitutions_per_node
           [("1", [(AtBase 3, [("A", ["r1"])]); (Inserted "8-9_0", [("T", ["r1"])]);
                   (AtBase 5, [("C", ["r2"])])]);
            ("2", [(Inserted "0-1_0", [("G", ["r2"])])])] "1").
  simpl. repeat constructor; simpl; intuition discriminate.
Defined.

(** ** Abundance aggregator: per-gene figures *)

Lemma true_div_ratio m a q :
  (0 < a)%Z -> true_div m a = Ok q ->
  (Qeq q (0 # 1) <-> m = 0%Z) /\ (Qeq q (1 # 1) <-> m = a) /\ ((0 <= m)%Z -> Qle (0 # 1) q).
Proof.
  intros Ha E. unfold true_div in E.
  destruct (a =? 0)%Z; [discriminate|]. injection E as <-.
  destruct a as [|p|p]; try lia.
  assert (Eq : Qeq (Qred (Qdiv (inject_Z m) (inject_Z (Z.pos p)))) (m # p)).
  { eapply Qeq_trans; [apply Qred_correct|]. apply Qeq_sym, Qmake_Qdiv. }
  split; [|split].
  - split; intro H.
    + assert (H' : Qeq (m # p) (0 # 1)) by (eapply Qeq_trans; [apply Qeq_sym, Eq|exact H]).
      unfold Qeq in H'. simpl in H'. lia.
    + subst m. eapply Qeq_trans; [exact Eq|]. reflexivity.
  - split; intro H.
    + assert (H' : Qeq (m # p) (1 # 1)) by (eapply Qeq_trans; [apply Qeq_sym, Eq|exact H]).
      unfold Qeq in H'. simpl in H'. lia.
    + subst m. eapply Qeq_trans; [exact Eq|]. unfold Qeq. simpl. lia.
  - intro Hm. eapply Qle_trans; [|apply Qle_lteq; right; apply Qeq_sym, Eq].
    unfold Qle. simpl. lia.
Qed.

Lemma count_positive_le l : count_positive l <= List.length l.
Proof. apply filter_length_le. Qed.

Lemma count_positive_none l :
  count_positive l = 0 <-> forall a, In a l -> Qle a (0 # 1).
Proof.
  unfold count_positive. induction l as [|x l IH]; simpl.
  - split; [intros _ a []|reflexivity].
  - destruct (Qle_bool x (0 # 1)) eqn:Ex; simpl.
    + rewrite IH. apply Qle_bool_iff in Ex. split.
      * intros H a [<-|I]; auto.
      * intros H a I. apply H. now right.
    + split; [discriminate|]. intro H.
      assert (Hx : Qle x (0 # 1)) by (apply H; now left).
      apply Qle_bool_iff in Hx. congruence.
Qed.

Lemma count_positive_all l :
  count_positive l = List.length l <-> forall a, In a l -> Qlt (0 # 1) a.
Proof.
  induction l as [|x l IH].
  - split; [intros _ a []|reflexivity].
  - pose proof (count_positive_le l) as Le.
    unfold count_positive in *. simpl.
    destruct (Qle_bool x (0 # 1)) eqn:Ex; simpl.
    + split; [lia|]. intro H.
      assert (Hx : Qlt (0 # 1) x) by (apply H; now left).
      apply Qle_bool_iff in Ex. exfalso. now apply (Qlt_not_le _ _ Hx).
    + split.
      * intros E a [<-|I].
        -- apply Qnot_le_lt. intro Hx. apply Qle_bool_iff in Hx. congruence.
        -- apply IH; [lia|exact I].
      * intro H. f_equal. apply IH. intros a I. apply H. now right.
Qed.

(** X23.  The coverage of a gene is a fraction between 0 and 1; it is 0
    exactly when no node of the gene has a positive abundance and 1 exactly
    when every node has one.  The normalized substitution total is not
    negative. *)
Theorem gene_coverage pg d_genes subst gene g s :
  gene_stats pg d_genes subst gene g = Ok s ->
  Qle (0 # 1) (coverage s) /\ Qle (coverage s) (1 # 1) /\
  (Qeq (coverage s) (0 # 1) <-> forall n a, In (n, a) (nodes_abund g) -> Qle a (0 # 1)) /\
  (Qeq (coverage s) (1 # 1) <-> forall n a, In (n, a) (nodes_abund g) -> Qlt (0 # 1) a) /\
  Qle (0 # 1) (total_norm s).
Proof.
  unfold gene_stats. intro E.
  destruct (dict_get gene d_genes) as [members|]; cbn [of_option bind] in E; [|discriminate].
  destruct (hd_error members) as [first|]; cbn [of_option bind] in E; [|discriminate].
  destruct (get_path pg first) as [p|]; cbn [bind] in E; [|discriminate].
  destruct (true_div _ (Z.of_nat (str_len (path_sequence p)))) as [norm|] eqn:En;
    cbn [bind] in E; [|discriminate].
  destruct (true_div _ (Z.of_nat (List.length (map snd (nodes_abund g))))) as [cov|] eqn:Ec;
    cbn [bind] in E; [|discriminate].
  injection E as <-. cbn [coverage total_norm].
  assert (Hl : (0 < Z.of_nat (List.length (map snd (nodes_abund g))))%Z).
  { unfold true_div in Ec.
    destruct (Z.of_nat (List.length (map snd (nodes_abund g))) =? 0)%Z eqn:Z0;
      [discriminate|]. apply Z.eqb_neq in Z0. lia. }
  pose proof (count_positive_le (map snd (nodes_abund g))) as Le.
  destruct (true_div_ratio _ _ _ Hl Ec) as [Zero [One _]].
  destruct (true_div_unit _ _ _ (conj (Nat2Z.is_nonneg _) (proj1 (Nat2Z.inj_le _ _) Le)) Ec)
    as [Lo Hi].
  assert (Vals : forall (P : Q -> Prop),
             (forall a, In a (map snd (nodes_abund g)) -> P a) <->
             (forall n a, In (n, a) (nodes_abund g) -> P a)).
  { intro P. split.
    - intros H n a I. apply H. apply in_map_iff. now exists (n, a).
    - intros H a I. apply in_map_iff in I. destruct I as [[n a'] [<- I]]. now apply (H n). }
  split; [exact Lo|]. split; [exact Hi|]. split; [|split].
  - rewrite Zero, <- Vals, <- count_positive_none. lia.
  - rewrite One, <- Vals, <- count_positive_all. lia.
  - unfold true_div in En.
    destruct (Z.of_nat (str_len (path_sequence p)) =? 0)%Z eqn:Z0; [discriminate|].
    apply Z.eqb_neq in Z0.
    assert (Hp : (0 < Z.of_nat (str_len (path_sequence p)))%Z) by lia.
    assert (En' : true_div
                    (Z.of_nat
                       (fold_left (fun t n => t + get_or (dict_get n subst) 0)
                                  (split_on "-" gene) 0))
                    (Z.of_nat (str_len (path_sequence p))) = Ok norm).
    { unfold true_div. apply Z.eqb_neq in Z0. now rewrite Z0. }
    apply (true_div_ratio _ _ _ Hp En'). lia.
Qed.

Lemma gene_coverage_witness :
  Qle (0 # 1) (1 # 2) /\ Qle (1 # 2) (1 # 1) /\
  (Qeq (1 # 2) (0 # 1) <->
   forall n a, In (n, a) [("2", (0 # 1)%Q); ("1", (2 # 1)%Q)] -> Qle a (0 # 1)) /\
  (Qeq (1 # 2) (1 # 1) <->
   forall n a, In (n, a) [("2", (0 # 1)%Q); ("1", (2 # 1)%Q)] -> Qlt (0 # 1) a) /\
  Qle (0 # 1) (1 # 20).
Proof.
  apply (gene_coverage ex_pg ex_d_genes [("1", 1)] "2-1" ex_gene_abund ex_gene_stat).
  reflexivity.
Defined.

(** ** Abundance aggregator: the genes of [d_abund] *)

Lemma dict_set_keys_In {K V : Type} `{PyKey K} (k n : K) (v : V) (d : dict K V) :
  In n (dict_keys (dict_set k v d)) <-> n = k \/ In n (dict_keys d).
Proof.
  rewrite dict_set_keys. unfold dict_mem.
  destruct (dict_get k d) as [v0|] eqn:G.
  - split; [tauto|]. intros [->|I]; [|exact I].
    apply dict_get_keys. now exists v0.
  - rewrite in_app_iff. simpl. intuition.
Qed.

Lemma dict_set_keys_same {K V : Type} `{PyKey K} (k : K) (v v0 : V) (d : dict K V) :
  dict_get k d = Some v0 -> dict_keys (dict_set k v d) = dict_keys d.
Proof. intro G. rewrite dict_set_keys. unfold dict_mem. now rewrite G. Qed.

Lemma init_gene_nodes pg gene g pseq :
  init_gene pg gene = Ok (g, pseq) -> nodes_of_signature gene g.
Proof.
  unfold init_gene. intro E.
  match type of E with
  | context [for_each ?f ?l ?s] =>
      destruct (for_each f l s) as [[abund0 pseq0]|] eqn:F; cbn [bind] in E; [|discriminate]
  end.
  injection E as <- <-. unfold nodes_of_signature. cbn [nodes_abund].
  assert (G : forall l (a0 : dict string Q) (p0 : string) a1 p1,
             for_each
               (fun st n =>
                  let '(abund, pseq) := st in
                  node <- get_node pg n ;;
                  Ok (dict_set n (0 # 1)%Q abund, (pseq ++ node_sequence node)%string))
               l (a0, p0) = Ok (a1, p1) ->
             forall n, In n (dict_keys a1) <-> In n (dict_keys a0) \/ In n l).
  { induction l as [|x l IH]; intros a0 p0 a1 p1 E n; cbn [for_each] in E.
    - injection E as <- <-. simpl. tauto.
    - destruct (get_node pg x) as [node|]; cbn [bind] in E; [|discriminate].
      rewrite (IH _ _ _ _ E n), dict_set_keys_In. simpl. intuition. }
  intro n. rewrite (G _ _ _ _ _ F n). simpl. tauto.
Qed.

Lemma abund_update_keys (nodes : list (string * Q)) : forall (abund0 abund : dict string Q),
  for_each
    (fun abund i =>
       a <- of_option KeyError (dict_get (fst i) abund) ;;
       Ok (dict_set (fst i) (qadd a (snd i)) abund))
    nodes abund0 = Ok abund ->
  dict_keys abund = dict_keys abund0.
Proof.
  induction nodes as [|i nodes IH]; intros abund0 abund E; cbn [for_each] in E.
  - now injection E as <-.
  - destruct (dict_get (fst i) abund0) as [a|] eqn:G; cbn [of_option bind] in E;
      [|discriminate].
    rewrite (IH _ _ E). now apply (dict_set_keys_same _ _ a).
Qed.

Lemma unique_match_nodes pg st gene mate align st' :
  (forall gn g, In (gn, g) (d_abund st) -> nodes_of_signature gn g) ->
  unique_match pg st gene mate align = Ok st' ->
  forall gn g, In (gn, g) (d_abund st') -> nodes_of_signature gn g.
Proof.
  intros Inv E. unfold unique_match in E.
  destruct (match dict_get gene (d_abund st) with
            | Some _ => Ok (d_abund st, path_seq st)
            | None => '(g, pseq) <- init_gene pg gene ;;
                      Ok (dict_set gene g (d_abund st), Some pseq)
            end) as [[d1 ps1]|] eqn:E1; cbn [bind] in E; [|discriminate].
  assert (Inv1 : forall gn g, In (gn, g) d1 -> nodes_of_signature gn g).
  { destruct (dict_get gene (d_abund st)) as [g0|].
    - injection E1 as <- <-. exact Inv.
    - destruct (init_gene pg gene) as [[g0 pseq0]|] eqn:Ei; cbn [bind] in E1;
        [|discriminate].
      injection E1 as <- <-. intros gn g I.
      apply dict_set_In in I. destruct I as [[-> ->]|I]; [|now apply Inv].
      eapply init_gene_nodes; eauto. }
  destruct (dict_get gene d1) as [g1|] eqn:G1; cbn [of_option bind] in E; [|discriminate].
  destruct ps1 as [pseq|]; cbn [of_option bind] in E; [|discriminate].
  destruct (true_div _ _) as [inc|]; cbn [bind] in E; [|discriminate].
  destruct (for_each _ (al_nodes align) (nodes_abund g1)) as [abund1|] eqn:Ea;
    cbn [bind] in E; [|discriminate].
  injection E as <-. cbn [d_abund]. intros gn g I.
  apply dict_set_In in I. destruct I as [[-> ->]|I]; [|now apply Inv1].
  unfold nodes_of_signature. cbn [nodes_abund].
  rewrite (abund_update_keys _ _ _ Ea).
  apply (Inv1 gene g1). now apply dict_get_In.
Qed.

Lemma process_pair_nodes pg d_idt read st slot st' :
  (forall gn g, In (gn, g) (d_abund st) -> nodes_of_signature gn g) ->
  process_pair pg d_idt read st slot = Ok st' ->
  forall gn g, In (gn, g) (d_abund st') -> nodes_of_signature gn g.
Proof.
  intros Inv E. unfold process_pair in E. destruct slot as [mate alignments].
  destruct (1 <? List.length alignments).
  { injection E as <-. exact Inv. }
  destruct (hd_error alignments) as [align|]; cbn [of_option bind] in E; [|discriminate].
  destruct (get_matching_path pg _) as [found|]; cbn [bind] in E; [|discriminate].
  destruct (map_result _ found) as [genes|]; cbn [bind] in E; [|discriminate].
  destruct (dedup genes) as [|gene [|gene2 rest]].
  - destruct (hd_error _) as [first_node|]; cbn [of_option bind] in E; [|discriminate].
    destruct (get_node pg first_node) as [n|]; cbn [bind] in E; [|discriminate].
    destruct (hd_error _) as [crossing|]; cbn [of_option bind] in E; [|discriminate].
    destruct (idt_cluster _) as [cluster|]; cbn [of_option bind] in E; [|discriminate].
    injection E as <-. exact Inv.
  - eapply unique_match_nodes; eauto.
  - injection E as <-. exact Inv.
Qed.

(** X24.  Every gene the loop over reads leaves in [d_abund] has one node
    counter for each node its signature names and no other, so at least one;
    the coverage of the gene can therefore be computed. *)
Theorem counted_genes_have_nodes pg d_idt reads st gene g :
  read_loop pg d_idt reads = Ok st -> In (gene, g) (d_abund st) ->
  nodes_of_signature gene g /\ nodes_abund g <> [] /\
  exists cov,
    true_div (Z.of_nat (count_positive (map snd (nodes_abund g))))
             (Z.of_nat (List.length (map snd (nodes_abund g)))) = Ok cov.
Proof.
  intros E I.
  assert (Sig : nodes_of_signature gene g).
  { revert gene g I. unfold read_loop in E.
    eapply (for_each_inv
              (fun st => forall gn g, In (gn, g) (d_abund st) -> nodes_of_signature gn g));
      [| |exact E].
    - intros st0 entry st1 _ Inv E1. unfold process_read in E1.
      eapply (for_each_inv
                (fun st => forall gn g, In (gn, g) (d_abund st) -> nodes_of_signature gn g));
        [| exact Inv |exact E1].
      intros st2 slot st3 _ Inv2 E2. eapply process_pair_nodes; eauto.
    - intros gn g0 []. }
  assert (Ne : nodes_abund g <> []).
  { intro E0. pose proof (split_on_nonempty "-" gene) as Hs.
    destruct (split_on "-" gene) as [|n l] eqn:Es; [now apply Hs|].
    assert (Hn : In n (dict_keys (nodes_abund g))) by (apply Sig; rewrite Es; now left).
    rewrite E0 in Hn. exact Hn. }
  split; [exact Sig|]. split; [exact Ne|].
  apply true_div_ok. rewrite length_map. destruct (nodes_abund g); [congruence|]. simpl. lia.
Qed.

Lemma counted_genes_have_nodes_witness :
  nodes_of_signature "2-1" ex_gene_abund /\ nodes_abund ex_gene_abund <> [] /\
  exists cov,
    true_div (Z.of_nat (count_positive (map snd (nodes_abund ex_gene_abund))))
             (Z.of_nat (List.length (map snd (nodes_abund ex_gene_abund)))) = Ok cov.
Proof.
  apply (counted_genes_have_nodes ex_pg ex_idt (reads_of ex_lines)
           (mkAbundState
              [("2-1", ex_gene_abund); ("3", mkGeneAbund (1 # 1)%Q [("3", (1 # 1)%Q)] [(0, 1)])]
              (Some "TTTTT") 0 [] [] [])).
  - vm_compute. reflexivity.
  - left. reflexivity.
Defined.

(** ** Abundance aggregator: the strain table *)

Lemma dedup_In x : forall l, In x (dedup l) <-> In x l.
Proof.
  induction l as [|y l IH]; simpl; [tauto|].
  rewrite filter_In, IH, negb_true_iff.
  destruct (x =? y)%string eqn:E.
  - apply String.eqb_eq in E. subst. tauto.
  - apply String.eqb_neq in E. intuition congruence.
Qed.

Lemma dedup_NoDup : forall l, NoDup (dedup l).
Proof.
  induction l as [|y l IH]; simpl; constructor.
  - rewrite filter_In, String.eqb_refl. intros [_ H]. discriminate.
  - now apply NoDup_filter.
Qed.

Lemma strain_of_names : forall members fields,
  map_result strain_of members = Ok fields -> fields = strain_names members.
Proof.
  induction members as [|g members IH]; intros fields E; cbn [map_result] in E.
  - now injection E as <-.
  - unfold strain_of at 1 in E.
    destruct (nth_error (split_on "|" g) 3) as [f|] eqn:N; cbn [of_option bind] in E;
      [|discriminate].
    destruct (map_result strain_of members) as [fs|]; cbn [bind] in E; [|discriminate].
    injection E as <-. simpl. rewrite (IH fs eq_refl).
    f_equal. symmetry. now apply nth_error_nth.
Qed.

Lemma copy_field_spec i f : copy_field i = Ok f -> f = last_but_one i.
Proof.
  unfold copy_field, last_but_one.
  destruct (List.length (split_on "|" i) <? 2); [discriminate|].
  destruct (nth_error _ _) as [x|] eqn:N; [|discriminate].
  intro E. injection E as <-. symmetry. now apply nth_error_nth.
Qed.

Lemma count_copies_number e : forall members c,
  count_copies e members = Ok c -> c = copy_number e members.
Proof.
  unfold count_copies, copy_number.
  assert (G : forall members c0 c,
             for_each
               (fun c i => f <- copy_field i ;; Ok (if (f =? e)%string then S c else c))
               members c0 = Ok c ->
             c = c0 + List.length (filter (fun i => (last_but_one i =? e)%string) members)).
  { induction members as [|i members IH]; intros c0 c E; cbn [for_each] in E.
    - injection E as <-. simpl. lia.
    - destruct (copy_field i) as [f|] eqn:F; cbn [bind] in E; [|discriminate].
      apply copy_field_spec in F. subst f. rewrite (IH _ _ E). simpl.
      destruct (last_but_one i =? e)%string; simpl; lia. }
  intros members c E. now rewrite (G _ _ _ E).
Qed.

Lemma hist_step_stat single acc item :
  acc_stat (hist_step single acc item) = acc_stat acc.
Proof. destruct item as [nb x]. reflexivity. Qed.

Lemma count_gene_stat g c single acc :
  acc_stat (count_gene g c single acc) = bump g c (acc_stat acc).
Proof.
  unfold count_gene.
  assert (G : forall items a, acc_stat (fold_left (hist_step single) items a) = acc_stat a).
  { induction items as [|i items IH]; intro a; simpl; [reflexivity|].
    now rewrite IH, hist_step_stat. }
  now rewrite G.
Qed.

Lemma list_thr_NoDup : NoDup list_thr.
Proof.
  vm_compute. repeat constructor; simpl; intuition discriminate.
Qed.

Lemma fresh_thresholds :
  dict_keys (fold_left (fun m thr => dict_set thr empty_acc m) list_thr []) = list_thr /\
  forall thr acc,
    dict_get thr (fold_left (fun m thr => dict_set thr empty_acc m) list_thr []) = Some acc ->
    acc = empty_acc.
Proof.
  split; [vm_compute; reflexivity|].
  intros thr acc G. apply dict_get_In in G.
  assert (F : Forall (fun kv : Q * StrainAcc => snd kv = empty_acc)
                     (fold_left (fun m thr => dict_set thr empty_acc m) list_thr []))
    by (vm_compute; repeat constructor).
  rewrite Forall_forall in F. exact (F _ G).
Qed.

Lemma strain_view_get (d d' : StrainTable) e :
  dict_get e d' = dict_get e d -> forall thr, strain_view d' e thr = strain_view d e thr.
Proof. intros E thr. unfold strain_view. now rewrite E. Qed.

Lemma shaped_get (d : StrainTable) e m :
  shaped d -> dict_get e d = Some m -> dict_keys m = list_thr.
Proof. intros [_ S] G. apply (S e). now apply dict_get_In. Qed.

(** The loop over the thresholds for one gene and one strain *)
Lemma thresholds_loop g members e single : forall ths (d d' : StrainTable) m,
  NoDup ths -> dict_get e d = Some m ->
  for_each (threshold_step g members e single) ths d = Ok d' ->
  dict_keys d' = dict_keys d /\
  (forall e', e' <> e -> dict_get e' d' = dict_get e' d) /\
  exists m',
    dict_get e d' = Some m' /\ dict_keys m' = dict_keys m /\
    forall thr,
      option_map acc_stat (dict_get thr m')
      = if py_in thr ths && Qle_bool thr (coverage g)
        then option_map (bump g (copy_number e members))
                        (option_map acc_stat (dict_get thr m))
        else option_map acc_stat (dict_get thr m).
Proof.
  induction ths as [|t ths IH]; intros d d' m Nd Gm E; cbn [for_each] in E.
  - injection E as <-. split; [reflexivity|]. split; [reflexivity|].
    exists m. split; [exact Gm|]. split; reflexivity.
  - inversion Nd as [|? ? Ht Nd']; subst.
    assert (Pt : py_in t ths = false).
    { destruct (py_in t ths) eqn:P; [|reflexivity]. apply py_in_In in P. contradiction. }
    unfold threshold_step at 1 in E.
    destruct (Qle_bool t (coverage g)) eqn:Le.
    + rewrite Gm in E. cbn [of_option bind] in E.
      destruct (dict_get t m) as [acc|] eqn:Gt; cbn [of_option bind] in E; [|discriminate].
      destruct (count_copies e members) as [c|] eqn:Ec; cbn [bind] in E; [|discriminate].
      apply count_copies_number in Ec. subst c.
      set (m1 := dict_set t (count_gene g (copy_number e members) single acc) m) in *.
      destruct (IH (dict_set e m1 d) d' m1 Nd' (dict_get_set_same _ _ _) E)
        as [K' [O' [m' [G' [Km' V']]]]].
      split; [rewrite K'; now apply (dict_set_keys_same _ _ m)|].
      split.
      { intros e' Ne. rewrite O' by exact Ne. now apply dict_get_set_other. }
      exists m'. split; [exact G'|].
      split; [rewrite Km'; unfold m1; now apply (dict_set_keys_same _ _ acc)|].
      intro thr. rewrite V'. unfold py_in. cbn [existsb]. fold (py_in thr ths).
      destruct (key_eqb thr t) eqn:Ek.
      * apply key_eqb_eq in Ek. subst thr. rewrite Pt, Le. cbn [orb andb].
        unfold m1. rewrite dict_get_set_same, Gt. cbn [option_map].
        now rewrite count_gene_stat.
      * cbn [orb]. unfold m1. rewrite dict_get_set_other; [reflexivity|].
        intros ->. rewrite key_eqb_refl in Ek. discriminate.
    + destruct (IH d d' m Nd' Gm E) as [K' [O' [m' [G' [Km' V']]]]].
      split; [exact K'|]. split; [exact O'|].
      exists m'. split; [exact G'|]. split; [exact Km'|].
      intro thr. rewrite V'. unfold py_in. cbn [existsb]. fold (py_in thr ths).
      destruct (key_eqb thr t) eqn:Ek; [|reflexivity].
      apply key_eqb_eq in Ek. subst thr. rewrite Pt, Le. reflexivity.
Qed.


Lemma shaped_set (d : StrainTable) e m :
  shaped d -> dict_keys m = list_thr -> shaped (dict_set e m d).
Proof.
  intros [Nd S] Km. split; [now apply dict_set_keys_NoDup|].
  intros e' m' I. apply dict_set_In in I. destruct I as [[-> ->]|I]; [exact Km|].
  now apply (S e').
Qed.

(** The body of [for e in s]: the strain [e] gets the gene at every threshold
    its coverage reaches, the other strains are left alone. *)
Lemma strain_step_spec g members single (d d' : StrainTable) e :
  shaped d -> strain_step g members single d e = Ok d' ->
  shaped d' /\
  (forall e', e' <> e -> dict_get e' d' = dict_get e' d) /\
  forall thr, In thr list_thr ->
    strain_view d' e thr
    = Some (let st := get_or (strain_view d e thr) (mkStrainStat 0 [] []) in
            if Qle_bool thr (coverage g) then bump g (copy_number e members) st else st).
Proof.
  intros Sh E. unfold strain_step in E.
  assert (Init : exists m,
             dict_get e (init_strain e d) = Some m /\ shaped (init_strain e d) /\
             (forall e', e' <> e -> dict_get e' (init_strain e d) = dict_get e' d) /\
             forall thr, In thr list_thr ->
               option_map acc_stat (dict_get thr m)
               = Some (get_or (strain_view d e thr) (mkStrainStat 0 [] []))).
  { unfold init_strain, dict_mem, strain_view.
    destruct (dict_get e d) as [m|] eqn:G.
    - exists m. split; [exact G|]. split; [exact Sh|]. split; [reflexivity|].
      intros thr I. pose proof (shaped_get d e m Sh G) as Km.
      rewrite <- Km in I. apply dict_get_keys in I. destruct I as [acc Ga].
      now rewrite Ga.
    - destruct fresh_thresholds as [Kf Vf].
      eexists. split; [apply dict_get_set_same|].
      split; [now apply shaped_set|].
      split; [intros e' Ne; now apply dict_get_set_other|].
      intros thr I. rewrite <- Kf in I. apply dict_get_keys in I.
      destruct I as [acc Ga]. rewrite Ga. now rewrite (Vf _ _ Ga). }
  destruct Init as [m [Gm [Sh1 [O1 V1]]]].
  destruct (thresholds_loop g members e single list_thr _ d' m list_thr_NoDup Gm E)
    as [K' [O' [m' [G' [Km' V']]]]].
  split; [|split].
  - destruct Sh1 as [Nd1 S1]. split; [now rewrite K'|].
    intros e0 m0 I.
    assert (G0 : dict_get e0 d' = Some m0) by (apply dict_In_get; [now rewrite K'|exact I]).
    destruct (String.eqb_spec e0 e) as [->|Ne].
    + rewrite G' in G0. injection G0 as <-. rewrite Km'.
      apply (S1 e). now apply dict_get_In.
    + rewrite O' in G0 by exact Ne. apply (S1 e0). now apply dict_get_In.
  - intros e' Ne. rewrite O' by exact Ne. now apply O1.
  - intros thr I. unfold strain_view at 1. rewrite G', V'.
    assert (P : py_in thr list_thr = true) by now apply py_in_In.
    rewrite P, (V1 thr I). cbn [andb option_map].
    now destruct (Qle_bool thr (coverage g)).
Qed.

(** The loop [for e in s] over distinct strains *)
Lemma strains_loop g members single : forall s (d d' : StrainTable),
  NoDup s -> shaped d ->
  for_each (strain_step g members single) s d = Ok d' ->
  shaped d' /\
  forall e thr, In thr list_thr ->
    strain_view d' e thr
    = if py_in e s
      then Some (let st := get_or (strain_view d e thr) (mkStrainStat 0 [] []) in
                 if Qle_bool thr (coverage g)
                 then bump g (copy_number e members) st else st)
      else strain_view d e thr.
Proof.
  induction s as [|x s IH]; intros d d' Nd Sh E; cbn [for_each] in E.
  - injection E as <-. split; [exact Sh|]. reflexivity.
  - inversion Nd as [|? ? Hx Nd']; subst.
    destruct (strain_step g members single d x) as [d1|] eqn:E1; cbn [bind] in E;
      [|discriminate].
    destruct (strain_step_spec _ _ _ _ _ _ Sh E1) as [Sh1 [O1 V1]].
    destruct (IH d1 d' Nd' Sh1 E) as [Sh' V'].
    split; [exact Sh'|].
    intros e thr I. rewrite (V' e thr I). unfold py_in. cbn [existsb]. fold (py_in e s).
    destruct (key_eqb e x) eqn:Ek.
    + apply key_eqb_eq in Ek. subst e. cbn [orb].
      assert (P : py_in x s = false).
      { destruct (py_in x s) eqn:P; [|reflexivity]. apply py_in_In in P. contradiction. }
      rewrite P. now apply V1.
    + cbn [orb].
      assert (Ne : e <> x) by (intros ->; rewrite key_eqb_refl in Ek; discriminate).
      now rewrite (strain_view_get d d1 e (O1 e Ne) thr).
Qed.

(** The body of [for v in d_abund] *)
Lemma gene_rollup_spec d_genes (d d' : StrainTable) kv :
  shaped d -> gene_rollup d_genes d kv = Ok d' ->
  shaped d' /\
  forall e thr, In thr list_thr ->
    strain_view d' e thr
    = if in_strain d_genes e kv
      then Some (add_gene d_genes e thr kv (strain_view d e thr))
      else strain_view d e thr.
Proof.
  intros Sh E. unfold gene_rollup in E. unfold in_strain, add_gene, members_of.
  destruct (dict_get (fst kv) d_genes) as [members|]; cbn [of_option bind] in E;
    [|discriminate].
  destruct (map_result strain_of members) as [fields|] eqn:F; cbn [bind] in E;
    [|discriminate].
  apply strain_of_names in F. subst fields. cbn [get_or].
  destruct (strains_loop _ _ _ _ _ _ (dedup_NoDup _) Sh E) as [Sh' V'].
  split; [exact Sh'|].
  intros e thr I. rewrite (V' e thr I).
  replace (py_in e (dedup (strain_names members))) with (py_in e (strain_names members));
    [reflexivity|].
  apply eq_true_iff_eq. rewrite !py_in_In. symmetry. apply dedup_In.
Qed.

Lemma existsb_filter_nil {A : Type} (f g : A -> bool) : forall l,
  existsb f l = false -> filter (fun x => f x && g x) l = [].
Proof.
  induction l as [|x l IH]; simpl; [reflexivity|].
  intro E. apply orb_false_iff in E. destruct E as [Ex El].
  rewrite Ex. simpl. now apply IH.
Qed.

Lemma expected_snoc d_genes pre kv e thr :
  expected d_genes (pre ++ [kv]) e thr
  = if in_strain d_genes e kv
    then Some (add_gene d_genes e thr kv (expected d_genes pre e thr))
    else expected d_genes pre e thr.
Proof.
  unfold expected, add_gene. rewrite existsb_app, filter_app. cbn [existsb filter].
  unfold counted at 2.
  destruct (in_strain d_genes e kv) eqn:M; cbn [andb orb].
  - rewrite orb_true_r.
    destruct (existsb (in_strain d_genes e) pre) eqn:Ex; cbn [get_or].
    + destruct (Qle_bool thr (coverage (snd kv))).
      * unfold strain_stat, bump. cbn [nb_genes abund nb_copy].
        rewrite !map_app, length_app. cbn [map List.length].
        now rewrite Nat.add_1_r.
      * now rewrite app_nil_r.
    + unfold counted. rewrite (existsb_filter_nil _ _ _ Ex). cbn [app].
      now destruct (Qle_bool thr (coverage (snd kv))).
  - now rewrite orb_false_r, app_nil_r.
Qed.

(** The loop over the genes keeps the table in line with the genes seen. *)
Lemma rollup_inv d_genes : forall stats pre (d d' : StrainTable),
  shaped d ->
  (forall e thr, In thr list_thr -> strain_view d e thr = expected d_genes pre e thr) ->
  for_each (gene_rollup d_genes) stats d = Ok d' ->
  shaped d' /\
  forall e thr, In thr list_thr ->
    strain_view d' e thr = expected d_genes (pre ++ stats) e thr.
Proof.
  induction stats as [|kv stats IH]; intros pre d d' Sh V E; cbn [for_each] in E.
  - injection E as <-. rewrite app_nil_r. now split.
  - destruct (gene_rollup d_genes d kv) as [d1|] eqn:E1; cbn [bind] in E; [|discriminate].
    destruct (gene_rollup_spec _ _ _ _ Sh E1) as [Sh1 V1].
    replace (pre ++ kv :: stats) with ((pre ++ [kv]) ++ stats)
      by (now rewrite <- app_assoc).
    apply (IH (pre ++ [kv]) d1 d' Sh1); [|exact E].
    intros e thr I. rewrite (V1 e thr I), expected_snoc.
    now rewrite (V e thr I).
Qed.

Lemma strain_rollup_inv d_genes stats table :
  strain_rollup d_genes stats = Ok table ->
  shaped table /\
  forall e thr, In thr list_thr -> strain_view table e thr = expected d_genes stats e thr.
Proof.
  intro E. apply (rollup_inv d_genes stats [] [] table); [| |exact E].
  - split; [constructor|intros e m []].
  - reflexivity.
Qed.

(** X25.  The strain table is the comprehension it accumulates: a strain is
    in the table when some gene of [d_abund] has a member of that strain, and
    then, at each threshold of [list_thr], ['nb_genes'] counts the genes of
    the strain whose coverage reaches the threshold, ['abund'] lists their
    mean abundances and ['nb_copy'] their numbers of members of the strain,
    in the order of [d_abund]. *)
Theorem strain_table_spec d_genes stats table e thr :
  strain_rollup d_genes stats = Ok table -> In thr list_thr ->
  strain_view table e thr = expected d_genes stats e thr.
Proof.
  intros E I. now apply (proj2 (strain_rollup_inv _ _ _ E)).
Qed.

Lemma filter_length_mono {A : Type} (f g : A -> bool) : forall l,
  (forall x, In x l -> f x = true -> g x = true) ->
  List.length (filter f l) <= List.length (filter g l).
Proof.
  induction l as [|x l IH]; intro H; simpl; [lia|].
  assert (IH' : List.length (filter f l) <= List.length (filter g l)).
  { apply IH. intros y I. apply H. now right. }
  destruct (f x) eqn:Fx.
  - rewrite (H x (or_introl eq_refl) Fx). simpl. lia.
  - destruct (g x); simpl; lia.
Qed.

(** X26.  Raising the coverage threshold never adds a gene to a strain: for
    two thresholds of [list_thr], the gene count under the higher one is at
    most the count under the lower one; and every entry holds as many
    abundances and copy numbers as it counts genes. *)
Theorem thresholds_monotone d_genes stats table e thr thr' s s' :
  strain_rollup d_genes stats = Ok table ->
  In thr list_thr -> In thr' list_thr -> Qle thr thr' ->
  strain_view table e thr = Some s -> strain_view table e thr' = Some s' ->
  nb_genes s' <= nb_genes s /\
  List.length (abund s) = nb_genes s /\ List.length (nb_copy s) = nb_genes s.
Proof.
  intros E I I' Le V V'.
  destruct (strain_rollup_inv _ _ _ E) as [_ Sp].
  rewrite (Sp e thr I) in V. rewrite (Sp e thr' I') in V'. unfold expected in V, V'.
  destruct (existsb (in_strain d_genes e) stats); [|discriminate].
  injection V as <-. injection V' as <-. cbn [strain_stat nb_genes abund nb_copy].
  rewrite !length_map. split; [|now split].
  apply filter_length_mono. intros kv _. unfold counted.
  rewrite !andb_true_iff, !Qle_bool_iff. intros [M C]. split; [exact M|].
  now apply (Qle_trans _ thr').
Qed.

Lemma strain_table_spec_witness :
  strain_view ex_table "sA" (1 # 2) = Some (mkStrainStat 1 [(1 # 1)%Q] [2%Z]).
Proof.
  apply (strain_table_spec ex_strain_genes ex_stats ex_table "sA" (1 # 2)).
  - reflexivity.
  - do 10 right. left. reflexivity.
Defined.

Lemma thresholds_monotone_witness :
  0 <= 1 /\ List.length [(1 # 1)%Q] = 1 /\ List.length [2%Z] = 1.
Proof.
  apply (thresholds_monotone ex_strain_genes ex_stats ex_table "sA" (1 # 2) (3 # 5)
           (mkStrainStat 1 [(1 # 1)%Q] [2%Z]) (mkStrainStat 0 [] [])).
  - reflexivity.
  - do 10 right. left. reflexivity.
  - do 12 right. left. reflexivity.
  - unfold Qle. simpl. lia.
  - reflexivity.
  - reflexivity.
Defined.

Lemma entry_view (table : StrainTable) e m thr acc :
  shaped table -> In (e, m) table -> In (thr, acc) m ->
  In thr list_thr /\ strain_view table e thr = Some (acc_stat acc).
Proof.
  intros [Nd S] Ie It. pose proof (S e m Ie) as Km.
  assert (Ik : In thr (dict_keys m)).
  { unfold dict_keys. apply in_map_iff. now exists (thr, acc). }
  split; [now rewrite <- Km|].
  unfold strain_view. rewrite (dict_In_get _ _ _ Nd Ie).
  rewrite (dict_In_get thr acc m); [reflexivity| |exact It].
  rewrite Km. apply list_thr_NoDup.
Qed.

Lemma copy_number_pos e members i :
  In i members -> List.length (split_on "|" i) = 5 ->
  nth 3 (split_on "|" i) "" = e -> 1 <= copy_number e members.
Proof.
  intros I L N. unfold copy_number.
  assert (F : In i (filter (fun i => (last_but_one i =? e)%string) members)).
  { apply filter_In. split; [exact I|]. apply String.eqb_eq.
    unfold last_but_one. now rewrite L. }
  destruct (filter _ members); [contradiction|simpl; lia].
Qed.

Lemma map_result_total {A B : Type} (f : A -> result B) : forall l,
  (forall x, In x l -> exists y, f x = Ok y) -> exists out, map_result f l = Ok out.
Proof.
  induction l as [|x l IH]; intro H; cbn [map_result].
  - now exists [].
  - destruct (H x (or_introl eq_refl)) as [y Ey]. rewrite Ey. cbn [bind].
    destruct IH as [out Eo]; [intros z I; apply H; now right|].
    rewrite Eo. cbn [bind]. now eexists.
Qed.

(** X27.  When the ids of the members of every gene have exactly five fields
    separated by ["|"], the field read for the strain and the field read for
    the copies are the same one: every copy number in the table is at least
    1 and the last loop of [get_abundance] divides by none that is zero, so it
    returns. *)
Theorem five_field_ids_finalize d_genes stats table :
  (forall v g i, In (v, g) stats -> In i (members_of d_genes v) ->
                 List.length (split_on "|" i) = 5) ->
  strain_rollup d_genes stats = Ok table ->
  (forall e m thr acc, In (e, m) table -> In (thr, acc) m ->
                       Forall (fun c => (1 <= c)%Z) (nb_copy (acc_stat acc))) /\
  exists fin, finalize_all (strain_samples table) = Ok fin.
Proof.
  intros H5 E. destruct (strain_rollup_inv _ _ _ E) as [Sh Sp].
  assert (Copies : forall e m thr acc, In (e, m) table -> In (thr, acc) m ->
                     Forall (fun c => (1 <= c)%Z) (nb_copy (acc_stat acc))).
  { intros e m thr acc Ie It.
    destruct (entry_view _ _ _ _ _ Sh Ie It) as [I V].
    rewrite (Sp e thr I) in V. unfold expected in V.
    destruct (existsb (in_strain d_genes e) stats); [|discriminate].
    injection V as <-. cbn [strain_stat nb_copy].
    apply Forall_forall. intros c Ic. apply in_map_iff in Ic.
    destruct Ic as [[v g] [<- Ic]]. apply filter_In in Ic. destruct Ic as [Is C].
    unfold counted, in_strain in C. apply andb_true_iff in C. destruct C as [M _].
    apply py_in_In in M. unfold strain_names in M. apply in_map_iff in M.
    destruct M as [i [N Ii]]. cbn [fst] in *.
    pose proof (copy_number_pos e _ i Ii (H5 v g i Is Ii) N). lia. }
  split; [exact Copies|].
  unfold finalize_all. apply map_result_total.
  intros [e stats0] I. unfold strain_samples in I. apply in_map_iff in I.
  destruct I as [[e0 m] [Eq Ie]]. cbn [fst snd] in Eq. injection Eq as <- <-.
  cbn [fst snd].
  destruct (map_result_total
              (fun t : Q * StrainStat => f <- finalize (snd t) ;; Ok (fst t, f))
              (map (fun t : Q * StrainAcc => (fst t, acc_stat (snd t))) m)) as [out Eo].
  { intros [thr st] It. apply in_map_iff in It. destruct It as [[thr0 acc] [Eq It]].
    cbn [fst snd] in Eq. injection Eq as <- <-. cbn [fst snd].
    unfold finalize.
    destruct (abund_norm_spec (abund (acc_stat acc)) (nb_copy (acc_stat acc)))
      as [norm [En _]].
    { eapply Forall_impl; [|exact (Copies _ _ _ _ Ie It)]. simpl. intros; lia. }
    rewrite En. cbn [bind]. now eexists. }
  rewrite Eo. cbn [bind]. now eexists.
Qed.

Lemma five_field_ids_finalize_witness :
  (forall e m thr acc, In (e, m) ex_table -> In (thr, acc) m ->
                       Forall (fun c => (1 <= c)%Z) (nb_copy (acc_stat acc))) /\
  exists fin, finalize_all (strain_samples ex_table) = Ok fin.
Proof.
  apply (five_field_ids_finalize ex_strain_genes ex_stats ex_table).
  - intros v g i [Ev|[Ev|[]]] Ii; injection Ev as <- <-; simpl in Ii;
      repeat (destruct Ii as [<-|Ii]; [reflexivity|]); contradiction.
  - reflexivity.
Defined.

(** ** Abundance aggregator: every read is accounted for *)

Lemma dict_sum_set {K V : Type} `{PyKey K} (f : V -> nat) (k : K) (v : V) :
  forall d : dict K V,
    list_sum (map (fun kv => f (snd kv)) (dict_set k v d))
    + match dict_get k d with Some v0 => f v0 | None => 0 end
    = list_sum (map (fun kv => f (snd kv)) d) + f v.
Proof.
  induction d as [|[k0 v0] d IH]; simpl; [lia|].
  destruct (key_eqb k k0); simpl; lia.
Qed.

Lemma total_entries_append {V : Type} (k : string) (v : V) (d : dict string (list V)) :
  total_entries (dict_append k v d) = S (total_entries d).
Proof.
  unfold total_entries, dict_append.
  pose proof (dict_sum_set (fun l : list V => List.length l) k
                (get_or (dict_get k d) [] ++ [v]) d) as Hs.
  rewrite length_app in Hs. simpl in Hs.
  destruct (dict_get k d); cbn [get_or app] in *; simpl in Hs; lia.
Qed.

Lemma unique_match_total pg st gene mate align st' :
  unique_match pg st gene mate align = Ok st' ->
  uniq_total (d_abund st') = S (uniq_total (d_abund st)) /\
  multi_reads st' = multi_reads st /\ ambig_reads st' = ambig_reads st /\
  nocolor_reads st' = nocolor_reads st.
Proof.
  intro E. unfold unique_match in E.
  destruct (match dict_get gene (d_abund st) with
            | Some _ => Ok (d_abund st, path_seq st)
            | None => '(g, pseq) <- init_gene pg gene ;;
                      Ok (dict_set gene g (d_abund st), Some pseq)
            end) as [[d1 ps1]|] eqn:E1; cbn [bind] in E; [|discriminate].
  assert (T1 : uniq_total d1 = uniq_total (d_abund st)).
  { destruct (dict_get gene (d_abund st)) as [g0|] eqn:G0.
    - now injection E1 as <- <-.
    - unfold init_gene in E1.
      match type of E1 with
      | context [for_each ?f ?l ?s] =>
          destruct (for_each f l s) as [[abund0 pseq0]|]; cbn [bind] in E1; [|discriminate]
      end.
      injection E1 as <- <-. unfold uniq_total.
      pose proof (dict_sum_set
                    (fun g : GeneAbund => list_sum (map (fun cn => snd cn) (nb_subst g)))
                    gene (mkGeneAbund (0 # 1)%Q abund0 []) (d_abund st)) as Hs.
      rewrite G0 in Hs. simpl in Hs. simpl. lia. }
  destruct (dict_get gene d1) as [g1|] eqn:G1; cbn [of_option bind] in E; [|discriminate].
  destruct ps1 as [pseq|]; cbn [of_option bind] in E; [|discriminate].
  destruct (true_div _ _) as [inc|]; cbn [bind] in E; [|discriminate].
  destruct (for_each _ (al_nodes align) (nodes_abund g1)) as [abund1|];
    cbn [bind] in E; [|discriminate].
  injection E as <-. cbn [d_abund multi_reads ambig_reads nocolor_reads].
  split; [|now split].
  rewrite <- T1. unfold uniq_total.
  match goal with
  | |- context [dict_set gene ?new d1] =>
      pose proof (dict_sum_set
                    (fun x : GeneAbund => list_sum (map (fun cn => snd cn) (nb_subst x)))
                    gene new d1) as Hs
  end.
  rewrite G1 in Hs. cbn [nb_subst] in Hs.
  pose proof (dict_sum_set (fun n : nat => n) (count_subst (al_variants align))
                (Datatypes.S (get_or (dict_get (count_subst (al_variants align))
                                               (nb_subst g1)) 0))
                (nb_subst g1)) as H.
  destruct (dict_get (count_subst (al_variants align)) (nb_subst g1)); cbn [get_or] in *; lia.
Qed.

Lemma ambig_append_total (x : string * string) : forall genes (d : dict string (list (string * string))),
  total_entries (fold_left (fun acc i => dict_append i x acc) genes d)
  = total_entries d + List.length genes.
Proof.
  induction genes as [|g genes IH]; intro d; simpl; [lia|].
  rewrite IH, total_entries_append. lia.
Qed.

Lemma process_pair_accounted pg d_idt read st slot st' n :
  accounted st n -> process_pair pg d_idt read st slot = Ok st' -> accounted st' (S n).
Proof.
  intros [a [En Ha]] E. unfold process_pair in E. destruct slot as [mate alignments].
  destruct (1 <? List.length alignments).
  { injection E as <-. exists a. cbn [multi_reads nocolor_reads d_abund ambig_reads].
    rewrite length_app. simpl. split; lia. }
  destruct (hd_error alignments) as [align|]; cbn [of_option bind] in E; [|discriminate].
  destruct (get_matching_path pg _) as [found|]; cbn [bind] in E; [|discriminate].
  destruct (map_result _ found) as [genes|]; cbn [bind] in E; [|discriminate].
  destruct (dedup genes) as [|gene [|gene2 rest]].
  - destruct (hd_error _) as [first_node|]; cbn [of_option bind] in E; [|discriminate].
    destruct (get_node pg first_node) as [nd|]; cbn [bind] in E; [|discriminate].
    destruct (hd_error _) as [crossing|]; cbn [of_option bind] in E; [|discriminate].
    destruct (idt_cluster _) as [cluster|]; cbn [of_option bind] in E; [|discriminate].
    injection E as <-. exists a. cbn [multi_reads nocolor_reads d_abund ambig_reads].
    rewrite total_entries_append. split; lia.
  - destruct (unique_match_total _ _ _ _ _ _ E) as [U [M [A N]]].
    exists a. rewrite U, M, A, N. split; lia.
  - injection E as <-. exists (S a). cbn [multi_reads nocolor_reads d_abund ambig_reads].
    rewrite ambig_append_total, ?total_entries_append. simpl. split; lia.
Qed.

Lemma process_read_accounted pg d_idt read : forall slots st st' n,
  accounted st n -> for_each (process_pair pg d_idt read) slots st = Ok st' ->
  accounted st' (n + List.length slots).
Proof.
  induction slots as [|slot slots IH]; intros st st' n A E; cbn [for_each] in E.
  - injection E as <-. simpl. now rewrite Nat.add_0_r.
  - destruct (process_pair pg d_idt read st slot) as [st1|] eqn:E1; cbn [bind] in E;
      [|discriminate].
    simpl. replace (n + S (List.length slots)) with (S n + List.length slots) by lia.
    apply (IH st1); [|exact E]. eapply process_pair_accounted; eauto.
Qed.

(** X28.  The loop over reads accounts for every read/mate slot exactly once:
    the slots are the multimapped reads, the reads without colored path, the
    reads counted in the histogram of one gene, and the ambiguous reads, each
    of which is filed under two genes at least. *)
Theorem every_slot_accounted pg d_idt reads st :
  read_loop pg d_idt reads = Ok st -> accounted st (total_slots reads).
Proof.
  unfold read_loop, total_slots.
  assert (G : forall (rs : Reads) st0 st1 n,
             accounted st0 n -> for_each (process_read pg d_idt) rs st0 = Ok st1 ->
             accounted st1 (n + list_sum (map (fun kv => List.length (snd kv)) rs))).
  { induction rs as [|entry rs IH]; intros st0 st1 n A E; cbn [for_each] in E.
    - injection E as <-. simpl. now rewrite Nat.add_0_r.
    - destruct (process_read pg d_idt st0 entry) as [st2|] eqn:E2; cbn [bind] in E;
        [|discriminate].
      simpl. rewrite Nat.add_assoc. apply (IH st2); [|exact E].
      unfold process_read in E2. eapply process_read_accounted; eauto. }
  intro E. apply (G reads initial_abund st 0); [|exact E].
  exists 0. simpl. split; lia.
Qed.

Lemma every_slot_accounted_witness :
  accounted
    (mkAbundState
       [("2-1", ex_gene_abund); ("3", mkGeneAbund (1 # 1)%Q [("3", (1 # 1)%Q)] [(0, 1)])]
       (Some "TTTTT") 0 [] [] [])
    3.
Proof.
  apply (every_slot_accounted ex_pg ex_idt (reads_of ex_lines)).
  vm_compute. reflexivity.
Defined.

(** ** Best-path resolver: every start competes *)
















